(** * VU_JIT64: the x86-64 backend of the vector-unit recompiler

    A shallow embedding of [src/core/ee/vu_jit64.cpp]: the two register
    pools with their least-recently-used allocator, the per-opcode handlers,
    the ABI bridge and the block compiler, together with a small model of
    the host machine on which the emitted instructions run. *)

From Stdlib Require Import ZArith String Lia.
From stdpp Require Import base list.

Local Open Scope Z_scope.

(** ** A result type for code that may call [Errors::die] *)

Inductive result (A : Type) : Type :=
| Ok (a : A)
| Die (msg : string).
Arguments Ok {A} a.
Arguments Die {A} msg.

#[global] Instance result_ret : MRet result := fun A a => Ok a.
#[global] Instance result_bind : MBind result := fun A B f m =>
  match m with
  | Ok a => f a
  | Die msg => Die msg
  end.

Definition is_ok {A} (r : result A) : bool :=
  match r with Ok _ => true | Die _ => false end.

(** ** Host registers

    Modelled from the spec: [REG_64] is declared with the emitter, which is
    not among the sources; the code casts loop indices to it, so it is a
    register number, here in the x86-64 encoding order. *)

Abbreviation REG_64 := nat (only parsing).
Definition RAX : REG_64 := 0%nat.
Definition RCX : REG_64 := 1%nat.
Definition RDX : REG_64 := 2%nat.
Definition RBX : REG_64 := 3%nat.
Definition RSP : REG_64 := 4%nat.
Definition RBP : REG_64 := 5%nat.
Definition RSI : REG_64 := 6%nat.
Definition RDI : REG_64 := 7%nat.
Definition R8 : REG_64 := 8%nat.
Definition R9 : REG_64 := 9%nat.

(** ** Emitter primitives

    One constructor per emitter call made by the source, with the arguments
    in the order of the call. *)

Inductive x64 : Type :=
| MOV16_REG_IMM (imm : Z) (dest : REG_64)
| MOV16_REG (source dest : REG_64)
| load_addr (addr : Z) (dest : REG_64)
| MOV32_MI_MEM (imm : Z) (indir_dest : REG_64)
| MOV64_OI (imm : Z) (dest : REG_64)
| SHL32_REG_IMM (shift : Z) (dest : REG_64)
| MOV32_TO_MEM (source indir_dest : REG_64)
| ADD16_REG_IMM (imm : Z) (dest : REG_64)
| MOV64_TO_MEM (source indir_dest : REG_64)
| MOV64_FROM_MEM (indir_source dest : REG_64)
| MOVAPS_TO_MEM (xmm_source : REG_64) (indir_dest : REG_64)
| MOVAPS_FROM_MEM (indir_source : REG_64) (xmm_dest : REG_64)
| PUSH (reg : REG_64)
| POP (reg : REG_64)
| MOV64_MR (source dest : REG_64)
| RET
| CALL (addr : Z).

(** What the compiler does to its collaborators, in program order: an
    instruction handed to the emitter, or a call into the code cache.  The
    diagnostic printing of the source leaves no event. *)

Inductive event : Type :=
| Emit (i : x64)
| CacheAllocBlock (pc : Z)
| CacheSetRX
| CacheFlushAll.

(** ** Guest state, as the compiler sees it

    Modelled from the spec: [VectorUnit] is declared in a header that is not
    among the sources.  The compiler only takes addresses of its fields
    (the integer registers, the vector registers, the program counter) and
    reads the current program counter. *)

Record VectorUnit : Type := {
  int_gpr : Z -> Z;   (* (uint64_t)&vu.int_gpr[i] *)
  gpr : Z -> Z;       (* (uint64_t)&vu.gpr[i] *)
  PC : Z;             (* (uint64_t)&vu.PC *)
  get_PC : Z          (* vu.get_PC() *)
}.

(** ** Allocator slots and the compiler state

    Modelled from the spec: the slot record and the two argument counters
    are declared in a header that is not among the sources; the spec gives
    a slot as (bound guest id, used, locked, age: integer) and the counters
    as running counts of argument slots. *)

Record AllocReg : Type := {
  used : bool;
  locked : bool;
  age : Z;
  vu_reg : Z
}.

#[global] Instance AllocReg_inhabited : Inhabited AllocReg :=
  populate {| used := false; locked := false; age := 0; vu_reg := 0 |}.

Record VU_JIT64 : Type := {
  int_regs : list AllocReg;
  xmm_regs : list AllocReg;
  abi_int_count : nat;
  abi_xmm_count : nat;
  trace : list event
}.

Definition with_int_regs (rs : list AllocReg) (s : VU_JIT64) : VU_JIT64 :=
  {| int_regs := rs; xmm_regs := xmm_regs s;
     abi_int_count := abi_int_count s; abi_xmm_count := abi_xmm_count s;
     trace := trace s |}.

Definition with_xmm_regs (rs : list AllocReg) (s : VU_JIT64) : VU_JIT64 :=
  {| int_regs := int_regs s; xmm_regs := rs;
     abi_int_count := abi_int_count s; abi_xmm_count := abi_xmm_count s;
     trace := trace s |}.

Definition log (evs : list event) (s : VU_JIT64) : VU_JIT64 :=
  {| int_regs := int_regs s; xmm_regs := xmm_regs s;
     abi_int_count := abi_int_count s; abi_xmm_count := abi_xmm_count s;
     trace := trace s ++ evs |}.

Definition emit (code : list x64) (s : VU_JIT64) : VU_JIT64 :=
  log (Emit <$> code) s.

(** ** [VU_JIT64::reset] *)

Definition clear_slot (r : AllocReg) : AllocReg :=
  {| used := false; locked := false; age := 0; vu_reg := vu_reg r |}.

Definition lock_slot (r : AllocReg) : AllocReg :=
  {| used := used r; locked := true; age := age r; vu_reg := vu_reg r |}.

Definition reset (s : VU_JIT64) : VU_JIT64 :=
  {| int_regs := alter lock_slot RSP (alter lock_slot RAX (clear_slot <$> int_regs s));
     xmm_regs := clear_slot <$> xmm_regs s;
     abi_int_count := 0;
     abi_xmm_count := 0;
     trace := trace s ++ [CacheFlushAll] |}.

(** ** The allocator: [alloc_int_reg] and [alloc_sse_reg] *)

(** First loop: a slot that is in use for the requested guest register. *)
Definition holds (id : Z) (r : AllocReg) : Prop :=
  used r = true ∧ vu_reg r = id.

#[global] Instance holds_dec id r : Decision (holds id r).
Proof. unfold holds. apply _. Defined.

(** Second loop: every slot in use grows one allocation older. *)
Definition grow_older (r : AllocReg) : AllocReg :=
  if used r
  then {| used := used r; locked := locked r; age := age r + 1; vu_reg := vu_reg r |}
  else r.

(** Third loop of [alloc_int_reg], from slot [i] on, with the running
    choice [reg] and its age [age0]. *)
Fixpoint pick_int (rs : list AllocReg) (i reg : nat) (age0 : Z) : nat :=
  match rs with
  | [] => reg
  | r :: rs' =>
      if locked r then pick_int rs' (S i) reg age0
      else if negb (used r) then i
      else if age0 <? age r then pick_int rs' (S i) i (age r)
      else pick_int rs' (S i) reg age0
  end.

(** Third loop of [alloc_sse_reg]: the same scan without the test on
    [locked]. *)
Fixpoint pick_sse (rs : list AllocReg) (i xmm : nat) (age0 : Z) : nat :=
  match rs with
  | [] => xmm
  | r :: rs' =>
      if negb (used r) then i
      else if age0 <? age r then pick_sse rs' (S i) i (age r)
      else pick_sse rs' (S i) xmm age0
  end.

(** The three assignments that bind a slot. *)
Definition bind_slot (id : Z) (r : AllocReg) : AllocReg :=
  {| used := true; locked := locked r; age := 0; vu_reg := id |}.

Definition alloc_int_reg (vu : VectorUnit) (vi_reg : Z) (load_state : bool)
    (s : VU_JIT64) : result (REG_64 * VU_JIT64) :=
  if 16 <=? vi_reg then Die "[VU_JIT64] Alloc Int error"
  else
    match list_find (holds vi_reg) (int_regs s) with
    | Some (i, _) => Ok (i, s)
    | None =>
        let regs := grow_older <$> int_regs s in
        let reg := pick_int regs 0 0 0 in
        let s1 := with_int_regs regs s in
        let s2 :=
          if used (regs !!! reg)
          then emit [load_addr (int_gpr vu (vu_reg (regs !!! reg))) RAX;
                     MOV64_TO_MEM reg RAX] s1
          else s1 in
        let s3 :=
          if load_state
          then emit [load_addr (int_gpr vu vi_reg) RAX; MOV64_FROM_MEM RAX reg] s2
          else s2 in
        Ok (reg, with_int_regs (alter (bind_slot vi_reg) reg regs) s3)
    end.

Definition alloc_sse_reg (vu : VectorUnit) (vf_reg : Z) (load_state : bool)
    (s : VU_JIT64) : result (REG_64 * VU_JIT64) :=
  if 32 <=? vf_reg then Die "[VU_JIT64] Alloc SSE error"
  else
    match list_find (holds vf_reg) (xmm_regs s) with
    | Some (i, _) => Ok (i, s)
    | None =>
        let regs := grow_older <$> xmm_regs s in
        let xmm := pick_sse regs 0 0 0 in
        let s1 := with_xmm_regs regs s in
        let s2 :=
          if used (regs !!! xmm)
          then emit [load_addr (gpr vu (vu_reg (regs !!! xmm))) RAX;
                     MOVAPS_TO_MEM xmm RAX] s1
          else s1 in
        let s3 :=
          if load_state
          then emit [load_addr (gpr vu vf_reg) RAX; MOVAPS_FROM_MEM RAX xmm] s2
          else s2 in
        Ok (xmm, with_xmm_regs (alter (bind_slot vf_reg) xmm regs) s3)
    end.

(** ** [flush_regs] *)

Definition release_slot (r : AllocReg) : AllocReg :=
  {| used := false; locked := locked r; age := age r; vu_reg := vu_reg r |}.

(** The test of both branches of the loop body: in use, for a guest
    register other than number zero. *)
Definition flushable (r : AllocReg) : bool :=
  used r && negb (vu_reg r =? 0).

Definition flush_slot (r : AllocReg) : AllocReg :=
  if flushable r then release_slot r else r.

(** Instructions emitted by the loop from index [i] on: the vector slot
    first, then the integer slot of the same index. *)
Fixpoint flush_code (vu : VectorUnit) (xs rs : list AllocReg) (i : nat) : list x64 :=
  match xs, rs with
  | x :: xs', r :: rs' =>
      (if flushable x
       then [load_addr (gpr vu (vu_reg x)) RAX; MOVAPS_TO_MEM i RAX] else [])
      ++ (if flushable r
          then [load_addr (int_gpr vu (vu_reg r)) RAX; MOV64_TO_MEM i RAX] else [])
      ++ flush_code vu xs' rs' (S i)
  | _, _ => []
  end.

Definition flush_regs (vu : VectorUnit) (s : VU_JIT64) : VU_JIT64 :=
  {| int_regs := flush_slot <$> int_regs s;
     xmm_regs := flush_slot <$> xmm_regs s;
     abi_int_count := abi_int_count s;
     abi_xmm_count := abi_xmm_count s;
     trace := trace s ++ (Emit <$> flush_code vu (xmm_regs s) (int_regs s) 0) |}.

(** ** The intermediate representation

    Modelled from the spec: [IR::Opcode], [IR::Instruction] and [IR::Block]
    are declared in headers that are not among the sources.  An instruction
    is an opcode tag with operand fields; a block is a sequence drained from
    the front, with a cycle count.  [OtherOpcode] stands for every tag that
    [recompile_block] has no case for. *)

Inductive Opcode : Type :=
| LoadConst
| MoveIntReg
| Jump
| JumpAndLink
| VMulVectorByScalar
| JumpIndirect
| AddUnsignedImm
| OtherOpcode (tag : nat).

Record Instruction : Type := {
  op : Opcode;
  get_dest : Z;
  get_source : Z;
  get_source2 : Z;
  get_jump_dest : Z;
  get_return_addr : Z
}.

Record Block : Type := {
  instructions : list Instruction;
  get_cycle_count : Z
}.

(** ** The handlers *)

(** Modelled from the spec: the default of the [load_state] parameter is
    given in the absent header; the spec has the calls that leave it out
    (the source of BranchIndirect and of AddImmediateUnsigned) acquire
    with load. *)
Definition load_state_default : bool := true.

Definition load_const (vu : VectorUnit) (instr : Instruction) (s : VU_JIT64)
    : result VU_JIT64 :=
  '(dest, s) ← alloc_int_reg vu (get_dest instr) false s;
  mret (emit [MOV16_REG_IMM (get_source instr) dest] s).

(** The second call passes [dest] where a [bool] is expected: the state is
    loaded when [dest] is not register number zero. *)
Definition move_int_reg (vu : VectorUnit) (instr : Instruction) (s : VU_JIT64)
    : result VU_JIT64 :=
  '(dest, s) ← alloc_int_reg vu (get_dest instr) false s;
  '(source, s) ← alloc_int_reg vu (get_source instr) (negb (Nat.eqb dest 0)) s;
  mret (emit [MOV16_REG source dest] s).

Definition jump (vu : VectorUnit) (instr : Instruction) (s : VU_JIT64)
    : result VU_JIT64 :=
  mret (emit [load_addr (PC vu) RAX; MOV32_MI_MEM (get_jump_dest instr) RAX] s).

Definition jump_and_link (vu : VectorUnit) (instr : Instruction) (s : VU_JIT64)
    : result VU_JIT64 :=
  let s := emit [load_addr (PC vu) RAX; MOV32_MI_MEM (get_jump_dest instr) RAX] s in
  '(link, s) ← alloc_int_reg vu (get_dest instr) load_state_default s;
  mret (emit [MOV64_OI (get_return_addr instr) link] s).

Definition jump_indirect (vu : VectorUnit) (instr : Instruction) (s : VU_JIT64)
    : result VU_JIT64 :=
  '(return_reg, s) ← alloc_int_reg vu (get_source instr) load_state_default s;
  mret (emit [SHL32_REG_IMM 3 return_reg;
              load_addr (PC vu) RAX;
              MOV32_TO_MEM return_reg RAX] s).

Definition add_unsigned_imm (vu : VectorUnit) (instr : Instruction) (s : VU_JIT64)
    : result VU_JIT64 :=
  '(dest, s) ← alloc_int_reg vu (get_dest instr) false s;
  '(source, s) ← alloc_int_reg vu (get_source instr) load_state_default s;
  let imm := get_source2 instr mod 2 ^ 16 in
  mret (emit [MOV16_REG source dest; ADD16_REG_IMM imm dest] s).

(** Defined in the source, called from nowhere: its call in
    [recompile_block] is commented out. *)
Definition mul_vector_by_scalar (vu : VectorUnit) (instr : Instruction) (s : VU_JIT64)
    : result VU_JIT64 :=
  '(dest, s) ← alloc_sse_reg vu (get_dest instr) false s;
  mret s.

(** ** [recompile_block] *)

(** The [switch] of the loop body. *)
Definition dispatch (vu : VectorUnit) (instr : Instruction) (s : VU_JIT64)
    : result VU_JIT64 :=
  match op instr with
  | LoadConst => load_const vu instr s
  | MoveIntReg => move_int_reg vu instr s
  | Jump => jump vu instr s
  | JumpAndLink => jump_and_link vu instr s
  | VMulVectorByScalar => mret s
  | JumpIndirect => jump_indirect vu instr s
  | AddUnsignedImm => add_unsigned_imm vu instr s
  | OtherOpcode _ => Die "[VU_JIT64] Unknown IR instruction"
  end.

(** The [while] loop: the block hands out its instructions from the front
    until none is left. *)
Fixpoint drain (vu : VectorUnit) (instrs : list Instruction) (s : VU_JIT64)
    : result VU_JIT64 :=
  match instrs with
  | [] => mret s
  | instr :: rest => s ← dispatch vu instr s; drain vu rest s
  end.

Definition prologue : list x64 := [PUSH RBP; MOV64_MR RSP RBP].

Definition epilogue : list x64 := [POP RBP; RET].

(** The result is the block as the loop leaves it, with the compiler state. *)
Definition recompile_block (vu : VectorUnit) (block : Block) (s : VU_JIT64)
    : result (Block * VU_JIT64) :=
  let s := log [CacheAllocBlock (get_PC vu)] s in
  let s := emit prologue s in
  s ← drain vu (instructions block) s;
  let block := {| instructions := []; get_cycle_count := get_cycle_count block |} in
  let s := flush_regs vu s in
  let s := emit [MOV16_REG_IMM (get_cycle_count block) RAX] s in
  let s := emit epilogue s in
  let s := log [CacheSetRX] s in
  mret (block, s).

(** ** The ABI bridge: [prepare_abi] and [call_abi_func] *)

Definition abi_regs : list REG_64 := [RDI; RSI; RDX; RCX; R8; R9].

Definition retire_slot (r : AllocReg) : AllocReg :=
  {| used := false; locked := locked r; age := 0; vu_reg := vu_reg r |}.

Definition with_abi_int_count (n : nat) (s : VU_JIT64) : VU_JIT64 :=
  {| int_regs := int_regs s; xmm_regs := xmm_regs s;
     abi_int_count := n; abi_xmm_count := abi_xmm_count s;
     trace := trace s |}.

Definition prepare_abi (vu : VectorUnit) (value : Z) (s : VU_JIT64)
    : result VU_JIT64 :=
  if (6 <=? abi_int_count s)%nat
  then Die "[VU_JIT64] ABI integer arguments exceeded 6!"
  else
    let arg := abi_regs !!! abi_int_count s in
    let s1 :=
      if used (int_regs s !!! arg)
      then with_int_regs (alter retire_slot arg (int_regs s))
             (emit [load_addr (int_gpr vu (vu_reg (int_regs s !!! arg))) RAX;
                    MOV64_TO_MEM arg RAX] s)
      else s in
    let s2 := emit [load_addr value arg] s1 in
    Ok (with_abi_int_count (S (abi_int_count s)) s2).

Definition call_abi_func (addr : Z) (s : VU_JIT64) : VU_JIT64 :=
  {| int_regs := int_regs s; xmm_regs := xmm_regs s;
     abi_int_count := 0; abi_xmm_count := 0;
     trace := trace s ++ [Emit (CALL addr)] |}.

(** ** The host machine

    Modelled from the spec: the emitter and the instructions it encodes are
    not among the sources; the spec lists the primitives (16/32/64-bit
    moves between registers, immediates and memory, 16-bit add-immediate,
    32-bit shift-left-immediate, push/pop, call, return, 128-bit aligned
    vector load/store).  Each gets the meaning of the x86-64 instruction it
    is named after, on a machine with sixteen 64-bit registers, sixteen
    128-bit registers and a byte-addressed little-endian memory. *)

Record host : Type := {
  reg64 : REG_64 -> Z;
  xmm128 : REG_64 -> Z;
  mem : Z -> Z
}.

Definition set_reg (r : REG_64) (v : Z) (f : REG_64 -> Z) : REG_64 -> Z :=
  fun r' => if Nat.eqb r' r then v else f r'.

Definition with_reg64 (r : REG_64) (v : Z) (h : host) : host :=
  {| reg64 := set_reg r v (reg64 h); xmm128 := xmm128 h; mem := mem h |}.

Definition with_xmm128 (r : REG_64) (v : Z) (h : host) : host :=
  {| reg64 := reg64 h; xmm128 := set_reg r v (xmm128 h); mem := mem h |}.

Definition with_mem (m : Z -> Z) (h : host) : host :=
  {| reg64 := reg64 h; xmm128 := xmm128 h; mem := m |}.

(** [n] bytes of [v], least significant first, written from [addr] on. *)
Definition store_bytes (n : Z) (addr v : Z) (m : Z -> Z) : Z -> Z :=
  fun a =>
    if (addr <=? a) && (a <? addr + n)
    then Z.land (Z.shiftr v (8 * (a - addr))) 255
    else m a.

(** The number held by the [n] bytes from [addr] on. *)
Fixpoint load_bytes (n : nat) (addr : Z) (m : Z -> Z) : Z :=
  match n with
  | O => 0
  | S n' => m addr mod 256 + 256 * load_bytes n' (addr + 1) m
  end.

(** A 16-bit operation leaves the upper 48 bits of its destination. *)
Definition low16 (old new : Z) : Z :=
  old - old mod 2 ^ 16 + new mod 2 ^ 16.

Definition exec_instr (i : x64) (h : host) : option host :=
  match i with
  | MOV16_REG_IMM imm dest =>
      Some (with_reg64 dest (low16 (reg64 h dest) imm) h)
  | MOV16_REG source dest =>
      Some (with_reg64 dest (low16 (reg64 h dest) (reg64 h source)) h)
  | load_addr addr dest =>
      Some (with_reg64 dest addr h)
  | MOV32_MI_MEM imm indir_dest =>
      Some (with_mem (store_bytes 4 (reg64 h indir_dest) imm (mem h)) h)
  | MOV64_OI imm dest =>
      Some (with_reg64 dest (imm mod 2 ^ 64) h)
  | SHL32_REG_IMM shift dest =>
      Some (with_reg64 dest
              (Z.shiftl (reg64 h dest mod 2 ^ 32) (shift mod 32) mod 2 ^ 32) h)
  | MOV32_TO_MEM source indir_dest =>
      Some (with_mem (store_bytes 4 (reg64 h indir_dest) (reg64 h source) (mem h)) h)
  | ADD16_REG_IMM imm dest =>
      Some (with_reg64 dest (low16 (reg64 h dest) (reg64 h dest + imm)) h)
  | MOV64_TO_MEM source indir_dest =>
      Some (with_mem (store_bytes 8 (reg64 h indir_dest) (reg64 h source) (mem h)) h)
  | MOV64_FROM_MEM indir_source dest =>
      Some (with_reg64 dest (load_bytes 8 (reg64 h indir_source) (mem h)) h)
  | MOVAPS_TO_MEM xmm_source indir_dest =>
      if reg64 h indir_dest mod 16 =? 0
      then Some (with_mem
                   (store_bytes 16 (reg64 h indir_dest) (xmm128 h xmm_source) (mem h)) h)
      else None
  | MOVAPS_FROM_MEM indir_source xmm_dest =>
      if reg64 h indir_source mod 16 =? 0
      then Some (with_xmm128 xmm_dest (load_bytes 16 (reg64 h indir_source) (mem h)) h)
      else None
  | PUSH reg =>
      let sp := (reg64 h RSP - 8) mod 2 ^ 64 in
      Some (with_reg64 RSP sp (with_mem (store_bytes 8 sp (reg64 h reg) (mem h)) h))
  | POP reg =>
      let v := load_bytes 8 (reg64 h RSP) (mem h) in
      Some (with_reg64 reg v (with_reg64 RSP ((reg64 h RSP + 8) mod 2 ^ 64) h))
  | MOV64_MR source dest =>
      Some (with_reg64 dest (reg64 h source) h)
  | RET => Some (with_reg64 RSP ((reg64 h RSP + 8) mod 2 ^ 64) h)
  | CALL addr => None
  end.

(** Straight-line execution; [None] when an instruction faults (a
    misaligned vector access) or leaves the model (a call to a helper). *)
Fixpoint exec (code : list x64) (h : host) : option host :=
  match code with
  | [] => Some h
  | i :: code' => h' ← exec_instr i h; exec code' h'
  end.

(** The instructions of a trace, in order. *)
Definition emitted (evs : list event) : list x64 :=
  omap (fun ev => match ev with Emit i => Some i | _ => None end) evs.

(** A guest integer register as the guest reads it (16 bits), the 64 bits
    the compiled code moves, a guest vector register, the guest program
    counter. *)
Definition guest_int (vu : VectorUnit) (id : Z) (h : host) : Z :=
  load_bytes 2 (int_gpr vu id) (mem h).

Definition guest_int64 (vu : VectorUnit) (id : Z) (h : host) : Z :=
  load_bytes 8 (int_gpr vu id) (mem h).

Definition guest_vec (vu : VectorUnit) (id : Z) (h : host) : Z :=
  load_bytes 16 (gpr vu id) (mem h).

Definition guest_PC (vu : VectorUnit) (h : host) : Z :=
  load_bytes 4 (PC vu) (mem h).

(** ** Sequences of calls *)

Inductive pool : Type := IntPool | VecPool.

Definition slots (p : pool) (s : VU_JIT64) : list AllocReg :=
  match p with IntPool => int_regs s | VecPool => xmm_regs s end.

Definition acquire (vu : VectorUnit) (p : pool) (id : Z) (load_state : bool)
    (s : VU_JIT64) : result (REG_64 * VU_JIT64) :=
  match p with
  | IntPool => alloc_int_reg vu id load_state s
  | VecPool => alloc_sse_reg vu id load_state s
  end.

(** One request after the other; the slots come back in request order. *)
Fixpoint acquire_all (vu : VectorUnit) (reqs : list (pool * Z * bool))
    (s : VU_JIT64) : result (list (pool * REG_64) * VU_JIT64) :=
  match reqs with
  | [] => mret ([], s)
  | (p, id, load_state) :: reqs' =>
      '(k, s) ← acquire vu p id load_state s;
      '(ks, s) ← acquire_all vu reqs' s;
      mret ((p, k) :: ks, s)
  end.

Inductive abi_op : Type :=
| Prepare (value : Z)
| Call (addr : Z).

Fixpoint run_abi (vu : VectorUnit) (ops : list abi_op) (s : VU_JIT64)
    : result VU_JIT64 :=
  match ops with
  | [] => mret s
  | Prepare value :: ops' => s ← prepare_abi vu value s; run_abi vu ops' s
  | Call addr :: ops' => run_abi vu ops' (call_abi_func addr s)
  end.

(** The states a compiler object goes through: [reset] on the constructed
    object (two arrays of sixteen slots with indeterminate contents), then
    any calls of the allocator, the flush and the ABI bridge, with the
    emitter and the cache called in between. *)
Inductive reachable : VU_JIT64 -> Prop :=
| reach_reset s0 :
    length (int_regs s0) = 16%nat -> length (xmm_regs s0) = 16%nat ->
    reachable (reset s0)
| reach_alloc_int vu id load_state s k s' :
    reachable s -> alloc_int_reg vu id load_state s = Ok (k, s') -> reachable s'
| reach_alloc_sse vu id load_state s k s' :
    reachable s -> alloc_sse_reg vu id load_state s = Ok (k, s') -> reachable s'
| reach_flush vu s :
    reachable s -> reachable (flush_regs vu s)
| reach_prepare_abi vu value s s' :
    reachable s -> prepare_abi vu value s = Ok s' -> reachable s'
| reach_call_abi addr s :
    reachable s -> reachable (call_abi_func addr s)
| reach_log evs s :
    reachable s -> reachable (log evs s).

(** ** What holds of every reachable state *)

Definition pool_inv (bound : Z) (rs : list AllocReg) : Prop :=
  length rs = 16%nat
  ∧ (∀ i r, rs !! i = Some r -> used r = true ->
       locked r = false ∧ 0 <= age r ∧ vu_reg r < bound)
  ∧ (∀ i j r r', rs !! i = Some r -> rs !! j = Some r' ->
       used r = true -> used r' = true -> vu_reg r = vu_reg r' -> i = j).

Definition reserved (i : nat) : Prop := i = RAX ∨ i = RSP.

Definition int_locks (rs : list AllocReg) : Prop :=
  ∀ i r, rs !! i = Some r -> (locked r = true <-> reserved i).

Definition no_locks (rs : list AllocReg) : Prop :=
  ∀ i r, rs !! i = Some r -> locked r = false.

Record alloc_inv (s : VU_JIT64) : Prop := {
  inv_int : pool_inv 16 (int_regs s);
  inv_xmm : pool_inv 32 (xmm_regs s);
  inv_int_locks : int_locks (int_regs s);
  inv_xmm_locks : no_locks (xmm_regs s);
  inv_abi : (abi_int_count s <= 6)%nat
}.

(** ** The selection rule, in the words of the spec

    Slot [k] is the target in pool [rs]: it is not locked, and either it is
    unused and no unlocked slot before it is unused, or no unlocked slot is
    unused, none is older than [k], and those before [k] are strictly
    younger. *)
Definition is_target (rs : list AllocReg) (k : nat) : Prop :=
  ∃ r, rs !! k = Some r ∧ locked r = false ∧
    ((used r = false
      ∧ ∀ j rj, (j < k)%nat -> rs !! j = Some rj -> locked rj = false ->
          used rj = true)
     ∨ (used r = true
        ∧ (∀ j rj, rs !! j = Some rj -> locked rj = false ->
             used rj = true ∧ age rj <= age r)
        ∧ (∀ j rj, (j < k)%nat -> rs !! j = Some rj -> locked rj = false ->
             age rj < age r))).

(** No slot of the pool is in use for [id]: the call misses. *)
Definition misses (id : Z) (rs : list AllocReg) : Prop :=
  ∀ i r, rs !! i = Some r -> ¬ holds id r.

(** ** The order of a compilation *)

(** [drained vu instrs s code s']: the handlers of [instrs], called in list
    order from state [s], succeed, emit the instructions [code] (each
    handler its own stretch, one after the other) and leave state [s']. *)
Inductive drained (vu : VectorUnit)
    : list Instruction -> VU_JIT64 -> list x64 -> VU_JIT64 -> Prop :=
| drained_nil s : drained vu [] s [] s
| drained_cons instr rest s code1 s1 code2 s2 :
    dispatch vu instr s = Ok s1 ->
    trace s1 = trace s ++ (Emit <$> code1) ->
    drained vu rest s1 code2 s2 ->
    drained vu (instr :: rest) s (code1 ++ code2) s2.

(** The state in which [recompile_block] enters its loop. *)
Definition entered (vu : VectorUnit) (s : VU_JIT64) : VU_JIT64 :=
  emit prologue (log [CacheAllocBlock (get_PC vu)] s).

(** The register the spill or fill instruction moves, with its pool. *)
Definition transfers (i : x64) : option (pool * REG_64) :=
  match i with
  | MOV64_TO_MEM source _ => Some (IntPool, source)
  | MOV64_FROM_MEM _ dest => Some (IntPool, dest)
  | MOVAPS_TO_MEM xmm_source _ => Some (VecPool, xmm_source)
  | MOVAPS_FROM_MEM _ xmm_dest => Some (VecPool, xmm_dest)
  | _ => None
  end.

(** ** Layout of the guest state

    The accesses of the compiled code to different guest registers and to
    the program counter do not overlap, and the vector registers are
    aligned. *)
Definition apart (a n b m : Z) : Prop := a + n <= b ∨ b + m <= a.

Record layout_ok (vu : VectorUnit) : Prop := {
  lay_int_int : ∀ i j, 0 <= i < 16 -> 0 <= j < 16 -> i ≠ j ->
      apart (int_gpr vu i) 8 (int_gpr vu j) 8;
  lay_vec_vec : ∀ i j, 0 <= i < 32 -> 0 <= j < 32 -> i ≠ j ->
      apart (gpr vu i) 16 (gpr vu j) 16;
  lay_int_vec : ∀ i j, 0 <= i < 16 -> 0 <= j < 32 ->
      apart (int_gpr vu i) 8 (gpr vu j) 16;
  lay_int_PC : ∀ i, 0 <= i < 16 -> apart (int_gpr vu i) 8 (PC vu) 4;
  lay_vec_PC : ∀ j, 0 <= j < 32 -> apart (gpr vu j) 16 (PC vu) 4;
  lay_vec_aligned : ∀ j, 0 <= j < 32 -> gpr vu j mod 16 = 0
}.

(** Guest register numbers of the slots in use are not negative. *)
Definition ids_nonneg (s : VU_JIT64) : Prop :=
  ∀ p i r, slots p s !! i = Some r -> used r = true -> 0 <= vu_reg r.

(** ** Notions of the statements *)

(** Slot [pk] is a slot of state [s] that is not locked. *)
Definition unlocked_in (s : VU_JIT64) (pk : pool * REG_64) : Prop :=
  ∃ r, slots pk.1 s !! pk.2 = Some r ∧ locked r = false.

(** The locked slots of [s] are the two reserved slots of the integer
    pool, and they are not in use. *)
Definition locks_as_reset (s : VU_JIT64) : Prop :=
  ∀ p i r, slots p s !! i = Some r ->
    (locked r = true <-> p = IntPool ∧ reserved i)
    ∧ (locked r = true -> used r = false).

(** Slot [pk] is one of the sixteen of its pool and not a reserved one. *)
Definition allocatable (pk : pool * REG_64) : Prop :=
  (pk.2 < 16)%nat ∧ ¬ (pk.1 = IntPool ∧ reserved pk.2).

(** The value of guest integer register [id] for the code compiled next:
    the host register of its slot when a slot holds it, the guest state
    otherwise. *)
Definition cached_int (vu : VectorUnit) (s : VU_JIT64) (id : Z) (h : host) : Z :=
  match list_find (holds id) (int_regs s) with
  | Some (k, _) => reg64 h k
  | None => guest_int64 vu id h
  end.

(** The 32-bit shift of [jump_indirect]. *)
Definition shl3 (v : Z) : Z := Z.shiftl (v mod 2 ^ 32) 3 mod 2 ^ 32.

(** The compiler state after compiling [block] in state [s]. *)
Definition compiled_state (vu : VectorUnit) (block : Block) (s : VU_JIT64) : VU_JIT64 :=
  match recompile_block vu block s with
  | Ok (_, s') => s'
  | Die _ => s
  end.

(** ** Concrete objects for the examples *)

(** Thirty-two vector registers of 16 bytes, sixteen integer registers in
    16-byte cells, then the program counter. *)
Definition vu0 : VectorUnit :=
  {| int_gpr := fun i => 4096 + 512 + 16 * i;
     gpr := fun i => 4096 + 16 * i;
     PC := 4096 + 768;
     get_PC := 0 |}.

Definition slot0 : AllocReg :=
  {| used := false; locked := false; age := 0; vu_reg := 0 |}.

(** A constructed object; its slots hold whatever the constructor left. *)
Definition jit0 : VU_JIT64 :=
  {| int_regs := replicate 16 slot0;
     xmm_regs := replicate 16 slot0;
     abi_int_count := 0;
     abi_xmm_count := 0;
     trace := [] |}.

(** The state after one request for guest integer register 5, and after
    one for guest integer register 0. *)
Definition jit5 : VU_JIT64 :=
  match alloc_int_reg vu0 5 false (reset jit0) with
  | Ok (_, s) => s
  | Die _ => jit0
  end.

Definition jit_zero : VU_JIT64 :=
  match alloc_int_reg vu0 0 false (reset jit0) with
  | Ok (_, s) => s
  | Die _ => jit0
  end.

Definition instr0 (o : Opcode) (dest source source2 : Z) : Instruction :=
  {| op := o; get_dest := dest; get_source := source; get_source2 := source2;
     get_jump_dest := 0; get_return_addr := 0 |}.

(** A block of one instruction, costing one cycle; the empty block. *)
Definition block1 (instr : Instruction) : Block :=
  {| instructions := [instr]; get_cycle_count := 1 |}.

Definition block_empty : Block :=
  {| instructions := []; get_cycle_count := 1 |}.

(** Fourteen constants, one for each allocatable slot: guest register 2
    first, then 3 to 15; then guest register 2 := guest register 1 + 0xFFFF. *)
Definition block_full : Block :=
  {| instructions :=
       ((fun id => instr0 LoadConst id 7 0)
          <$> [2; 3; 4; 5; 6; 7; 8; 9; 10; 11; 12; 13; 14; 15])
       ++ [instr0 AddUnsignedImm 2 1 65535];
     get_cycle_count := 15 |}.

(** The instructions of [block] compiled from the reset state. *)
Definition compiled_code (vu : VectorUnit) (block : Block) : list x64 :=
  emitted (trace (compiled_state vu block (reset jit0))).

(** A host whose registers hold zero, with guest integer register 1
    holding 1 and everything else zero; the same with guest integer
    register 0 holding 1 instead. *)
Definition host0 : host :=
  {| reg64 := fun _ => 0;
     xmm128 := fun _ => 0;
     mem := fun a => if a =? int_gpr vu0 1 then 1 else 0 |}.

Definition host_zero : host :=
  {| reg64 := fun _ => 0;
     xmm128 := fun _ => 0;
     mem := fun a => if a =? int_gpr vu0 0 then 1 else 0 |}.

(** [host0] with a value left in RCX by whatever ran before. *)
Definition host_stale : host := with_reg64 RCX 256 host0.

(** What the guest reads in integer register [id] after the code of
    [block], compiled from the reset state, has run on [h]. *)
Definition run_block (block : Block) (h : host) (id : Z) : option Z :=
  h' ← exec (compiled_code vu0 block) h; Some (guest_int vu0 id h').

(** ** Auxiliary notions for the proofs *)

(** The running choice of the third loop after it has seen the slots
    [pre]: still the initial one, all slots so far being locked, or the
    first of the oldest unlocked slots so far. *)
Definition choice_ok (pre : list AllocReg) (reg : nat) (age0 : Z) : Prop :=
  (age0 = 0 ∧ reg = 0%nat ∧ ∀ j rj, pre !! j = Some rj -> locked rj = true)
  ∨ (∃ r, pre !! reg = Some r ∧ locked r = false ∧ age r = age0
       ∧ (∀ j rj, pre !! j = Some rj -> locked rj = false -> age rj <= age0)
       ∧ (∀ j rj, (j < reg)%nat -> pre !! j = Some rj -> locked rj = false ->
            age rj < age0)).

(** The instructions of a miss: the spill of the chosen slot [k] of the
    aged pool [rs], and the fill for the requested register. *)
Definition spill_int (vu : VectorUnit) (rs : list AllocReg) (k : nat) : list x64 :=
  if used (rs !!! k)
  then [load_addr (int_gpr vu (vu_reg (rs !!! k))) RAX; MOV64_TO_MEM k RAX]
  else [].

Definition fill_int (vu : VectorUnit) (id : Z) (load_state : bool) (k : nat)
    : list x64 :=
  if load_state then [load_addr (int_gpr vu id) RAX; MOV64_FROM_MEM RAX k] else [].

Definition spill_sse (vu : VectorUnit) (rs : list AllocReg) (k : nat) : list x64 :=
  if used (rs !!! k)
  then [load_addr (gpr vu (vu_reg (rs !!! k))) RAX; MOVAPS_TO_MEM k RAX]
  else [].

Definition fill_sse (vu : VectorUnit) (id : Z) (load_state : bool) (k : nat)
    : list x64 :=
  if load_state then [load_addr (gpr vu id) RAX; MOVAPS_FROM_MEM RAX k] else [].

(** A pass over a pool that keeps the locks and the bindings and puts no
    slot in use. *)
Definition shrinks (f : AllocReg -> AllocReg) : Prop :=
  ∀ r, locked (f r) = locked r ∧ vu_reg (f r) = vu_reg r
       ∧ (used (f r) = true -> used r = true ∧ (0 <= age r -> 0 <= age (f r))).

(** State [s'] has the trace of [s] with instructions added. *)
Definition appends (s s' : VU_JIT64) : Prop :=
  ∃ code, trace s' = trace s ++ (Emit <$> code).

(** Address [a] lies in the [n] bytes from [addr] on. *)
Definition in_window (addr n a : Z) : Prop := addr <= a < addr + n.

(** What the execution of the flush code needs of the slots it stores: the
    vector stores are aligned, and the stores of different slots do not
    overlap. *)
Record flush_safe (vu : VectorUnit) (xs rs : list AllocReg) : Prop := {
  fs_aligned : ∀ j x, xs !! j = Some x -> flushable x = true ->
      gpr vu (vu_reg x) mod 16 = 0;
  fs_vec_vec : ∀ j j' x x', xs !! j = Some x -> xs !! j' = Some x' ->
      flushable x = true -> flushable x' = true -> j ≠ j' ->
      apart (gpr vu (vu_reg x)) 16 (gpr vu (vu_reg x')) 16;
  fs_int_int : ∀ j j' r r', rs !! j = Some r -> rs !! j' = Some r' ->
      flushable r = true -> flushable r' = true -> j ≠ j' ->
      apart (int_gpr vu (vu_reg r)) 8 (int_gpr vu (vu_reg r')) 8;
  fs_int_vec : ∀ j j' r x, rs !! j = Some r -> xs !! j' = Some x ->
      flushable r = true -> flushable x = true ->
      apart (int_gpr vu (vu_reg r)) 8 (gpr vu (vu_reg x)) 16
}.

(** The host after the store of vector slot [i], of integer slot [i]. *)
Definition flushed_vec (vu : VectorUnit) (x : AllocReg) (i : nat) (h : host) : host :=
  if flushable x
  then with_mem (store_bytes 16 (gpr vu (vu_reg x)) (xmm128 h i) (mem h))
         (with_reg64 RAX (gpr vu (vu_reg x)) h)
  else h.

Definition flushed_int (vu : VectorUnit) (r : AllocReg) (i : nat) (h : host) : host :=
  if flushable r
  then with_mem (store_bytes 8 (int_gpr vu (vu_reg r))
                   (reg64 (with_reg64 RAX (int_gpr vu (vu_reg r)) h) i) (mem h))
         (with_reg64 RAX (int_gpr vu (vu_reg r)) h)
  else h.

(** ** Notions of the further properties *)

(** The instructions that [recompile_block] gets through: one of the seven
    opcodes it has a case for, with every register operand that its handler
    acquires below 16. *)
Definition compilable (instr : Instruction) : bool :=
  match op instr with
  | LoadConst => get_dest instr <? 16
  | MoveIntReg => (get_dest instr <? 16) && (get_source instr <? 16)
  | Jump => true
  | JumpAndLink => get_dest instr <? 16
  | VMulVectorByScalar => true
  | JumpIndirect => get_source instr <? 16
  | AddUnsignedImm => (get_dest instr <? 16) && (get_source instr <? 16)
  | OtherOpcode _ => false
  end.

(** The 64 bits of guest integer register [id] as the code compiled next
    sees them. *)
Definition view (vu : VectorUnit) (s : VU_JIT64) (id : Z) (h : host) : Z :=
  cached_int vu s id h mod 2 ^ 64.

(** The bound of the range test of a pool. *)
Definition id_bound (p : pool) : Z :=
  match p with IntPool => 16 | VecPool => 32 end.

Definition other_pool (p : pool) : pool :=
  match p with IntPool => VecPool | VecPool => IntPool end.

(** The number of slots of a pool that are in use. *)
Definition in_use (rs : list AllocReg) : nat :=
  length (filter (fun r => used r = true) rs).

(** The host after the spill of integer slot [k], which slot record [r]
    describes, and after the fill of slot [k] for guest register [id]. *)
Definition spilled_int (vu : VectorUnit) (r : AllocReg) (k : nat) (h : host) : host :=
  if used r
  then with_mem (store_bytes 8 (int_gpr vu (vu_reg r))
                   (reg64 (with_reg64 RAX (int_gpr vu (vu_reg r)) h) k) (mem h))
         (with_reg64 RAX (int_gpr vu (vu_reg r)) h)
  else h.

Definition filled_int (vu : VectorUnit) (id : Z) (load_state : bool) (k : nat)
    (h : host) : host :=
  if load_state
  then with_reg64 k (load_bytes 8 (int_gpr vu id) (mem h))
         (with_reg64 RAX (int_gpr vu id) h)
  else h.

(** Some slot of the pool is in use for [id]. *)
Definition held (id : Z) (rs : list AllocReg) : Prop :=
  ∃ j r, rs !! j = Some r ∧ holds id r.

(** Requests for the guest integer registers 2 to 15, in this order, and
    the state after them: every allocatable slot is in use, the one for
    register 2 the oldest. *)
Definition full_requests : list (pool * Z * bool) :=
  (fun id => (IntPool, id, false))
    <$> [2; 3; 4; 5; 6; 7; 8; 9; 10; 11; 12; 13; 14; 15].

Definition jit_full : VU_JIT64 :=
  match acquire_all vu0 full_requests (reset jit0) with
  | Ok (_, s) => s
  | Die _ => jit0
  end.

(** A host with a different value in each register. *)
Definition host_count : host :=
  {| reg64 := fun r => 100 + Z.of_nat r;
     xmm128 := fun _ => 0;
     mem := fun _ => 0 |}.

(** The register operands that the handler of [instr] acquires are not
    negative. *)
Definition operands_nonneg (instr : Instruction) : bool :=
  match op instr with
  | LoadConst => 0 <=? get_dest instr
  | MoveIntReg => (0 <=? get_dest instr) && (0 <=? get_source instr)
  | JumpAndLink => 0 <=? get_dest instr
  | JumpIndirect => 0 <=? get_source instr
  | AddUnsignedImm => (0 <=? get_dest instr) && (0 <=? get_source instr)
  | _ => true
  end.

(** Address [a] is a byte of the guest state that the compiled code moves:
    of the 64 bits at an integer register from 0 to 15, of a vector register
    from 0 to 31, or of the program counter. *)
Definition guest_window (vu : VectorUnit) (a : Z) : Prop :=
  (∃ g, 0 <= g < 16 ∧ in_window (int_gpr vu g) 8 a)
  ∨ (∃ g, 0 <= g < 32 ∧ in_window (gpr vu g) 16 a)
  ∨ in_window (PC vu) 4 a.

(** An instruction that writes one host register other than RSP. *)
Definition writes_reg (i : x64) (k : nat) : Prop :=
  match i with
  | MOV16_REG_IMM _ d | MOV16_REG _ d | load_addr _ d | MOV64_OI _ d
  | SHL32_REG_IMM _ d | ADD16_REG_IMM _ d | MOV64_FROM_MEM _ d => d = k
  | _ => False
  end.

(** An instruction that stores [n] bytes at the address in RAX. *)
Definition stores (i : x64) (n : Z) : Prop :=
  match i with
  | MOV32_MI_MEM _ d | MOV32_TO_MEM _ d => d = RAX ∧ n = 4
  | MOV64_TO_MEM _ d => d = RAX ∧ n = 8
  | _ => False
  end.

(** [code] runs to its end on every host, leaves RSP alone and writes to
    the guest state only. *)
Definition framed (vu : VectorUnit) (code : list x64) : Prop :=
  ∀ h, ∃ h', exec code h = Some h'
    ∧ reg64 h' RSP = reg64 h RSP
    ∧ ∀ a, ¬ guest_window vu a -> mem h' a = mem h a.

(** From [s] to [s'] only instructions were emitted, and they are framed. *)
Definition emits (vu : VectorUnit) (s s' : VU_JIT64) : Prop :=
  ∃ code, trace s' = trace s ++ (Emit <$> code) ∧ framed vu code.

(** The slots of a pool that can be in use: all that are not locked. *)
Definition capacity (p : pool) : nat :=
  match p with IntPool => 14%nat | VecPool => 16%nat end.

(** The store of slot [k], in use as [r] says, and the load of guest
    register [id] into slot [k], as the two acquire functions emit them. *)
Definition store_code (vu : VectorUnit) (p : pool) (r : AllocReg) (k : nat) : list x64 :=
  match p with
  | IntPool => [load_addr (int_gpr vu (vu_reg r)) RAX; MOV64_TO_MEM k RAX]
  | VecPool => [load_addr (gpr vu (vu_reg r)) RAX; MOVAPS_TO_MEM k RAX]
  end.

Definition fill_code (vu : VectorUnit) (p : pool) (id : Z) (load_state : bool)
    (k : nat) : list x64 :=
  match p with
  | IntPool => fill_int vu id load_state k
  | VecPool => fill_sse vu id load_state k
  end.

(** The 128 bits of guest vector register [id] as the code compiled next
    sees them: the host register of the slot that holds it, or the guest
    state. *)
Definition view_vec (vu : VectorUnit) (s : VU_JIT64) (id : Z) (h : host) : Z :=
  match list_find (holds id) (xmm_regs s) with
  | Some (k, _) => xmm128 h k mod 2 ^ 128
  | None => guest_vec vu id h
  end.

(** The host after the spill of vector slot [k], which slot record [r]
    describes, and after the fill of slot [k] for guest register [id]. *)
Definition spilled_sse (vu : VectorUnit) (r : AllocReg) (k : nat) (h : host) : host :=
  if used r
  then with_mem (store_bytes 16 (gpr vu (vu_reg r)) (xmm128 h k) (mem h))
         (with_reg64 RAX (gpr vu (vu_reg r)) h)
  else h.

Definition filled_sse (vu : VectorUnit) (id : Z) (load_state : bool) (k : nat)
    (h : host) : host :=
  if load_state
  then with_xmm128 k (load_bytes 16 (gpr vu id) (mem h))
         (with_reg64 RAX (gpr vu id) h)
  else h.

(** * Properties *)

(** ** The result type *)

Lemma bind_Ok {A B} (f : A -> result B) (a : A) : (Ok a ≫= f) = f a.
Proof. reflexivity. Qed.

Lemma bind_Die {A B} (f : A -> result B) (msg : string) : (Die msg ≫= f) = Die msg.
Proof. reflexivity. Qed.

(** ** The selection loops *)

Section Pick.

Implicit Types rs pre : list AllocReg.

Lemma pick_int_loop rs : ∀ pre reg age0,
  (∀ r, r ∈ pre ++ rs -> used r = true -> 0 < age r) ->
  (∀ j rj, pre !! j = Some rj -> locked rj = false -> used rj = true) ->
  choice_ok pre reg age0 ->
  is_target (pre ++ rs) (pick_int rs (length pre) reg age0)
  ∨ (pick_int rs (length pre) reg age0 = 0%nat
     ∧ ∀ r, r ∈ pre ++ rs -> locked r = true).
Proof.
  induction rs as [|r rs IH]; intros pre reg age0 Hage Hpre Hch; simpl.
  - rewrite app_nil_r in *. destruct Hch as [(_ & -> & Hl)|(r & Hr & Hlk & Ha & Hmax & Hlow)].
    + right. split; [done|]. intros r [j Hj]%list_elem_of_lookup. eauto.
    + left. exists r. split_and!; [done..|]. right. split; [eauto|].
      split; [|by subst]. intros j rj Hj Hlj. split; [eauto|]. subst. eauto.
  - assert (Hsnoc : pre ++ r :: rs = (pre ++ [r]) ++ rs) by by rewrite <- app_assoc.
    assert (Hlen : length (pre ++ [r]) = S (length pre))
      by (rewrite length_app; simpl; lia).
    destruct (locked r) eqn:Hlr.
    { rewrite Hsnoc, <- Hlen. apply IH.
      - by rewrite <- Hsnoc.
      - intros j rj Hj Hlj. apply lookup_app_Some in Hj as [Hj|[_ Hj]]; [eauto|].
        apply list_lookup_singleton_Some in Hj as [_ <-]. congruence.
      - destruct Hch as [(-> & -> & Hl)|(r0 & Hr0 & Hlk & Ha & Hmax & Hlow)].
        + left. split_and!; [done..|]. intros j rj Hj.
          apply lookup_app_Some in Hj as [Hj|[_ Hj]]; [eauto|].
          by apply list_lookup_singleton_Some in Hj as [_ <-].
        + right. exists r0. split_and!; [by apply lookup_app_l_Some|done..| |].
          * intros j rj Hj Hlj. apply lookup_app_Some in Hj as [Hj|[_ Hj]]; [eauto|].
            apply list_lookup_singleton_Some in Hj as [_ <-]. congruence.
          * intros j rj Hlt Hj Hlj. apply lookup_app_Some in Hj as [Hj|[Hge Hj]]; [eauto|].
            apply lookup_lt_Some in Hr0. lia. }
    destruct (used r) eqn:Hur; simpl.
    2:{ left. exists r. split_and!; [by rewrite list_lookup_middle|done|].
        left. split; [done|]. intros j rj Hlt Hj Hlj.
        rewrite lookup_app_l in Hj by done. eauto. }
    assert (Hpre' : ∀ j rj, (pre ++ [r]) !! j = Some rj -> locked rj = false ->
              used rj = true).
    { intros j rj Hj Hlj. apply lookup_app_Some in Hj as [Hj|[_ Hj]]; [eauto|].
      by apply list_lookup_singleton_Some in Hj as [_ <-]. }
    assert (Hr : 0 < age r).
    { apply Hage; [|done]. apply elem_of_app. right. apply elem_of_cons. by left. }
    destruct (age0 <? age r) eqn:Hlt.
    + apply Z.ltb_lt in Hlt. rewrite Hsnoc, <- Hlen. apply IH.
      * by rewrite <- Hsnoc.
      * done.
      * right. exists r. split_and!; [by rewrite lookup_app_r, Nat.sub_diag|done..| |].
        -- intros j rj Hj Hlj. apply lookup_app_Some in Hj as [Hj|[_ Hj]].
           ++ destruct Hch as [(_ & _ & Hl)|(r0 & _ & _ & _ & Hmax & _)].
              ** apply Hl in Hj. congruence.
              ** specialize (Hmax _ _ Hj Hlj). lia.
           ++ apply list_lookup_singleton_Some in Hj as [_ <-]. lia.
        -- intros j rj Hj' Hj Hlj. rewrite lookup_app_l in Hj by done.
           destruct Hch as [(_ & _ & Hl)|(r0 & _ & _ & _ & Hmax & _)].
           ** apply Hl in Hj. congruence.
           ** specialize (Hmax _ _ Hj Hlj). lia.
    + apply Z.ltb_ge in Hlt. rewrite Hsnoc, <- Hlen. apply IH.
      * by rewrite <- Hsnoc.
      * done.
      * destruct Hch as [(-> & _ & _)|(r0 & Hr0 & Hlk & Ha & Hmax & Hlow)]; [lia|].
        right. exists r0. split_and!; [by apply lookup_app_l_Some|done..| |].
        -- intros j rj Hj Hlj. apply lookup_app_Some in Hj as [Hj|[_ Hj]]; [eauto|].
           apply list_lookup_singleton_Some in Hj as [_ <-]. lia.
        -- intros j rj Hj' Hj Hlj. apply lookup_app_Some in Hj as [Hj|[Hge Hj]]; [eauto|].
           apply lookup_lt_Some in Hr0. lia.
Qed.

Lemma pick_sse_pick_int rs : ∀ i reg age0,
  Forall (fun r => locked r = false) rs ->
  pick_sse rs i reg age0 = pick_int rs i reg age0.
Proof.
  induction rs as [|r rs IH]; intros i reg age0 Hall; [done|].
  apply Forall_cons in Hall as [Hr Hall]. simpl. rewrite Hr.
  destruct (negb (used r)); [done|]. by rewrite !IH.
Qed.

End Pick.

(** ** The pool invariant *)

Section PoolInv.

Implicit Types rs : list AllocReg.

Lemma shrinks_grow_older : shrinks grow_older.
Proof. intros r. unfold grow_older. destruct (used r) eqn:E; simpl; rewrite ?E; intuition lia. Qed.

Lemma shrinks_flush_slot : shrinks flush_slot.
Proof. intros r. unfold flush_slot. destruct (flushable r); simpl; intuition congruence. Qed.

Lemma shrinks_retire_slot : shrinks retire_slot.
Proof. intros r. simpl. intuition congruence. Qed.

Lemma shrinks_id : shrinks id.
Proof. intros r. simpl. intuition. Qed.

(** Slot by slot, [rs'] is [rs] after some shrinking pass. *)
Lemma pool_inv_pointwise bound rs rs' :
  pool_inv bound rs ->
  length rs' = length rs ->
  (∀ i r', rs' !! i = Some r' -> ∃ f r, shrinks f ∧ rs !! i = Some r ∧ r' = f r) ->
  pool_inv bound rs'.
Proof.
  intros (Hlen & Hused & Hdis) Hlen' Hpt. split_and!.
  - congruence.
  - intros i r' Hi Hu. destruct (Hpt _ _ Hi) as (f & r & Hf & Hr & ->).
    destruct (Hf r) as (Hl & Hv & Hu'). destruct (Hu' Hu) as [Hur Ha].
    destruct (Hused _ _ Hr Hur) as (? & ? & ?). rewrite Hl, Hv. auto.
  - intros i j r1 r2 Hi Hj Hu1 Hu2 Heq.
    destruct (Hpt _ _ Hi) as (f1 & q1 & Hf1 & Hq1 & ->).
    destruct (Hpt _ _ Hj) as (f2 & q2 & Hf2 & Hq2 & ->).
    destruct (Hf1 q1) as (_ & Hv1 & Hu1'). destruct (Hf2 q2) as (_ & Hv2 & Hu2').
    apply (Hdis i j q1 q2); [done|done|by apply Hu1'|by apply Hu2'|congruence].
Qed.

Lemma pool_inv_fmap bound f rs :
  shrinks f -> pool_inv bound rs -> pool_inv bound (f <$> rs).
Proof.
  intros Hf Hinv. apply (pool_inv_pointwise bound rs); [done|by rewrite length_fmap|].
  intros i r' Hi. rewrite list_lookup_fmap in Hi.
  destruct (rs !! i) as [r|] eqn:Hr; simplify_eq/=. eauto.
Qed.

Lemma pool_inv_alter bound f k rs :
  shrinks f -> pool_inv bound rs -> pool_inv bound (alter f k rs).
Proof.
  intros Hf Hinv. apply (pool_inv_pointwise bound rs); [done|by rewrite length_alter|].
  intros i r' Hi. rewrite list_lookup_alter in Hi. case_decide.
  - subst. destruct (rs !! i) as [r|] eqn:Hr; simplify_eq/=. eauto.
  - exists id, r'. auto using shrinks_id.
Qed.

Lemma misses_find id rs : list_find (holds id) rs = None <-> misses id rs.
Proof.
  rewrite list_find_None, Forall_forall. unfold misses. split.
  - intros H i r Hi. apply H. by eapply list_elem_of_lookup_2.
  - intros H r [i Hi]%list_elem_of_lookup_1. eauto.
Qed.

Lemma misses_fmap id f rs :
  (∀ r, used (f r) = used r ∧ vu_reg (f r) = vu_reg r) ->
  misses id rs -> misses id (f <$> rs).
Proof.
  intros Hf Hm i r' Hi. rewrite list_lookup_fmap in Hi.
  destruct (rs !! i) as [r|] eqn:Hr; simplify_eq/=.
  unfold holds. destruct (Hf r) as [-> ->]. by apply (Hm i).
Qed.

Lemma grow_older_same r :
  used (grow_older r) = used r ∧ vu_reg (grow_older r) = vu_reg r.
Proof. unfold grow_older. by destruct (used r) eqn:E. Qed.

Lemma grow_older_locked r : locked (grow_older r) = locked r.
Proof. unfold grow_older. by destruct (used r). Qed.

(** Binding an unlocked slot to a register that no slot holds. *)
Lemma pool_inv_bind bound id k rs :
  pool_inv bound rs ->
  misses id rs ->
  id < bound ->
  (∀ r, rs !! k = Some r -> locked r = false) ->
  pool_inv bound (alter (bind_slot id) k rs).
Proof.
  intros (Hlen & Hused & Hdis) Hmiss Hid Hk. split_and!.
  - by rewrite length_alter.
  - intros i r' Hi Hu. rewrite list_lookup_alter in Hi. case_decide; [|eauto].
    subst. destruct (rs !! i) as [r|] eqn:Hr; simplify_eq/=.
    split_and!; [eauto|lia|done].
  - intros i j r1 r2 Hi Hj Hu1 Hu2 Heq.
    rewrite list_lookup_alter in Hi. rewrite list_lookup_alter in Hj.
    destruct (decide (k = i)) as [Hki|Hki], (decide (k = j)) as [Hkj|Hkj];
      [congruence| | |eauto].
    + subst. destruct (rs !! i) as [r|] eqn:Hr; simplify_eq/=.
      destruct (Hmiss _ _ Hj). by split.
    + subst. destruct (rs !! j) as [r|] eqn:Hr; simplify_eq/=.
      destruct (Hmiss _ _ Hi). by split.
Qed.

(** Passes that keep the [locked] flags keep the pattern of locks. *)
Lemma int_locks_fmap f rs :
  (∀ r, locked (f r) = locked r) -> int_locks rs -> int_locks (f <$> rs).
Proof.
  intros Hf H i r' Hi. rewrite list_lookup_fmap in Hi.
  destruct (rs !! i) as [r|] eqn:Hr; simplify_eq/=. rewrite Hf. eauto.
Qed.

Lemma int_locks_alter f k rs :
  (∀ r, locked (f r) = locked r) -> int_locks rs -> int_locks (alter f k rs).
Proof.
  intros Hf H i r' Hi. rewrite list_lookup_alter in Hi. case_decide; [|eauto].
  subst. destruct (rs !! i) as [r|] eqn:Hr; simplify_eq/=. rewrite Hf. eauto.
Qed.

Lemma no_locks_fmap f rs :
  (∀ r, locked (f r) = locked r) -> no_locks rs -> no_locks (f <$> rs).
Proof.
  intros Hf H i r' Hi. rewrite list_lookup_fmap in Hi.
  destruct (rs !! i) as [r|] eqn:Hr; simplify_eq/=. rewrite Hf. eauto.
Qed.

Lemma no_locks_alter f k rs :
  (∀ r, locked (f r) = locked r) -> no_locks rs -> no_locks (alter f k rs).
Proof.
  intros Hf H i r' Hi. rewrite list_lookup_alter in Hi. case_decide; [|eauto].
  subst. destruct (rs !! i) as [r|] eqn:Hr; simplify_eq/=. rewrite Hf. eauto.
Qed.

Lemma no_locks_Forall rs : no_locks rs -> Forall (fun r => locked r = false) rs.
Proof.
  intros H. apply Forall_forall. intros r [i Hi]%list_elem_of_lookup_1. eauto.
Qed.

End PoolInv.

(** ** The allocator, case by case *)

Section Alloc.

Context (vu : VectorUnit).
Implicit Types (s : VU_JIT64) (rs : list AllocReg).

Lemma grow_older_age r : used r = true -> age (grow_older r) = age r + 1.
Proof. unfold grow_older. by intros ->. Qed.

Lemma is_target_lt rs k : is_target rs k -> (k < length rs)%nat.
Proof. intros (r & Hr & _). by eapply lookup_lt_Some. Qed.

Lemma is_target_unlocked rs k r : is_target rs k -> rs !! k = Some r -> locked r = false.
Proof. intros (r' & Hr & Hl & _) Hk. congruence. Qed.

(** Ageing moves every candidate alike: the target of the aged pool is
    the target of the pool as the call found it. *)
Lemma is_target_grow_older rs k :
  is_target (grow_older <$> rs) k -> is_target rs k.
Proof.
  intros (r' & Hr' & Hl & Hcase). rewrite list_lookup_fmap in Hr'.
  destruct (rs !! k) as [r|] eqn:Hr; simplify_eq/=.
  assert (Hlook : ∀ j rj, rs !! j = Some rj ->
            (grow_older <$> rs) !! j = Some (grow_older rj)).
  { intros j rj Hj. by rewrite list_lookup_fmap, Hj. }
  exists r. rewrite grow_older_locked in Hl. split_and!; [done..|].
  destruct (grow_older_same r) as [Hu _].
  destruct Hcase as [[Hfree Hlow]|(Hbusy & Hmax & Hlow)]; rewrite Hu in *.
  - left. split; [done|]. intros j rj Hjk Hj Hlj.
    specialize (Hlow j _ Hjk (Hlook _ _ Hj)). rewrite grow_older_locked in Hlow.
    destruct (grow_older_same rj) as [<- _]. auto.
  - right. split; [done|]. rewrite (grow_older_age r Hbusy) in *. split.
    + intros j rj Hj Hlj. specialize (Hmax j _ (Hlook _ _ Hj)).
      rewrite grow_older_locked in Hmax. destruct (Hmax Hlj) as [Hub Hle].
      destruct (grow_older_same rj) as [Huj _]. rewrite Huj in Hub.
      rewrite (grow_older_age rj Hub) in Hle. split; [done|lia].
    + intros j rj Hjk Hj Hlj. specialize (Hlow j _ Hjk (Hlook _ _ Hj)).
      rewrite grow_older_locked in Hlow. specialize (Hlow Hlj).
      destruct (Hmax j _ (Hlook _ _ Hj)) as [Hub _]; [by rewrite grow_older_locked|].
      destruct (grow_older_same rj) as [Huj _]. rewrite Huj in Hub.
      rewrite (grow_older_age rj Hub) in Hlow. lia.
Qed.

(** With an unlocked slot in the pool and no negative age among the
    slots in use, the third loop ends on the target. *)
Lemma pick_int_target rs :
  (∀ i r, rs !! i = Some r -> used r = true -> 0 <= age r) ->
  (∃ i r, rs !! i = Some r ∧ locked r = false) ->
  is_target (grow_older <$> rs) (pick_int (grow_older <$> rs) 0 0 0).
Proof.
  intros Hage (i & r & Hi & Hl).
  destruct (pick_int_loop (grow_older <$> rs) [] 0%nat 0) as [H|[_ H]]; [| | |done|].
  - simpl. intros r' [j Hj]%list_elem_of_lookup_1 Hu. rewrite list_lookup_fmap in Hj.
    destruct (rs !! j) as [q|] eqn:Hq; simplify_eq/=.
    destruct (grow_older_same q) as [Huq _]. rewrite Huq in Hu.
    rewrite (grow_older_age q Hu). specialize (Hage _ _ Hq Hu). lia.
  - intros j rj Hj. by rewrite lookup_nil in Hj.
  - left. split_and!; [done..|]. intros j rj Hj. by rewrite lookup_nil in Hj.
  - exfalso. simpl in H. specialize (H (grow_older r)).
    rewrite grow_older_locked, Hl in H. discriminate H.
    apply list_elem_of_lookup. exists i. by rewrite list_lookup_fmap, Hi.
Qed.

Lemma alloc_int_reg_die id load_state s :
  16 <= id -> alloc_int_reg vu id load_state s = Die "[VU_JIT64] Alloc Int error".
Proof. intros H. unfold alloc_int_reg. by rewrite (proj2 (Z.leb_le _ _) H). Qed.

Lemma alloc_sse_reg_die id load_state s :
  32 <= id -> alloc_sse_reg vu id load_state s = Die "[VU_JIT64] Alloc SSE error".
Proof. intros H. unfold alloc_sse_reg. by rewrite (proj2 (Z.leb_le _ _) H). Qed.

Lemma alloc_int_reg_hit id load_state s k r :
  id < 16 ->
  int_regs s !! k = Some r -> holds id r ->
  (∀ j rj, int_regs s !! j = Some rj -> (j < k)%nat -> ¬ holds id rj) ->
  alloc_int_reg vu id load_state s = Ok (k, s).
Proof.
  intros Hid Hk Hh Hfirst. unfold alloc_int_reg.
  rewrite (proj2 (Z.leb_gt _ _) Hid).
  by rewrite (proj2 (list_find_Some (holds id) _ k r)).
Qed.

Lemma alloc_sse_reg_hit id load_state s k r :
  id < 32 ->
  xmm_regs s !! k = Some r -> holds id r ->
  (∀ j rj, xmm_regs s !! j = Some rj -> (j < k)%nat -> ¬ holds id rj) ->
  alloc_sse_reg vu id load_state s = Ok (k, s).
Proof.
  intros Hid Hk Hh Hfirst. unfold alloc_sse_reg.
  rewrite (proj2 (Z.leb_gt _ _) Hid).
  by rewrite (proj2 (list_find_Some (holds id) _ k r)).
Qed.

Lemma alloc_int_reg_miss id load_state s :
  id < 16 -> misses id (int_regs s) ->
  alloc_int_reg vu id load_state s =
    let rs := grow_older <$> int_regs s in
    let k := pick_int rs 0 0 0 in
    Ok (k, {| int_regs := alter (bind_slot id) k rs;
              xmm_regs := xmm_regs s;
              abi_int_count := abi_int_count s;
              abi_xmm_count := abi_xmm_count s;
              trace := trace s ++
                (Emit <$> (spill_int vu rs k ++ fill_int vu id load_state k)) |}).
Proof.
  intros Hid Hm. unfold alloc_int_reg. rewrite (proj2 (Z.leb_gt _ _) Hid).
  rewrite (proj2 (misses_find _ _) Hm). cbv zeta. unfold spill_int, fill_int.
  destruct (used _), load_state; unfold emit, log, with_int_regs; simpl;
    rewrite <- ?app_assoc, ?app_nil_r; reflexivity.
Qed.

Lemma alloc_sse_reg_miss id load_state s :
  id < 32 -> misses id (xmm_regs s) ->
  alloc_sse_reg vu id load_state s =
    let rs := grow_older <$> xmm_regs s in
    let k := pick_sse rs 0 0 0 in
    Ok (k, {| int_regs := int_regs s;
              xmm_regs := alter (bind_slot id) k rs;
              abi_int_count := abi_int_count s;
              abi_xmm_count := abi_xmm_count s;
              trace := trace s ++
                (Emit <$> (spill_sse vu rs k ++ fill_sse vu id load_state k)) |}).
Proof.
  intros Hid Hm. unfold alloc_sse_reg. rewrite (proj2 (Z.leb_gt _ _) Hid).
  rewrite (proj2 (misses_find _ _) Hm). cbv zeta. unfold spill_sse, fill_sse.
  destruct (used _), load_state; unfold emit, log, with_xmm_regs; simpl;
    rewrite <- ?app_assoc, ?app_nil_r; reflexivity.
Qed.

(** A pool either holds the register or misses it; with distinct
    bindings the slot of a hit is the only one. *)
Lemma hit_or_miss id rs :
  (∃ k r, rs !! k = Some r ∧ holds id r
          ∧ ∀ j rj, rs !! j = Some rj -> (j < k)%nat -> ¬ holds id rj)
  ∨ misses id rs.
Proof.
  destruct (list_find (holds id) rs) as [[k r]|] eqn:E.
  - left. exists k, r. by apply list_find_Some in E.
  - right. by apply misses_find.
Qed.

End Alloc.

(** ** The invariant of reachable states *)

Section Invariant.

Context (vu : VectorUnit).
Implicit Types (s : VU_JIT64).

Lemma inv_int_unlocked s :
  alloc_inv s -> ∃ i r, int_regs s !! i = Some r ∧ locked r = false.
Proof.
  intros [(Hlen & _) _ Hlocks _ _].
  destruct (lookup_lt_is_Some_2 (int_regs s) 1) as [r Hr]; [lia|].
  exists 1%nat, r. split; [done|]. destruct (locked r) eqn:E; [|done].
  apply (Hlocks _ _ Hr) in E as [E|E]; discriminate E.
Qed.

Lemma inv_xmm_unlocked s :
  alloc_inv s -> ∃ i r, xmm_regs s !! i = Some r ∧ locked r = false.
Proof.
  intros [_ (Hlen & _) _ Hlocks _].
  destruct (lookup_lt_is_Some_2 (xmm_regs s) 0) as [r Hr]; [lia|].
  exists 0%nat, r. eauto.
Qed.

(** A miss on the integer pool of a state that satisfies the invariant
    ends on the target. *)
Lemma int_miss_target s :
  alloc_inv s ->
  is_target (grow_older <$> int_regs s) (pick_int (grow_older <$> int_regs s) 0 0 0).
Proof.
  intros Hinv. apply pick_int_target; [|by apply inv_int_unlocked].
  intros i r Hi Hu. destruct Hinv as [(_ & Hused & _) _ _ _ _].
  by destruct (Hused _ _ Hi Hu) as (_ & ? & _).
Qed.

Lemma xmm_miss_target s :
  alloc_inv s ->
  is_target (grow_older <$> xmm_regs s) (pick_sse (grow_older <$> xmm_regs s) 0 0 0).
Proof.
  intros Hinv. rewrite pick_sse_pick_int.
  - apply pick_int_target; [|by apply inv_xmm_unlocked].
    intros i r Hi Hu. destruct Hinv as [_ (_ & Hused & _) _ _ _].
    by destruct (Hused _ _ Hi Hu) as (_ & ? & _).
  - apply no_locks_Forall, no_locks_fmap; [apply grow_older_locked|apply Hinv].
Qed.

Lemma bind_slot_locked id r : locked (bind_slot id r) = locked r.
Proof. done. Qed.

Lemma alloc_int_reg_inv id load_state s k s' :
  alloc_inv s -> alloc_int_reg vu id load_state s = Ok (k, s') -> alloc_inv s'.
Proof.
  intros Hinv Halloc.
  destruct (Z.le_gt_cases 16 id) as [Hid|Hid];
    [by rewrite alloc_int_reg_die in Halloc|].
  destruct (hit_or_miss id (int_regs s)) as [(k0 & r & Hk & Hh & Hfirst)|Hm].
  { rewrite (alloc_int_reg_hit vu id load_state s k0 r) in Halloc by done.
    by simplify_eq. }
  rewrite alloc_int_reg_miss in Halloc by done. cbv zeta in Halloc.
  injection Halloc as <- <-. pose proof (int_miss_target s Hinv) as Ht.
  destruct Hinv as [Hint Hxmm Hil Hxl Habi]. split; simpl; [|done| |done..].
  - apply pool_inv_bind; [|by apply misses_fmap, Hm; apply grow_older_same|done|].
    + by apply pool_inv_fmap; [apply shrinks_grow_older|].
    + intros r Hr. by eapply is_target_unlocked.
  - apply int_locks_alter; [done|]. by apply int_locks_fmap; [apply grow_older_locked|].
Qed.

Lemma alloc_sse_reg_inv id load_state s k s' :
  alloc_inv s -> alloc_sse_reg vu id load_state s = Ok (k, s') -> alloc_inv s'.
Proof.
  intros Hinv Halloc.
  destruct (Z.le_gt_cases 32 id) as [Hid|Hid];
    [by rewrite alloc_sse_reg_die in Halloc|].
  destruct (hit_or_miss id (xmm_regs s)) as [(k0 & r & Hk & Hh & Hfirst)|Hm].
  { rewrite (alloc_sse_reg_hit vu id load_state s k0 r) in Halloc by done.
    by simplify_eq. }
  rewrite alloc_sse_reg_miss in Halloc by done. cbv zeta in Halloc.
  injection Halloc as <- <-. pose proof (xmm_miss_target s Hinv) as Ht.
  destruct Hinv as [Hint Hxmm Hil Hxl Habi]. split; simpl; [done| |done| |done].
  - apply pool_inv_bind; [|by apply misses_fmap, Hm; apply grow_older_same|done|].
    + by apply pool_inv_fmap; [apply shrinks_grow_older|].
    + intros r Hr. by eapply is_target_unlocked.
  - apply no_locks_alter; [done|]. by apply no_locks_fmap; [apply grow_older_locked|].
Qed.

Lemma flush_slot_locked r : locked (flush_slot r) = locked r.
Proof. unfold flush_slot. by destruct (flushable r). Qed.

Lemma flush_regs_inv s : alloc_inv s -> alloc_inv (flush_regs vu s).
Proof.
  intros [Hint Hxmm Hil Hxl Habi]. split; simpl; [..|done].
  - by apply pool_inv_fmap; [apply shrinks_flush_slot|].
  - by apply pool_inv_fmap; [apply shrinks_flush_slot|].
  - by apply int_locks_fmap; [apply flush_slot_locked|].
  - by apply no_locks_fmap; [apply flush_slot_locked|].
Qed.

Lemma prepare_abi_inv value s s' :
  alloc_inv s -> prepare_abi vu value s = Ok s' -> alloc_inv s'.
Proof.
  intros [Hint Hxmm Hil Hxl Habi] H. unfold prepare_abi in H.
  destruct (6 <=? abi_int_count s)%nat eqn:Hc; [done|].
  apply Nat.leb_gt in Hc. injection H as <-.
  destruct (used _); split; simpl; try done; try lia.
  - by apply pool_inv_alter; [apply shrinks_retire_slot|].
  - by apply int_locks_alter.
Qed.

Lemma call_abi_func_inv addr s : alloc_inv s -> alloc_inv (call_abi_func addr s).
Proof. intros [Hint Hxmm Hil Hxl Habi]. split; simpl; [done..|lia]. Qed.

Lemma log_inv evs s : alloc_inv s -> alloc_inv (log evs s).
Proof. by intros [Hint Hxmm Hil Hxl Habi]. Qed.

End Invariant.

Lemma reset_int_lookup s0 i :
  int_regs (reset s0) !! i =
    (fun r => {| used := false; locked := bool_decide (reserved i);
                 age := 0; vu_reg := vu_reg r |}) <$> int_regs s0 !! i.
Proof.
  simpl. rewrite !list_lookup_alter, !list_lookup_fmap. unfold reserved, RSP, RAX.
  destruct (int_regs s0 !! i) as [r|] eqn:E.
  - repeat case_decide; subst; rewrite ?list_lookup_fmap, ?E; simpl; try done.
    all: rewrite ?bool_decide_eq_true_2, ?bool_decide_eq_false_2; try done;
      try (intros [?|?]; congruence); auto.
  - repeat case_decide; subst; rewrite ?list_lookup_fmap, ?E; simpl; try done.
Qed.

Lemma reset_xmm_lookup s0 i :
  xmm_regs (reset s0) !! i = clear_slot <$> xmm_regs s0 !! i.
Proof. simpl. by rewrite list_lookup_fmap. Qed.

Lemma reset_inv s0 :
  length (int_regs s0) = 16%nat -> length (xmm_regs s0) = 16%nat ->
  alloc_inv (reset s0).
Proof.
  intros Hi Hx.
  assert (Hfree : ∀ i r, int_regs (reset s0) !! i = Some r -> used r = false).
  { intros i r. rewrite reset_int_lookup.
    destruct (int_regs s0 !! i); intros; by simplify_eq/=. }
  assert (Hfree' : ∀ i r, xmm_regs (reset s0) !! i = Some r ->
            used r = false ∧ locked r = false).
  { intros i r. rewrite reset_xmm_lookup.
    destruct (xmm_regs s0 !! i); intros; by simplify_eq/=. }
  split.
  - split_and!.
    + simpl. by rewrite !length_alter, length_fmap.
    + intros i r Hr Hu. apply Hfree in Hr. congruence.
    + intros i j r r' Hr _ Hu. apply Hfree in Hr. congruence.
  - split_and!.
    + simpl. by rewrite length_fmap.
    + intros i r Hr Hu. apply Hfree' in Hr as [? ?]. congruence.
    + intros i j r r' Hr _ Hu. apply Hfree' in Hr as [? ?]. congruence.
  - intros i r. rewrite reset_int_lookup.
    destruct (int_regs s0 !! i); intros; simplify_eq/=. apply bool_decide_eq_true.
  - intros i r Hr. by apply Hfree' in Hr as [? ?].
  - simpl. lia.
Qed.

Lemma reachable_inv s : reachable s -> alloc_inv s.
Proof.
  induction 1; eauto using reset_inv, alloc_int_reg_inv, alloc_sse_reg_inv,
    flush_regs_inv, prepare_abi_inv, call_abi_func_inv, log_inv.
Qed.

(** ** What a call of the allocator does in a reachable state *)

Section AllocSpec.

Context (vu : VectorUnit).
Implicit Types (s : VU_JIT64).

Lemma holds_unique bound rs id k r j rj :
  pool_inv bound rs ->
  rs !! k = Some r -> holds id r -> rs !! j = Some rj -> holds id rj -> j = k.
Proof.
  intros (_ & _ & Hdis) Hk [Hu Hv] Hj [Huj Hvj].
  apply (Hdis j k rj r); congruence.
Qed.

Lemma alloc_int_reg_spec id load_state s k s' :
  alloc_inv s ->
  alloc_int_reg vu id load_state s = Ok (k, s') ->
  id < 16
  ∧ (∃ r, int_regs s' !! k = Some r ∧ holds id r ∧ locked r = false)
  ∧ xmm_regs s' = xmm_regs s
  ∧ ((∃ r, int_regs s !! k = Some r ∧ holds id r ∧ s' = s)
     ∨ (misses id (int_regs s)
        ∧ is_target (int_regs s) k
        ∧ int_regs s' = alter (bind_slot id) k (grow_older <$> int_regs s)
        ∧ trace s' = trace s ++
            (Emit <$> (spill_int vu (grow_older <$> int_regs s) k
                       ++ fill_int vu id load_state k)))).
Proof.
  intros Hinv Halloc.
  destruct (Z.le_gt_cases 16 id) as [Hid|Hid];
    [by rewrite alloc_int_reg_die in Halloc|].
  split; [done|].
  destruct (hit_or_miss id (int_regs s)) as [(k0 & r & Hk & Hh & Hfirst)|Hm].
  - rewrite (alloc_int_reg_hit vu id load_state s k0 r) in Halloc by done.
    simplify_eq. split_and!; [|done|left; eauto].
    exists r. split_and!; [done..|]. destruct Hh as [Hu _].
    destruct Hinv as [(_ & Hused & _) _ _ _ _]. by destruct (Hused _ _ Hk Hu).
  - rewrite alloc_int_reg_miss in Halloc by done. cbv zeta in Halloc.
    injection Halloc as <- <-. pose proof (int_miss_target s Hinv) as Ht.
    simpl. split_and!; [|done|].
    + destruct Ht as (r & Hr & Hl & _). exists (bind_slot id r).
      rewrite list_lookup_alter_eq, Hr. by split_and!.
    + right. split_and!; [done| |done..]. by apply is_target_grow_older.
Qed.

Lemma alloc_sse_reg_spec id load_state s k s' :
  alloc_inv s ->
  alloc_sse_reg vu id load_state s = Ok (k, s') ->
  id < 32
  ∧ (∃ r, xmm_regs s' !! k = Some r ∧ holds id r ∧ locked r = false)
  ∧ int_regs s' = int_regs s
  ∧ ((∃ r, xmm_regs s !! k = Some r ∧ holds id r ∧ s' = s)
     ∨ (misses id (xmm_regs s)
        ∧ is_target (xmm_regs s) k
        ∧ xmm_regs s' = alter (bind_slot id) k (grow_older <$> xmm_regs s)
        ∧ trace s' = trace s ++
            (Emit <$> (spill_sse vu (grow_older <$> xmm_regs s) k
                       ++ fill_sse vu id load_state k)))).
Proof.
  intros Hinv Halloc.
  destruct (Z.le_gt_cases 32 id) as [Hid|Hid];
    [by rewrite alloc_sse_reg_die in Halloc|].
  split; [done|].
  destruct (hit_or_miss id (xmm_regs s)) as [(k0 & r & Hk & Hh & Hfirst)|Hm].
  - rewrite (alloc_sse_reg_hit vu id load_state s k0 r) in Halloc by done.
    simplify_eq. split_and!; [|done|left; eauto].
    exists r. split_and!; [done..|]. destruct Hh as [Hu _].
    destruct Hinv as [_ (_ & Hused & _) _ _ _]. by destruct (Hused _ _ Hk Hu).
  - rewrite alloc_sse_reg_miss in Halloc by done. cbv zeta in Halloc.
    injection Halloc as <- <-. pose proof (xmm_miss_target s Hinv) as Ht.
    simpl. split_and!; [|done|].
    + destruct Ht as (r & Hr & Hl & _). exists (bind_slot id r).
      rewrite list_lookup_alter_eq, Hr. by split_and!.
    + right. split_and!; [done| |done..]. by apply is_target_grow_older.
Qed.

(** The allocator answers every request in range. *)
Lemma alloc_int_reg_total id load_state s :
  id < 16 -> ∃ k s', alloc_int_reg vu id load_state s = Ok (k, s').
Proof.
  intros Hid. unfold alloc_int_reg. rewrite (proj2 (Z.leb_gt _ _) Hid).
  destruct (list_find _ _) as [[i ?]|]; eauto.
Qed.

Lemma alloc_sse_reg_total id load_state s :
  id < 32 -> ∃ k s', alloc_sse_reg vu id load_state s = Ok (k, s').
Proof.
  intros Hid. unfold alloc_sse_reg. rewrite (proj2 (Z.leb_gt _ _) Hid).
  destruct (list_find _ _) as [[i ?]|]; eauto.
Qed.

End AllocSpec.

(** ** Reachable states for the examples *)

Lemma reset_jit0_reachable : reachable (reset jit0).
Proof. by apply reach_reset. Qed.

Lemma jit5_reachable : reachable jit5.
Proof.
  apply (reach_alloc_int vu0 5 false (reset jit0) RCX); [apply reset_jit0_reachable|].
  reflexivity.
Qed.

(** ** The allocator claims *)

(** C6: in a reachable state in which slot [k] of a pool is in use for guest
    register [G], acquiring [G] from that pool returns [k] and leaves the
    whole compiler state as it was: the slot itself, the age, binding and
    flags of every other slot, and the trace (nothing is emitted), whatever
    [load_state]; acquiring [G] once more gives the same answer. *)
Theorem acquire_hit_unchanged vu p G load_state s k r :
  reachable s ->
  slots p s !! k = Some r ->
  holds G r ->
  acquire vu p G load_state s = Ok (k, s)
  ∧ ('(_, s') ← acquire vu p G load_state s; acquire vu p G load_state s') = Ok (k, s).
Proof.
  intros Hinv%reachable_inv Hk Hh.
  assert (Hacq : acquire vu p G load_state s = Ok (k, s)).
  { destruct Hh as [Hu Hv]. destruct p; simpl in *.
    - destruct (Hinv.(inv_int s)) as (_ & Hused & _).
      destruct (Hused _ _ Hk Hu) as (_ & _ & Hlt).
      apply (alloc_int_reg_hit vu G load_state s k r); [lia|done|done|].
      intros j rj Hj Hlt' Hhj.
      pose proof (holds_unique 16 _ G k r j rj (inv_int s Hinv) Hk (conj Hu Hv) Hj Hhj).
      lia.
    - destruct (Hinv.(inv_xmm s)) as (_ & Hused & _).
      destruct (Hused _ _ Hk Hu) as (_ & _ & Hlt).
      apply (alloc_sse_reg_hit vu G load_state s k r); [lia|done|done|].
      intros j rj Hj Hlt' Hhj.
      pose proof (holds_unique 32 _ G k r j rj (inv_xmm s Hinv) Hk (conj Hu Hv) Hj Hhj).
      lia. }
  split; [done|]. by rewrite Hacq.
Qed.

Lemma acquire_hit_unchanged_witness :
  reachable jit5
  ∧ slots IntPool jit5 !! 1%nat
      = Some {| used := true; locked := false; age := 0; vu_reg := 5 |}
  ∧ acquire vu0 IntPool 5 true jit5 = Ok (1%nat, jit5).
Proof.
  split; [apply jit5_reachable|]. split; [reflexivity|].
  apply (acquire_hit_unchanged vu0 IntPool 5 true jit5 1%nat
           {| used := true; locked := false; age := 0; vu_reg := 5 |}).
  - apply jit5_reachable.
  - reflexivity.
  - split; reflexivity.
Defined.

(** C10: [alloc_int_reg] dies for every guest register number from 16 on
    and [alloc_sse_reg] for every number from 32 on, in any state; below
    these bounds (so for 0 to 15, and for 0 to 31) the call returns, and in
    a reachable state what it returns is one of the sixteen slots of its
    pool, in use for the requested register. *)
Theorem acquire_id_ranges vu s id load_state :
  (16 <= id -> alloc_int_reg vu id load_state s = Die "[VU_JIT64] Alloc Int error")
  ∧ (id < 16 -> ∃ k s', alloc_int_reg vu id load_state s = Ok (k, s')
       ∧ (reachable s -> (k < 16)%nat ∧ ∃ r, int_regs s' !! k = Some r ∧ holds id r))
  ∧ (32 <= id -> alloc_sse_reg vu id load_state s = Die "[VU_JIT64] Alloc SSE error")
  ∧ (id < 32 -> ∃ k s', alloc_sse_reg vu id load_state s = Ok (k, s')
       ∧ (reachable s -> (k < 16)%nat ∧ ∃ r, xmm_regs s' !! k = Some r ∧ holds id r)).
Proof.
  split_and!.
  - apply alloc_int_reg_die.
  - intros Hid. destruct (alloc_int_reg_total vu id load_state s Hid) as (k & s' & Heq).
    exists k, s'. split; [done|]. intros Hinv%reachable_inv.
    pose proof (alloc_int_reg_inv vu _ _ _ _ _ Hinv Heq) as [(Hlen & _) _ _ _ _].
    destruct (alloc_int_reg_spec vu _ _ _ _ _ Hinv Heq) as (_ & (r & Hr & Hh & _) & _).
    split; [|eauto]. apply lookup_lt_Some in Hr. lia.
  - apply alloc_sse_reg_die.
  - intros Hid. destruct (alloc_sse_reg_total vu id load_state s Hid) as (k & s' & Heq).
    exists k, s'. split; [done|]. intros Hinv%reachable_inv.
    pose proof (alloc_sse_reg_inv vu _ _ _ _ _ Hinv Heq) as [_ (Hlen & _) _ _ _].
    destruct (alloc_sse_reg_spec vu _ _ _ _ _ Hinv Heq) as (_ & (r & Hr & Hh & _) & _).
    split; [|eauto]. apply lookup_lt_Some in Hr. lia.
Qed.

(** C3: in a reachable state, a call that misses (no slot of the pool is in
    use for the requested register) returns, and binds, the target of the
    pool as the call found it: the lowest-index unlocked unused slot if
    there is one; otherwise the oldest unlocked slot, the lowest-index one
    among equals.  This holds of both pools. *)
Theorem miss_selects_target vu s id load_state :
  reachable s ->
  (id < 16 -> misses id (int_regs s) ->
     ∃ k s', alloc_int_reg vu id load_state s = Ok (k, s')
       ∧ is_target (int_regs s) k
       ∧ ∃ r, int_regs s' !! k = Some r ∧ holds id r)
  ∧ (id < 32 -> misses id (xmm_regs s) ->
     ∃ k s', alloc_sse_reg vu id load_state s = Ok (k, s')
       ∧ is_target (xmm_regs s) k
       ∧ ∃ r, xmm_regs s' !! k = Some r ∧ holds id r).
Proof.
  intros Hinv%reachable_inv. split.
  - intros Hid Hm.
    destruct (alloc_int_reg_total vu id load_state s Hid) as (k & s' & Heq).
    exists k, s'. split; [done|].
    destruct (alloc_int_reg_spec vu _ _ _ _ _ Hinv Heq)
      as (_ & (r & Hr & Hh & _) & _ & [(r0 & Hr0 & Hh0 & _)|(_ & Ht & _)]).
    + by destruct (Hm _ _ Hr0).
    + eauto.
  - intros Hid Hm.
    destruct (alloc_sse_reg_total vu id load_state s Hid) as (k & s' & Heq).
    exists k, s'. split; [done|].
    destruct (alloc_sse_reg_spec vu _ _ _ _ _ Hinv Heq)
      as (_ & (r & Hr & Hh & _) & _ & [(r0 & Hr0 & Hh0 & _)|(_ & Ht & _)]).
    + by destruct (Hm _ _ Hr0).
    + eauto.
Qed.

(** ** Sequences of requests *)

Section Sequences.

Context (vu : VectorUnit).
Implicit Types (s : VU_JIT64).

Lemma inv_locks_as_reset s : alloc_inv s -> locks_as_reset s.
Proof.
  intros [(_ & Hi & _) (_ & Hx & _) Hil Hxl _] [] i r Hr; simpl in Hr.
  - split.
    + rewrite (Hil _ _ Hr). intuition.
    + intros Hl. destruct (used r) eqn:Hu; [|done].
      destruct (Hi _ _ Hr Hu) as (? & _). congruence.
  - rewrite (Hxl _ _ Hr). split; [|done]. split; [done|by intros [? _]].
Qed.

Lemma inv_allocatable_unlocked s pk :
  alloc_inv s -> allocatable pk -> unlocked_in s pk.
Proof.
  intros Hinv [Hlt Hres]. pose proof (inv_locks_as_reset s Hinv) as Hlocks.
  destruct pk as [p k]. simpl in *.
  destruct (lookup_lt_is_Some_2 (slots p s) k) as [r Hr].
  { destruct Hinv as [(Hi & _) (Hx & _) _ _ _]. destruct p; simpl; lia. }
  exists r. split; [done|]. destruct (locked r) eqn:Hl; [|done].
  destruct (Hlocks _ _ _ Hr) as [Hiff _]. by apply Hiff in Hl.
Qed.

Lemma acquire_step p id load_state s k s' :
  alloc_inv s ->
  acquire vu p id load_state s = Ok (k, s') ->
  alloc_inv s'
  ∧ allocatable (p, k)
  ∧ ∃ code, trace s' = trace s ++ (Emit <$> code)
      ∧ Forall (fun i => ∀ q, transfers i = Some q -> q = (p, k)) code.
Proof.
  intros Hinv Hacq. destruct p; simpl in Hacq.
  - pose proof (alloc_int_reg_inv vu _ _ _ _ _ Hinv Hacq) as Hinv'.
    destruct (alloc_int_reg_spec vu _ _ _ _ _ Hinv Hacq)
      as (_ & (r & Hr & _ & Hl) & _ & Hcase).
    split_and!; [done| |].
    + split; simpl.
      * apply lookup_lt_Some in Hr. destruct Hinv' as [(Hlen & _) _ _ _ _]. lia.
      * intros [_ Hres]. apply (inv_int_locks _ Hinv' _ _ Hr) in Hres. congruence.
    + destruct Hcase as [(_ & _ & _ & ->)|(_ & _ & _ & Htr)].
      * exists []. by rewrite app_nil_r.
      * eexists. split; [done|]. unfold spill_int, fill_int.
        destruct (used _), load_state; simpl; repeat constructor;
          intros q Hq; by simplify_eq/=.
  - pose proof (alloc_sse_reg_inv vu _ _ _ _ _ Hinv Hacq) as Hinv'.
    destruct (alloc_sse_reg_spec vu _ _ _ _ _ Hinv Hacq)
      as (_ & (r & Hr & _ & Hl) & _ & Hcase).
    split_and!; [done| |].
    + split; simpl.
      * apply lookup_lt_Some in Hr. destruct Hinv' as [_ (Hlen & _) _ _ _]. lia.
      * by intros [? _].
    + destruct Hcase as [(_ & _ & _ & ->)|(_ & _ & _ & Htr)].
      * exists []. by rewrite app_nil_r.
      * eexists. split; [done|]. unfold spill_sse, fill_sse.
        destruct (used _), load_state; simpl; repeat constructor;
          intros q Hq; by simplify_eq/=.
Qed.

Lemma acquire_all_steps reqs : ∀ s ks s',
  alloc_inv s ->
  acquire_all vu reqs s = Ok (ks, s') ->
  alloc_inv s'
  ∧ Forall allocatable ks
  ∧ ∃ code, trace s' = trace s ++ (Emit <$> code)
      ∧ Forall (fun i => ∀ q, transfers i = Some q -> allocatable q) code.
Proof.
  induction reqs as [|[[p id] load_state] reqs IH]; intros s ks s' Hinv Hrun; simpl in Hrun.
  - injection Hrun as <- <-. split_and!; [done..|]. exists []. by rewrite app_nil_r.
  - destruct (acquire vu p id load_state s) as [[k s1]|] eqn:Hacq; [|done].
    simpl in Hrun.
    destruct (acquire_all vu reqs s1) as [[ks1 s2]|] eqn:Hrest; [|done].
    simpl in Hrun. injection Hrun as <- <-.
    destruct (acquire_step _ _ _ _ _ _ Hinv Hacq) as (Hinv1 & Hk & code1 & Htr1 & Hc1).
    destruct (IH _ _ _ Hinv1 Hrest) as (Hinv2 & Hks & code2 & Htr2 & Hc2).
    split_and!; [done|by constructor|]. exists (code1 ++ code2). split.
    + by rewrite Htr2, Htr1, fmap_app, app_assoc.
    + apply Forall_app. split; [|done].
      eapply Forall_impl; [exact Hc1|]. intros i Hi q Hq. by rewrite (Hi q Hq).
Qed.

End Sequences.

(** C4: [reset] locks exactly the two reserved slots of the integer pool
    (RAX and RSP) and no vector slot; and after any sequence of acquire
    calls from the reset state, every slot that a call returned is an
    unlocked slot, the locked slots are still these two and are not in
    use, and every spill or fill instruction emitted moves an unlocked
    slot. *)
Theorem locked_never_allocated vu s0 reqs ks s' :
  length (int_regs s0) = 16%nat ->
  length (xmm_regs s0) = 16%nat ->
  acquire_all vu reqs (reset s0) = Ok (ks, s') ->
  locks_as_reset (reset s0)
  ∧ Forall (unlocked_in s') ks
  ∧ locks_as_reset s'
  ∧ ∃ code, trace s' = trace (reset s0) ++ (Emit <$> code)
      ∧ Forall (fun i => ∀ pk, transfers i = Some pk -> unlocked_in s' pk) code.
Proof.
  intros Hi Hx Hrun. pose proof (reset_inv s0 Hi Hx) as Hinv.
  destruct (acquire_all_steps vu reqs _ _ _ Hinv Hrun) as (Hinv' & Hks & code & Htr & Hc).
  split_and!.
  - by apply inv_locks_as_reset.
  - eapply Forall_impl; [exact Hks|]. intros pk. by apply inv_allocatable_unlocked.
  - by apply inv_locks_as_reset.
  - exists code. split; [done|]. eapply Forall_impl; [exact Hc|].
    intros i Hq pk Hpk. apply inv_allocatable_unlocked; eauto.
Qed.

Lemma locked_never_allocated_witness :
  ∃ ks s',
    acquire_all vu0 [(IntPool, 5, false); (VecPool, 3, true); (IntPool, 0, true)]
      (reset jit0) = Ok (ks, s')
    ∧ Forall (unlocked_in s') ks.
Proof.
  eexists _, _. split; [reflexivity|].
  refine (proj1 (proj2 (locked_never_allocated vu0 jit0
            [(IntPool, 5, false); (VecPool, 3, true); (IntPool, 0, true)] _ _
            eq_refl eq_refl eq_refl))).
Defined.

Lemma acquire_id_ranges_witness :
  alloc_int_reg vu0 16 true (reset jit0) = Die "[VU_JIT64] Alloc Int error"
  ∧ ∃ k s', alloc_sse_reg vu0 16 true (reset jit0) = Ok (k, s').
Proof.
  destruct (acquire_id_ranges vu0 (reset jit0) 16 true) as (Hint & _ & _ & Hsse).
  split; [apply Hint; lia|].
  destruct Hsse as (k & s' & Heq & _); [lia|]. by exists k, s'.
Defined.

Lemma miss_selects_target_witness :
  reachable jit5 ∧ misses 7 (int_regs jit5)
  ∧ ∃ k s', alloc_int_reg vu0 7 true jit5 = Ok (k, s') ∧ is_target (int_regs jit5) k.
Proof.
  assert (Hm : misses 7 (int_regs jit5)) by (by apply misses_find).
  split; [apply jit5_reachable|]. split; [exact Hm|].
  destruct (miss_selects_target vu0 jit5 7 true jit5_reachable) as [Hint _].
  destruct Hint as (k & s' & Heq & Ht & _); [lia|exact Hm|]. by exists k, s'.
Defined.

(** ** The ABI bridge *)

Section Abi.

Context (vu : VectorUnit).
Implicit Types (s : VU_JIT64).

Lemma prepare_abi_die value s :
  (6 <= abi_int_count s)%nat ->
  prepare_abi vu value s = Die "[VU_JIT64] ABI integer arguments exceeded 6!".
Proof. intros H. unfold prepare_abi. by rewrite (proj2 (Nat.leb_le _ _) H). Qed.

Lemma prepare_abi_ok value s :
  (abi_int_count s < 6)%nat ->
  ∃ s', prepare_abi vu value s = Ok s' ∧ abi_int_count s' = S (abi_int_count s).
Proof.
  intros H. unfold prepare_abi. rewrite (proj2 (Nat.leb_gt _ _) H).
  eexists. split; [done|]. by destruct (used _).
Qed.

Lemma run_abi_prepares_ok values : ∀ s,
  (abi_int_count s + length values <= 6)%nat ->
  ∃ s', run_abi vu (Prepare <$> values) s = Ok s'
        ∧ abi_int_count s' = (abi_int_count s + length values)%nat.
Proof.
  induction values as [|v values IH]; intros s Hle.
  - exists s. simpl. split; [done|lia].
  - rewrite fmap_cons. cbn [run_abi]. simpl length in Hle. simpl length.
    destruct (prepare_abi_ok v s) as (s1 & -> & Hc); [lia|]. rewrite bind_Ok.
    destruct (IH s1) as (s' & -> & Hc'); [lia|]. exists s'. split; [done|lia].
Qed.

Lemma run_abi_prepares_die values : ∀ s,
  (abi_int_count s <= 6)%nat ->
  (6 < abi_int_count s + length values)%nat ->
  run_abi vu (Prepare <$> values) s
  = Die "[VU_JIT64] ABI integer arguments exceeded 6!".
Proof.
  induction values as [|v values IH]; intros s Hle Hgt; [simpl in Hgt; lia|].
  rewrite fmap_cons. cbn [run_abi]. simpl length in Hgt.
  destruct (decide (abi_int_count s = 6%nat)) as [H6|H6].
  - rewrite prepare_abi_die by lia. done.
  - destruct (prepare_abi_ok v s) as (s1 & -> & Hc); [lia|]. rewrite bind_Ok.
    apply IH; lia.
Qed.

End Abi.

Lemma run_abi_reachable vu ops : ∀ s s',
  reachable s -> run_abi vu ops s = Ok s' -> reachable s'.
Proof.
  induction ops as [|[value|addr] ops IH]; intros s s' Hs H; simpl in H.
  - by injection H as <-.
  - destruct (prepare_abi vu value s) as [s1|] eqn:E; [|discriminate H].
    rewrite bind_Ok in H. eauto using reach_prepare_abi.
  - eauto using reach_call_abi.
Qed.

(** C5: in a reachable state at most six integer arguments are prepared; a
    run of [prepare_abi] calls succeeds as long as the count stays within
    six and dies on the request that would make it seven; [call_abi_func]
    sets the count to zero, so that after it exactly six requests succeed
    and the seventh dies; and whatever calls of the two follow, the count
    is at most six whenever they return. *)
Theorem abi_argument_limit vu s :
  reachable s ->
  (abi_int_count s <= 6)%nat
  ∧ (∀ ops s', run_abi vu ops s = Ok s' -> (abi_int_count s' <= 6)%nat)
  ∧ (∀ values, (abi_int_count s + length values <= 6)%nat ->
       ∃ s', run_abi vu (Prepare <$> values) s = Ok s'
             ∧ abi_int_count s' = (abi_int_count s + length values)%nat)
  ∧ (∀ values, (6 < abi_int_count s + length values)%nat ->
       run_abi vu (Prepare <$> values) s
       = Die "[VU_JIT64] ABI integer arguments exceeded 6!")
  ∧ (∀ addr, abi_int_count (call_abi_func addr s) = 0%nat)
  ∧ (∀ addr values value, length values = 6%nat ->
       ∃ s', run_abi vu (Prepare <$> values) (call_abi_func addr s) = Ok s'
             ∧ abi_int_count s' = 6%nat
             ∧ prepare_abi vu value s'
               = Die "[VU_JIT64] ABI integer arguments exceeded 6!").
Proof.
  intros Hs. pose proof (reachable_inv s Hs) as Hinv.
  pose proof (inv_abi s Hinv) as Hle. split_and!.
  - done.
  - intros ops s' Hrun. apply inv_abi, reachable_inv.
    by apply (run_abi_reachable vu ops s).
  - intros values. apply run_abi_prepares_ok.
  - intros values. by apply run_abi_prepares_die.
  - done.
  - intros addr values value Hlen.
    destruct (run_abi_prepares_ok vu values (call_abi_func addr s)) as (s' & Hrun & Hc).
    { simpl. lia. }
    exists s'. simpl in Hc. split_and!; [done|lia|]. apply prepare_abi_die. lia.
Qed.

Lemma abi_argument_limit_witness :
  reachable (reset jit0)
  ∧ is_ok (run_abi vu0 (Prepare <$> [1; 2; 3; 4; 5; 6]) (reset jit0)) = true
  ∧ run_abi vu0 (Prepare <$> [1; 2; 3; 4; 5; 6; 7]) (reset jit0)
    = Die "[VU_JIT64] ABI integer arguments exceeded 6!".
Proof.
  split; [apply reset_jit0_reachable|].
  destruct (abi_argument_limit vu0 (reset jit0) reset_jit0_reachable)
    as (_ & _ & Hok & Hdie & _).
  split.
  - destruct (Hok [1; 2; 3; 4; 5; 6]) as (s' & -> & _); [simpl; lia|done].
  - apply Hdie. simpl. lia.
Defined.

(** ** The block compiler *)

Section Compile.

Context (vu : VectorUnit).
Implicit Types (s : VU_JIT64).

Lemma appends_refl s : appends s s.
Proof. exists []. by rewrite app_nil_r. Qed.

Lemma appends_trans s1 s2 s3 : appends s1 s2 -> appends s2 s3 -> appends s1 s3.
Proof.
  intros [c1 H1] [c2 H2]. exists (c1 ++ c2).
  by rewrite H2, H1, fmap_app, app_assoc.
Qed.

Lemma appends_emit code s : appends s (emit code s).
Proof. by exists code. Qed.

Lemma appends_alloc_int id load_state s k s' :
  alloc_int_reg vu id load_state s = Ok (k, s') -> appends s s'.
Proof.
  unfold alloc_int_reg. destruct (16 <=? id); [done|].
  destruct (list_find _ _) as [[i ?]|].
  - intros ?; simplify_eq. apply appends_refl.
  - intros ?; simplify_eq.
    destruct (used _), load_state;
      [eexists [_; _; _; _]|eexists [_; _]|eexists [_; _]|exists []];
      simpl; rewrite <- ?app_assoc, ?app_nil_r; reflexivity.
Qed.

Lemma dispatch_appends instr s s' : dispatch vu instr s = Ok s' -> appends s s'.
Proof.
  unfold dispatch, load_const, move_int_reg, jump, jump_and_link, jump_indirect,
    add_unsigned_imm.
  destruct (op instr); intros H;
    repeat match type of H with
           | (alloc_int_reg vu ?id ?l ?s0 ≫= _) = _ =>
               let E := fresh "E" in
               destruct (alloc_int_reg vu id l s0) as [[? ?]|] eqn:E;
               [apply appends_alloc_int in E; rewrite bind_Ok in H; cbv beta iota in H
               |discriminate H]
           end;
    try discriminate H; try (injection H as <-);
    eauto using appends_refl, appends_trans, appends_emit.
Qed.

Lemma drain_drained instrs : ∀ s s',
  drain vu instrs s = Ok s' -> ∃ code, drained vu instrs s code s'.
Proof.
  induction instrs as [|instr rest IH]; intros s s' H; simpl in H.
  - injection H as <-. exists []. constructor.
  - destruct (dispatch vu instr s) as [s1|] eqn:E; [|discriminate H].
    rewrite bind_Ok in H. destruct (IH _ _ H) as [code2 Hd].
    destruct (dispatch_appends _ _ _ E) as [code1 Htr].
    exists (code1 ++ code2). by econstructor.
Qed.

Lemma drained_trace instrs s code s' :
  drained vu instrs s code s' -> trace s' = trace s ++ (Emit <$> code).
Proof.
  induction 1 as [|instr rest s code1 s1 code2 s2 Hd Htr Hrest IH];
    [by rewrite app_nil_r|].
  by rewrite IH, Htr, fmap_app, app_assoc.
Qed.

Lemma drained_drain instrs s code s' :
  drained vu instrs s code s' -> drain vu instrs s = Ok s'.
Proof.
  induction 1 as [|instr rest s code1 s1 code2 s2 Hd Htr Hrest IH]; [done|].
  simpl. by rewrite Hd.
Qed.

End Compile.

(** The states inside and after a compilation are reachable states. *)
Lemma dispatch_reachable vu instr s s' :
  reachable s -> dispatch vu instr s = Ok s' -> reachable s'.
Proof.
  unfold dispatch, load_const, move_int_reg, jump, jump_and_link, jump_indirect,
    add_unsigned_imm, emit.
  destruct (op instr); intros Hs H;
    repeat match goal with
           | Hr : reachable ?s0,
             H : (alloc_int_reg vu ?id ?l (log ?evs ?s0) ≫= _) = _ |- _ =>
               apply (reach_log evs) in Hr
           | Hr : reachable ?s0,
             H : (alloc_int_reg vu ?id ?l ?s0 ≫= _) = _ |- _ =>
               let E := fresh "E" in
               destruct (alloc_int_reg vu id l s0) as [[? ?]|] eqn:E;
               [apply (reach_alloc_int vu id l s0) in E; [|exact Hr]; clear Hr;
                rewrite bind_Ok in H; cbv beta iota in H
               |discriminate H]
           end;
    try discriminate H; injection H as <-; try assumption;
    by apply reach_log.
Qed.

Lemma drain_reachable vu instrs : ∀ s s',
  reachable s -> drain vu instrs s = Ok s' -> reachable s'.
Proof.
  induction instrs as [|instr rest IH]; intros s s' Hs H; simpl in H.
  - by injection H as <-.
  - destruct (dispatch vu instr s) as [s1|] eqn:E; [|discriminate H].
    rewrite bind_Ok in H. eauto using dispatch_reachable.
Qed.

Lemma recompile_block_reachable vu block s block' s' :
  reachable s -> recompile_block vu block s = Ok (block', s') -> reachable s'.
Proof.
  intros Hs H. unfold recompile_block in H. fold (entered vu s) in H.
  destruct (drain vu (instructions block) (entered vu s)) as [s_d|] eqn:Hd;
    [|discriminate H].
  rewrite bind_Ok in H. injection H as <- <-.
  repeat apply reach_log. apply reach_flush.
  eapply drain_reachable; [|exact Hd]. by repeat apply reach_log.
Qed.

(** The order of the events: [recompile_block] either dies inside its
    loop, on the first instruction whose handler dies, or returns with the
    block drained and with exactly these events added to the trace, in
    this order: the cache
    entry for the current program counter, the prologue, the code of the
    handlers of the block's instructions taken in sequence order, the code
    of [flush_regs] for the state the loop left, the move of the cycle
    count into RAX, the epilogue with the return, and last the switch of
    the block to executable. *)
Lemma compile_order vu block s :
  match recompile_block vu block s with
  | Ok (block', s') =>
      instructions block' = []
      ∧ ∃ body s_d,
          drained vu (instructions block) (entered vu s) body s_d
          ∧ trace s' =
              trace s ++ [CacheAllocBlock (get_PC vu)] ++ (Emit <$> prologue)
              ++ (Emit <$> body)
              ++ (Emit <$> flush_code vu (xmm_regs s_d) (int_regs s_d) 0)
              ++ [Emit (MOV16_REG_IMM (get_cycle_count block) RAX)]
              ++ (Emit <$> epilogue)
              ++ [CacheSetRX]
          ∧ int_regs s' = int_regs (flush_regs vu s_d)
          ∧ xmm_regs s' = xmm_regs (flush_regs vu s_d)
          ∧ last (trace s') = Some CacheSetRX
  | Die msg => drain vu (instructions block) (entered vu s) = Die msg
  end.
Proof.
  unfold recompile_block. fold (entered vu s).
  destruct (drain vu (instructions block) (entered vu s)) as [s_d|msg] eqn:Hd; [|done].
  rewrite bind_Ok. cbv zeta. unfold mret, result_ret. split; [done|].
  destruct (drain_drained vu _ _ _ Hd) as [body Hbody]. exists body, s_d.
  pose proof (drained_trace vu _ _ _ _ Hbody) as Htr.
  split_and!; [done| |done|done|].
  - simpl. rewrite Htr. simpl. by rewrite <- !app_assoc.
  - simpl. apply last_snoc.
Qed.

(** ** The stub opcode *)

(** C1, as stated, fails: a block holding a VMulVectorByScalar instruction
    compiles with success, to the very state and code of the empty
    block. *)
Lemma mul_vector_by_scalar_no_marker :
  is_ok (recompile_block vu0 (block1 (instr0 VMulVectorByScalar 3 0 0)) (reset jit0))
    = true
  ∧ recompile_block vu0 (block1 (instr0 VMulVectorByScalar 3 0 0)) (reset jit0)
    = recompile_block vu0 block_empty (reset jit0).
Proof. split; reflexivity. Qed.

(** The handler of the source would have acquired a vector slot; the
    dispatcher does not call it. *)
Lemma mul_vector_by_scalar_not_called :
  mul_vector_by_scalar vu0 (instr0 VMulVectorByScalar 3 0 0) (reset jit0)
  ≠ dispatch vu0 (instr0 VMulVectorByScalar 3 0 0) (reset jit0).
Proof. discriminate. Qed.

(** C1, amended: the dispatcher passes over a VMulVectorByScalar
    instruction with success and without any effect: nothing is emitted,
    no slot is acquired, the state is unchanged, and the loop goes on with
    the next instruction. *)
Theorem mul_vector_by_scalar_skipped vu instr rest s :
  op instr = VMulVectorByScalar ->
  dispatch vu instr s = Ok s
  ∧ drain vu (instr :: rest) s = drain vu rest s.
Proof.
  intros Hop. assert (H : dispatch vu instr s = Ok s).
  { unfold dispatch. by rewrite Hop. }
  split; [done|]. simpl. by rewrite H.
Qed.

Lemma mul_vector_by_scalar_skipped_witness :
  dispatch vu0 (instr0 VMulVectorByScalar 3 0 0) (reset jit0) = Ok (reset jit0).
Proof.
  exact (proj1 (mul_vector_by_scalar_skipped vu0 (instr0 VMulVectorByScalar 3 0 0)
                  [] (reset jit0) eq_refl)).
Defined.

(** ** Memory of the host *)

Section Memory.

Implicit Types (m : Z -> Z) (k : nat).

Lemma store_bytes_in n addr v m a :
  addr <= a < addr + n ->
  store_bytes n addr v m a = (v / 2 ^ (8 * (a - addr))) mod 256.
Proof.
  intros H. unfold store_bytes.
  rewrite (proj2 (Z.leb_le _ _)), (proj2 (Z.ltb_lt _ _)) by lia. simpl.
  rewrite Z.shiftr_div_pow2 by lia. apply (Z.land_ones _ 8). lia.
Qed.

Lemma store_bytes_out n addr v m a :
  ¬ (addr <= a < addr + n) -> store_bytes n addr v m a = m a.
Proof.
  intros H. unfold store_bytes.
  destruct (Z.leb_spec addr a), (Z.ltb_spec a (addr + n)); simpl; try done. lia.
Qed.

Lemma load_bytes_ext k : ∀ addr m m',
  (∀ a, addr <= a < addr + Z.of_nat k -> m a = m' a) ->
  load_bytes k addr m = load_bytes k addr m'.
Proof.
  induction k as [|k IH]; intros addr m m' H; [done|]. simpl.
  rewrite (H addr) by lia. rewrite (IH (addr + 1) m m'); [done|].
  intros a Ha. apply H. lia.
Qed.

Lemma load_bytes_bound k : ∀ addr m, 0 <= load_bytes k addr m < 2 ^ (8 * Z.of_nat k).
Proof.
  induction k as [|k IH]; intros addr m; [simpl; lia|].
  cbn [load_bytes]. specialize (IH (addr + 1) m).
  replace (8 * Z.of_nat (S k)) with (8 + 8 * Z.of_nat k) by lia.
  rewrite Z.pow_add_r by lia. change (2 ^ 8) with 256.
  pose proof (Z.mod_pos_bound (m addr) 256). nia.
Qed.

Lemma load_store_part n addr v m k : ∀ j,
  0 <= j -> j + Z.of_nat k <= n ->
  load_bytes k (addr + j) (store_bytes n addr v m)
  = (v / 2 ^ (8 * j)) mod 2 ^ (8 * Z.of_nat k).
Proof.
  induction k as [|k IH]; intros j Hj Hn.
  - simpl. by rewrite Z.mod_1_r.
  - cbn [load_bytes]. rewrite store_bytes_in by lia.
    replace (addr + j + 1) with (addr + (j + 1)) by lia. rewrite IH by lia.
    replace (addr + j - addr) with j by lia.
    rewrite Z.mod_mod by lia.
    replace (8 * Z.of_nat (S k)) with (8 + 8 * Z.of_nat k) by lia.
    rewrite (Z.pow_add_r 2 8) by lia. change (2 ^ 8) with 256.
    rewrite Z.rem_mul_r by lia.
    replace (8 * (j + 1)) with (8 * j + 8) by lia.
    rewrite (Z.pow_add_r 2 (8 * j)) by lia. change (2 ^ 8) with 256.
    rewrite <- Z.div_div by lia. done.
Qed.

Lemma load_store_same n addr v m k :
  Z.of_nat k <= n ->
  load_bytes k addr (store_bytes n addr v m) = v mod 2 ^ (8 * Z.of_nat k).
Proof.
  intros H. pose proof (load_store_part n addr v m k 0) as Hp.
  rewrite Z.add_0_r in Hp. rewrite Hp by lia. simpl. by rewrite Z.div_1_r.
Qed.

Lemma load_store_apart n addr v m k addr' :
  apart addr n addr' (Z.of_nat k) ->
  load_bytes k addr' (store_bytes n addr v m) = load_bytes k addr' m.
Proof.
  intros H. apply load_bytes_ext. intros a Ha. apply store_bytes_out.
  unfold apart in H. lia.
Qed.

Lemma bind_Some {A B} (f : A -> option B) (a : A) : (Some a ≫= f) = f a.
Proof. reflexivity. Qed.

Lemma exec_app c1 c2 h : exec (c1 ++ c2) h = exec c1 h ≫= exec c2.
Proof.
  revert h. induction c1 as [|i c1 IH]; intros h; [done|]. simpl.
  destruct (exec_instr i h); [apply IH|done].
Qed.

Lemma emitted_app evs1 evs2 : emitted (evs1 ++ evs2) = emitted evs1 ++ emitted evs2.
Proof. apply omap_app. Qed.

Lemma emitted_Emit code : emitted (Emit <$> code) = code.
Proof. induction code as [|i code IH]; [done|]. unfold emitted in *. simpl. by f_equal. Qed.

End Memory.

(** ** Running the code of [flush_regs] *)

Section FlushCode.

Context (vu : VectorUnit).
Implicit Types (xs rs : list AllocReg) (h : host).

Lemma flush_safe_tail x xs r rs :
  flush_safe vu (x :: xs) (r :: rs) -> flush_safe vu xs rs.
Proof.
  intros [Ha Hvv Hii Hiv]. split.
  - intros j y Hj. apply (Ha (S j)). done.
  - intros j j' y y' Hj Hj' ? ? ?. apply (Hvv (S j) (S j')); auto.
  - intros j j' y y' Hj Hj' ? ? ?. apply (Hii (S j) (S j')); auto.
  - intros j j' y y' Hj Hj'. apply (Hiv (S j) (S j')); auto.
Qed.

Lemma exec_flushed_vec x i h :
  (flushable x = true -> gpr vu (vu_reg x) mod 16 = 0) ->
  exec (if flushable x
        then [load_addr (gpr vu (vu_reg x)) RAX; MOVAPS_TO_MEM i RAX] else []) h
  = Some (flushed_vec vu x i h).
Proof.
  intros Ha. unfold flushed_vec. destruct (flushable x); [|done].
  simpl. unfold set_reg at 1. simpl. by rewrite Ha.
Qed.

Lemma exec_flushed_int r i h :
  exec (if flushable r
        then [load_addr (int_gpr vu (vu_reg r)) RAX; MOV64_TO_MEM i RAX] else []) h
  = Some (flushed_int vu r i h).
Proof. unfold flushed_int. by destruct (flushable r). Qed.

Lemma flushed_vec_reg x i h k : k ≠ RAX -> reg64 (flushed_vec vu x i h) k = reg64 h k.
Proof.
  intros Hk. unfold flushed_vec. destruct (flushable x); [|done]. simpl.
  unfold set_reg. by rewrite (proj2 (Nat.eqb_neq _ _) Hk).
Qed.

Lemma flushed_int_reg r i h k : k ≠ RAX -> reg64 (flushed_int vu r i h) k = reg64 h k.
Proof.
  intros Hk. unfold flushed_int. destruct (flushable r); [|done]. simpl.
  unfold set_reg. by rewrite (proj2 (Nat.eqb_neq _ _) Hk).
Qed.

Lemma flushed_vec_xmm x i h : xmm128 (flushed_vec vu x i h) = xmm128 h.
Proof. unfold flushed_vec. by destruct (flushable x). Qed.

Lemma flushed_int_xmm r i h : xmm128 (flushed_int vu r i h) = xmm128 h.
Proof. unfold flushed_int. by destruct (flushable r). Qed.

Lemma flushed_vec_mem x i h a :
  (flushable x = true -> ¬ in_window (gpr vu (vu_reg x)) 16 a) ->
  mem (flushed_vec vu x i h) a = mem h a.
Proof.
  intros Ha. unfold flushed_vec. destruct (flushable x); [|done]. simpl.
  apply store_bytes_out. by apply Ha.
Qed.

Lemma flushed_int_mem r i h a :
  (flushable r = true -> ¬ in_window (int_gpr vu (vu_reg r)) 8 a) ->
  mem (flushed_int vu r i h) a = mem h a.
Proof.
  intros Ha. unfold flushed_int. destruct (flushable r); [|done]. simpl.
  apply store_bytes_out. by apply Ha.
Qed.

Lemma apart_not_in a n b m c : apart a n b m -> in_window a n c -> ¬ in_window b m c.
Proof. unfold apart, in_window. lia. Qed.

Lemma apart_sym a n b m : apart a n b m -> apart b m a n.
Proof. unfold apart. lia. Qed.

(** The code of the loop from index [i] on stores every flushable slot
    at the address of its guest register, and nothing else. *)
Lemma exec_flush_code xs : ∀ rs i h,
  flush_safe vu xs rs ->
  (∀ j r, rs !! j = Some r -> flushable r = true -> (i + j)%nat ≠ RAX) ->
  ∃ h', exec (flush_code vu xs rs i) h = Some h'
    ∧ (∀ k, k ≠ RAX -> reg64 h' k = reg64 h k)
    ∧ xmm128 h' = xmm128 h
    ∧ (∀ a,
         (∀ j x, xs !! j = Some x -> flushable x = true ->
            ¬ in_window (gpr vu (vu_reg x)) 16 a) ->
         (∀ j r, rs !! j = Some r -> flushable r = true ->
            ¬ in_window (int_gpr vu (vu_reg r)) 8 a) ->
         mem h' a = mem h a)
    ∧ (∀ j x, xs !! j = Some x -> flushable x = true -> (j < length rs)%nat ->
         load_bytes 16 (gpr vu (vu_reg x)) (mem h') = xmm128 h (i + j)%nat mod 2 ^ 128)
    ∧ (∀ j r, rs !! j = Some r -> flushable r = true -> (j < length xs)%nat ->
         load_bytes 8 (int_gpr vu (vu_reg r)) (mem h') = reg64 h (i + j)%nat mod 2 ^ 64).
Proof.
  induction xs as [|x xs IH]; intros rs i h Hsafe Hrax.
  { exists h. split_and!; try done; intros j y Hy Hf Hlen;
      first [by rewrite lookup_nil in Hy|simpl in Hlen; lia]. }
  destruct rs as [|r rs].
  { exists h. split_and!; try done; intros j y Hy Hf Hlen;
      first [by rewrite lookup_nil in Hy|simpl in Hlen; lia]. }
  set (h1 := flushed_vec vu x i h). set (h2 := flushed_int vu r i h1).
  destruct (IH rs (S i) h2) as (h' & Hexec & Hreg & Hxmm & Hframe & Hvec & Hint).
  { by eapply flush_safe_tail. }
  { intros j y Hy Hf. unfold RAX. lia. }
  assert (Hi : flushable r = true -> i ≠ RAX).
  { intros Hf. specialize (Hrax 0%nat r eq_refl Hf). lia. }
  exists h'. split_and!.
  - cbn [flush_code]. rewrite exec_app, exec_flushed_vec.
    2:{ intros Hf. by apply (fs_aligned vu _ _ Hsafe 0%nat x). }
    rewrite bind_Some, exec_app, exec_flushed_int, bind_Some. exact Hexec.
  - intros k Hk. rewrite Hreg by done. unfold h2, h1.
    by rewrite flushed_int_reg, flushed_vec_reg.
  - rewrite Hxmm. unfold h2, h1. by rewrite flushed_int_xmm, flushed_vec_xmm.
  - intros a Hax Har. rewrite Hframe.
    + unfold h2, h1. rewrite flushed_int_mem, flushed_vec_mem; [done| |].
      * apply (Hax 0%nat x eq_refl).
      * apply (Har 0%nat r eq_refl).
    + intros j y Hy. apply (Hax (S j) y Hy).
    + intros j y Hy. apply (Har (S j) y Hy).
  - intros [|j] y Hy Hf Hlen; simpl in Hy.
    + injection Hy as <-. rewrite Nat.add_0_r.
      transitivity (load_bytes 16 (gpr vu (vu_reg x)) (mem h1)).
      * apply load_bytes_ext. intros a Ha. rewrite Hframe.
        -- unfold h2. apply flushed_int_mem. intros Hfr.
           eapply apart_not_in; [|exact Ha]. apply apart_sym.
           by apply (fs_int_vec vu _ _ Hsafe 0%nat 0%nat r x).
        -- intros j' y' Hy' Hf'. eapply apart_not_in; [|exact Ha].
           by apply (fs_vec_vec vu _ _ Hsafe 0%nat (S j') x y').
        -- intros j' y' Hy' Hf'. eapply apart_not_in; [|exact Ha]. apply apart_sym.
           by apply (fs_int_vec vu _ _ Hsafe (S j') 0%nat y' x).
      * unfold h1, flushed_vec. rewrite Hf. cbn [mem with_mem].
        rewrite (load_store_same 16 _ _ _ 16) by lia.
        cbn [xmm128 with_reg64]. done.
    + rewrite (Hvec j y Hy Hf) by (simpl in Hlen; lia).
      unfold h2, h1. rewrite flushed_int_xmm, flushed_vec_xmm.
      by replace (S i + j)%nat with (i + S j)%nat by lia.
  - intros [|j] y Hy Hf Hlen; simpl in Hy.
    + injection Hy as <-. rewrite Nat.add_0_r.
      transitivity (load_bytes 8 (int_gpr vu (vu_reg r)) (mem h2)).
      * apply load_bytes_ext. intros a Ha. rewrite Hframe; [done| |].
        -- intros j' y' Hy' Hf'. eapply apart_not_in; [|exact Ha].
           by apply (fs_int_vec vu _ _ Hsafe 0%nat (S j') r y').
        -- intros j' y' Hy' Hf'. eapply apart_not_in; [|exact Ha].
           by apply (fs_int_int vu _ _ Hsafe 0%nat (S j') r y').
      * unfold h2, flushed_int. rewrite Hf. cbn [mem with_mem].
        rewrite (load_store_same 8 _ _ _ 8) by lia.
        cbn [reg64 with_reg64]. unfold set_reg. rewrite (proj2 (Nat.eqb_neq _ _) (Hi Hf)).
        unfold h1. by rewrite flushed_vec_reg by auto.
    + rewrite (Hint j y Hy Hf) by (simpl in Hlen; lia).
      unfold h2, h1. rewrite flushed_int_reg, flushed_vec_reg by (unfold RAX; lia).
      by replace (S i + j)%nat with (i + S j)%nat by lia.
Qed.

End FlushCode.

(** ** The flush *)

Section Flush.

Context (vu : VectorUnit).
Implicit Types (s : VU_JIT64) (h : host).

Lemma flushable_spec r : flushable r = true <-> used r = true ∧ vu_reg r ≠ 0.
Proof.
  unfold flushable. rewrite andb_true_iff, negb_true_iff, Z.eqb_neq. done.
Qed.

Lemma inv_flush_safe s :
  alloc_inv s -> ids_nonneg s -> layout_ok vu ->
  flush_safe vu (xmm_regs s) (int_regs s).
Proof.
  intros [(_ & Hi & Hid) (_ & Hx & Hxd) _ _ _] Hnn Hlay.
  assert (Hri : ∀ j r, int_regs s !! j = Some r -> flushable r = true ->
            0 <= vu_reg r < 16).
  { intros j r Hr [Hu _]%flushable_spec. destruct (Hi _ _ Hr Hu) as (_ & _ & ?).
    pose proof (Hnn IntPool j r Hr Hu). lia. }
  assert (Hrx : ∀ j x, xmm_regs s !! j = Some x -> flushable x = true ->
            0 <= vu_reg x < 32).
  { intros j x Hr [Hu _]%flushable_spec. destruct (Hx _ _ Hr Hu) as (_ & _ & ?).
    pose proof (Hnn VecPool j x Hr Hu). lia. }
  split.
  - intros j x Hj Hf. apply (lay_vec_aligned vu Hlay). eauto.
  - intros j j' x x' Hj Hj' Hf Hf' Hne. apply (lay_vec_vec vu Hlay); eauto.
    intros Heq. apply Hne. apply flushable_spec in Hf as [? _], Hf' as [? _].
    by apply (Hxd j j' x x').
  - intros j j' r r' Hj Hj' Hf Hf' Hne. apply (lay_int_int vu Hlay); eauto.
    intros Heq. apply Hne. apply flushable_spec in Hf as [? _], Hf' as [? _].
    by apply (Hid j j' r r').
  - intros j j' r x Hj Hj' Hf Hf'. apply (lay_int_vec vu Hlay); eauto.
Qed.

Lemma inv_RAX_free s j r :
  alloc_inv s -> int_regs s !! j = Some r -> used r = true -> j ≠ RAX.
Proof.
  intros [(_ & Hi & _) _ Hlocks _ _] Hr Hu ->.
  destruct (Hi _ _ Hr Hu) as (Hl & _).
  assert (locked r = true) by (apply (Hlocks _ _ Hr); by left). congruence.
Qed.

(** Running the code that [flush_regs] emits. *)
Lemma exec_flush_regs s h :
  alloc_inv s -> ids_nonneg s -> layout_ok vu ->
  ∃ h', exec (flush_code vu (xmm_regs s) (int_regs s) 0) h = Some h'
    ∧ (∀ k, k ≠ RAX -> reg64 h' k = reg64 h k)
    ∧ (∀ i r, int_regs s !! i = Some r -> used r = true -> vu_reg r ≠ 0 ->
         guest_int64 vu (vu_reg r) h' = reg64 h i mod 2 ^ 64)
    ∧ (∀ i x, xmm_regs s !! i = Some x -> used x = true -> vu_reg x ≠ 0 ->
         guest_vec vu (vu_reg x) h' = xmm128 h i mod 2 ^ 128).
Proof.
  intros Hinv Hnn Hlay.
  destruct (exec_flush_code vu (xmm_regs s) (int_regs s) 0 h)
    as (h' & Hexec & Hreg & _ & _ & Hvec & Hint).
  { by apply inv_flush_safe. }
  { intros j r Hr [Hu _]%flushable_spec. simpl. by eapply inv_RAX_free. }
  destruct Hinv as [(Hli & _) (Hlx & _) _ _ _].
  exists h'. split_and!; [done..| |].
  - intros i r Hr Hu Hz. unfold guest_int64. rewrite (Hint i r Hr); [done| |].
    + by apply flushable_spec.
    + apply lookup_lt_Some in Hr. lia.
  - intros i x Hx Hu Hz. unfold guest_vec. rewrite (Hvec i x Hx); [done| |].
    + by apply flushable_spec.
    + apply lookup_lt_Some in Hx. lia.
Qed.

Lemma flush_regs_slots p s :
  slots p (flush_regs vu s) = flush_slot <$> slots p s.
Proof. by destruct p. Qed.

End Flush.

Lemma jit_zero_reachable : reachable jit_zero.
Proof.
  apply (reach_alloc_int vu0 0 false (reset jit0) RCX); [apply reset_jit0_reachable|].
  reflexivity.
Qed.



(** ** Running the code of a handler *)

Section HandlerCode.

Context (vu : VectorUnit).
Implicit Types (s : VU_JIT64) (h : host).

Lemma load_bytes_low k : ∀ n addr m,
  (k <= n)%nat ->
  load_bytes k addr m = load_bytes n addr m mod 2 ^ (8 * Z.of_nat k).
Proof.
  induction k as [|k IH]; intros n addr m Hle.
  - simpl. by rewrite Z.mod_1_r.
  - destruct n as [|n]; [lia|]. cbn [load_bytes].
    rewrite (IH n (addr + 1) m) by lia.
    replace (8 * Z.of_nat (S k)) with (8 + 8 * Z.of_nat k) by lia.
    rewrite (Z.pow_add_r 2 8) by lia. change (2 ^ 8) with 256.
    rewrite (Z.rem_mul_r _ 256) by lia.
    pose proof (Z.mod_pos_bound (m addr) 256 eq_refl) as Hb.
    replace (m addr mod 256 + 256 * load_bytes n (addr + 1) m)
      with (m addr mod 256 + load_bytes n (addr + 1) m * 256) by lia.
    rewrite Z.mod_add, Z.div_add, Z.mod_mod by lia.
    by rewrite (Z.div_small (m addr mod 256)) by lia.
Qed.

Lemma guest_int_low id h : guest_int vu id h = guest_int64 vu id h mod 2 ^ 16.
Proof. unfold guest_int, guest_int64. by rewrite (load_bytes_low 2 8) by lia. Qed.

Lemma shl3_low v : shl3 v mod 2 ^ 16 = (v * 8) mod 2 ^ 16.
Proof.
  assert (Hdiv : (2 ^ 16 | 2 ^ 32)) by (exists (2 ^ 16); reflexivity).
  unfold shl3. rewrite Z.shiftl_mul_pow2 by lia. change (2 ^ 3) with 8.
  rewrite Z.mod_mod_divide by done.
  rewrite <- Zmult_mod_idemp_l, Z.mod_mod_divide by done.
  by rewrite Zmult_mod_idemp_l.
Qed.

Lemma shl3_bound v : 0 <= shl3 v < 2 ^ 64.
Proof. unfold shl3. pose proof (Z.mod_pos_bound (Z.shiftl (v mod 2 ^ 32) 3) (2 ^ 32)). lia. Qed.

Lemma ids_nonneg_alloc_int id load_state s k s' :
  ids_nonneg s -> 0 <= id ->
  alloc_int_reg vu id load_state s = Ok (k, s') -> ids_nonneg s'.
Proof.
  intros Hnn Hid. unfold alloc_int_reg. destruct (16 <=? id); [done|].
  destruct (list_find _ _) as [[i ?]|]; intros ?; simplify_eq; [done|].
  intros p j r Hr Hu.
  assert (slots p (with_int_regs (alter (bind_slot id)
            (pick_int (grow_older <$> int_regs s) 0 0 0) (grow_older <$> int_regs s)) s) !! j
          = Some r) as Hr'.
  { by destruct p, (used _), load_state. }
  clear Hr. destruct p; simpl in Hr'; [|by apply (Hnn VecPool j r)].
  rewrite list_lookup_alter, !list_lookup_fmap in Hr'. case_decide.
  - destruct (int_regs s !! _); by simplify_eq/=.
  - destruct (int_regs s !! j) as [q|] eqn:Hq; simplify_eq/=.
    destruct (grow_older_same q) as [Hus ->]. apply (Hnn IntPool j q Hq). congruence.
Qed.

Lemma cached_int_hit s id h k r :
  alloc_inv s -> int_regs s !! k = Some r -> holds id r ->
  cached_int vu s id h = reg64 h k.
Proof.
  intros Hinv Hk Hh. unfold cached_int.
  destruct (list_find _ _) as [[j rj]|] eqn:E.
  - apply list_find_Some in E as (Hj & Hhj & _).
    by rewrite (holds_unique 16 _ id k r j rj (inv_int s Hinv) Hk Hh Hj Hhj).
  - apply misses_find in E. by destruct (E _ _ Hk).
Qed.

Lemma cached_int_miss s id h :
  misses id (int_regs s) -> cached_int vu s id h = guest_int64 vu id h.
Proof. intros Hm%misses_find. unfold cached_int. by rewrite Hm. Qed.

(** The code of an acquire with load leaves the value of the guest
    register in the host register of the slot it returns. *)
Lemma exec_alloc_int_load id s k s' h :
  alloc_inv s -> ids_nonneg s -> layout_ok vu -> 0 <= id ->
  alloc_int_reg vu id true s = Ok (k, s') ->
  ∃ code h1, trace s' = trace s ++ (Emit <$> code)
    ∧ exec code h = Some h1
    ∧ reg64 h1 k = cached_int vu s id h
    ∧ k ≠ RAX.
Proof.
  intros Hinv Hnn Hlay Hid Halloc.
  pose proof (alloc_int_reg_inv vu _ _ _ _ _ Hinv Halloc) as Hinv'.
  destruct (alloc_int_reg_spec vu _ _ _ _ _ Hinv Halloc)
    as (Hlt & (r' & Hr' & Hh' & _) & _ & Hcase).
  assert (Hk : k ≠ RAX) by (eapply inv_RAX_free; [exact Hinv'|exact Hr'|apply Hh']).
  destruct Hcase as [(r & Hr & Hh & ->)|(Hm & Ht & _ & Htr)].
  - exists [], h. rewrite app_nil_r. split_and!; [done..| |done].
    symmetry. by eapply cached_int_hit.
  - destruct Ht as (r & Hr & _).
    assert (Hrk : (grow_older <$> int_regs s) !!! k = grow_older r).
    { apply list_lookup_total_correct. by rewrite list_lookup_fmap, Hr. }
    rewrite (cached_int_miss s id h Hm).
    unfold spill_int, fill_int in Htr. rewrite Hrk in Htr.
    destruct (grow_older_same r) as [Hgu Hgv]. rewrite Hgu, Hgv in Htr.
    destruct (used r) eqn:Hu; (eexists _, _; split; [exact Htr|]).
    + split; [reflexivity|]. split; [|done]. cbn [reg64 with_reg64 mem with_mem].
      unfold set_reg at 1. rewrite Nat.eqb_refl.
      unfold set_reg at 1. simpl Nat.eqb. cbv iota.
      unfold set_reg at 2. simpl Nat.eqb. cbv iota.
      unfold guest_int64. apply load_store_apart.
      destruct Hinv as [(_ & Hused & _) _ _ _ _].
      destruct (Hused _ _ Hr Hu) as (_ & _ & Hlt').
      pose proof (Hnn IntPool k r Hr Hu).
      apply (lay_int_int vu Hlay); [lia..|].
      intros Heq. by destruct (Hm _ _ Hr).
    + split; [reflexivity|]. split; [|done]. cbn [reg64 with_reg64 mem with_mem].
      unfold set_reg at 1. rewrite Nat.eqb_refl.
      unfold set_reg at 1. simpl Nat.eqb. cbv iota. done.
Qed.

End HandlerCode.

(** ** The examples satisfy the hypotheses *)

Lemma layout_ok_vu0 : layout_ok vu0.
Proof.
  split; unfold apart; cbn [int_gpr gpr PC vu0]; intros; try lia.
  replace (4096 + 16 * j) with (0 + (256 + j) * 16) by lia. by rewrite Z.mod_add.
Qed.

Lemma ids_nonneg_Forall s :
  Forall (fun r => used r = true -> 0 <= vu_reg r) (int_regs s) ->
  Forall (fun r => used r = true -> 0 <= vu_reg r) (xmm_regs s) ->
  ids_nonneg s.
Proof.
  intros Hi Hx [] i r Hr; simpl in Hr.
  - by apply (proj1 (Forall_lookup _ _) Hi i r).
  - by apply (proj1 (Forall_lookup _ _) Hx i r).
Qed.

Lemma ids_nonneg_reset : ids_nonneg (reset jit0).
Proof. apply ids_nonneg_Forall; repeat constructor; simpl; lia. Qed.

Lemma ids_nonneg_jit5 : ids_nonneg jit5.
Proof. apply ids_nonneg_Forall; repeat constructor; simpl; lia. Qed.


(** ** The indirect jump *)


(** Nor is it enough that the slot is not bound anew.  Guest register 1
    holds 1; in the block of a BranchIndirect on register 1 followed by a
    LoadConst of 7 into register 1 the second handler hits the slot of the
    first, and after the run the guest reads 7 in register 1, not 8. *)
Lemma jump_indirect_then_overwritten :
  guest_int vu0 1 host0 = 1
  ∧ run_block {| instructions := [instr0 JumpIndirect 0 1 0; instr0 LoadConst 1 7 0];
                 get_cycle_count := 2 |} host0 1 = Some 7.
Proof. split; reflexivity. Qed.

(** ** The add with immediate *)

(** C7 at the failing input: destination and source are both guest register
    1, which holds 1; the immediate is 5.  The compiled block never loads
    guest register 1: it adds 5 to what RCX happens to hold (here 256) and
    the flush stores that, so the guest reads 261 where the sum is 6. *)
Theorem add_unsigned_imm_same_register :
  guest_int vu0 1 host_stale = 1
  ∧ compiled_code vu0 (block1 (instr0 AddUnsignedImm 1 1 5))
    = [PUSH RBP; MOV64_MR RSP RBP;
       MOV16_REG RCX RCX; ADD16_REG_IMM 5 RCX;
       load_addr (int_gpr vu0 1) RAX; MOV64_TO_MEM RCX RAX;
       MOV16_REG_IMM 1 RAX; POP RBP; RET]
  ∧ run_block (block1 (instr0 AddUnsignedImm 1 1 5)) host_stale 1 = Some 261.
Proof. split_and!; reflexivity. Qed.

(** With distinct registers and the pool full, the request for the source
    evicts the slot that the destination was just found in: guest
    register 2 keeps the constant 7 and the sum lands in the source,
    guest register 1, which then reads 0. *)
Lemma add_unsigned_imm_evicts_dest :
  guest_int vu0 1 host0 = 1
  ∧ run_block block_full host0 2 = Some 7
  ∧ run_block block_full host0 1 = Some 0.
Proof. split_and!; vm_compute; reflexivity. Qed.

(** Scenario C of the spec, from the reset state: guest register 1 holds
    1; guest register 2 := guest register 1 + 0xFFFF reads 0. *)
Lemma add_unsigned_imm_scenario_C :
  guest_int vu0 1 host0 = 1
  ∧ run_block (block1 (instr0 AddUnsignedImm 2 1 65535)) host0 2 = Some 0.
Proof. split; reflexivity. Qed.

(** * Further properties *)

(** ** Which blocks compile *)

Lemma dispatch_is_ok vu instr s : is_ok (dispatch vu instr s) = compilable instr.
Proof.
  unfold dispatch, compilable, load_const, move_int_reg, jump, jump_and_link,
    jump_indirect, add_unsigned_imm.
  destruct (op instr); try reflexivity;
    repeat match goal with
           | |- context [alloc_int_reg vu ?id ?l ?s0] =>
               let Hlt := fresh "Hlt" in
               destruct (Z.ltb_spec id 16) as [Hlt|Hlt];
               [destruct (alloc_int_reg_total vu id l s0 Hlt) as (? & ? & ->);
                rewrite bind_Ok; cbv beta iota
               |rewrite (alloc_int_reg_die vu id l s0 Hlt), bind_Die]
           end; try reflexivity.
Qed.

Lemma drain_is_ok vu instrs : ∀ s,
  is_ok (drain vu instrs s) = forallb compilable instrs.
Proof.
  induction instrs as [|instr rest IH]; intros s; [done|]. simpl.
  rewrite <- (dispatch_is_ok vu instr s).
  destruct (dispatch vu instr s) as [s1|]; [|done]. rewrite bind_Ok. apply IH.
Qed.

Lemma dispatch_messages vu instr s msg :
  dispatch vu instr s = Die msg ->
  msg = "[VU_JIT64] Alloc Int error"%string
  ∨ msg = "[VU_JIT64] Unknown IR instruction"%string.
Proof.
  unfold dispatch, load_const, move_int_reg, jump, jump_and_link,
    jump_indirect, add_unsigned_imm.
  destruct (op instr); intros H; try discriminate H;
    repeat match type of H with
           | context [alloc_int_reg vu ?id ?l ?s0] =>
               let Hlt := fresh "Hlt" in
               let Heq := fresh "Heq" in
               destruct (Z.ltb_spec id 16) as [Hlt|Hlt];
               [destruct (alloc_int_reg_total vu id l s0 Hlt) as (? & ? & Heq);
                rewrite Heq, bind_Ok in H; cbv beta iota in H; clear Heq
               |rewrite (alloc_int_reg_die vu id l s0 Hlt), bind_Die in H]
           end; try discriminate H; injection H as <-; auto.
Qed.

(** X1: whether [recompile_block] returns does not depend on the compiler
    state: it returns exactly for the blocks all of whose instructions are
    compilable, and when it dies it is with one of two messages. *)
Theorem compile_succeeds_iff vu block s :
  is_ok (recompile_block vu block s) = forallb compilable (instructions block)
  ∧ ∀ msg, recompile_block vu block s = Die msg ->
      msg = "[VU_JIT64] Alloc Int error"%string
      ∨ msg = "[VU_JIT64] Unknown IR instruction"%string.
Proof.
  unfold recompile_block. fold (entered vu s).
  rewrite <- (drain_is_ok vu (instructions block) (entered vu s)).
  split.
  - destruct (drain vu (instructions block) (entered vu s)); reflexivity.
  - intros msg H.
    assert (Hd : drain vu (instructions block) (entered vu s) = Die msg).
    { destruct (drain vu (instructions block) (entered vu s)); [discriminate H|]. rewrite bind_Die in H. by injection H as ->. }
    clear H. revert Hd. generalize (entered vu s).
    induction (instructions block) as [|instr rest IH]; intros s0 Hd; [done|].
    simpl in Hd. destruct (dispatch vu instr s0) as [s1|m] eqn:E.
    + rewrite bind_Ok in Hd. eauto.
    + rewrite bind_Die in Hd. injection Hd as <-. by eapply dispatch_messages.
Qed.

Lemma compile_succeeds_iff_witness :
  recompile_block vu0 (block1 (instr0 LoadConst 16 7 0)) (reset jit0)
    = Die "[VU_JIT64] Alloc Int error"
  ∧ ("[VU_JIT64] Alloc Int error" = "[VU_JIT64] Alloc Int error"
     ∨ "[VU_JIT64] Alloc Int error" = "[VU_JIT64] Unknown IR instruction")%string.
Proof.
  split; [reflexivity|].
  exact (proj2 (compile_succeeds_iff vu0 (block1 (instr0 LoadConst 16 7 0)) (reset jit0))
           _ eq_refl).
Defined.

(** ** The pools of a reachable state *)

Lemma inv_pool s p : alloc_inv s -> pool_inv (id_bound p) (slots p s).
Proof. intros Hinv. destruct p; apply Hinv. Qed.

(** X2: the data-model invariant.  In every reachable state each pool has
    sixteen slots; a slot in use is unlocked, has a non-negative age and a
    guest register number below the bound of its pool; and no two slots of
    a pool are in use for the same guest register. *)
Theorem reachable_pool_invariant s p :
  reachable s ->
  length (slots p s) = 16%nat
  ∧ (∀ i r, slots p s !! i = Some r -> used r = true ->
       locked r = false ∧ 0 <= age r ∧ vu_reg r < id_bound p)
  ∧ (∀ i j r r', slots p s !! i = Some r -> slots p s !! j = Some r' ->
       used r = true -> used r' = true -> vu_reg r = vu_reg r' -> i = j).
Proof. intros Hinv%reachable_inv. exact (inv_pool s p Hinv). Qed.

Lemma reachable_pool_invariant_witness :
  reachable jit5 ∧ length (slots IntPool jit5) = 16%nat.
Proof.
  split; [apply jit5_reachable|].
  exact (proj1 (reachable_pool_invariant jit5 IntPool jit5_reachable)).
Defined.

Lemma in_use_head r rs : used r = false -> (in_use (r :: rs) <= length rs)%nat.
Proof.
  intros Hu. unfold in_use. rewrite filter_cons_False by congruence.
  apply length_filter.
Qed.

Lemma inv_int_capacity s :
  alloc_inv s -> (in_use (int_regs s) <= 14)%nat.
Proof.
  intros Hinv.
  pose proof (inv_locks_as_reset s Hinv) as Hlocks.
  destruct Hinv as [(Hlen & _) _ _ _ _].
  assert (Hfree : ∀ i r, int_regs s !! i = Some r -> reserved i -> used r = false).
  { intros i r Hr Hres. destruct (Hlocks IntPool i r Hr) as [Hiff Hun].
    apply Hun, Hiff. by split. }
  rewrite <- (take_drop 4 (int_regs s)). unfold in_use. rewrite filter_app, length_app.
  assert (H0 : (length (filter (fun r => used r = true) (take 4 (int_regs s))) <= 3)%nat).
  { destruct (int_regs s) as [|r0 rs] eqn:E; [simpl in Hlen; lia|].
    change (take 4 (r0 :: rs)) with (r0 :: take 3 rs).
    etransitivity; [apply (in_use_head r0)|].
    - apply (Hfree 0%nat); [done|by left].
    - rewrite length_take. lia. }
  assert (H4 : (length (filter (fun r => used r = true) (drop 4 (int_regs s))) <= 11)%nat).
  { destruct (drop 4 (int_regs s)) as [|r4 rs] eqn:E.
    - simpl. lia.
    - assert (Hl : length (r4 :: rs) = 12%nat) by (rewrite <- E, length_drop; lia).
      etransitivity; [apply (in_use_head r4)|].
      + apply (Hfree 4%nat); [|by right].
        rewrite <- (Nat.add_0_r 4), <- lookup_drop, E. done.
      + simpl in Hl. lia. }
  lia.
Qed.

(** X3: of the sixteen slots of the integer pool at most fourteen are ever
    in use, RAX and RSP never. *)
Theorem int_pool_capacity s :
  reachable s -> (in_use (int_regs s) <= 14)%nat.
Proof. intros Hinv%reachable_inv. by apply inv_int_capacity. Qed.

Lemma int_pool_capacity_witness : reachable jit5 ∧ (in_use (int_regs jit5) <= 14)%nat.
Proof. split; [apply jit5_reachable|]. exact (int_pool_capacity jit5 jit5_reachable). Defined.

(** ** What a miss changes *)

Lemma acquire_spec vu p id load_state s k s' :
  alloc_inv s ->
  acquire vu p id load_state s = Ok (k, s') ->
  slots (other_pool p) s' = slots (other_pool p) s
  ∧ abi_int_count s' = abi_int_count s
  ∧ abi_xmm_count s' = abi_xmm_count s
  ∧ ((∃ r, slots p s !! k = Some r ∧ holds id r ∧ s' = s)
     ∨ (misses id (slots p s)
        ∧ is_target (slots p s) k
        ∧ slots p s' = alter (bind_slot id) k (grow_older <$> slots p s))).
Proof.
  intros Hinv Hacq. destruct p; simpl in *.
  - destruct (Z.le_gt_cases 16 id) as [Hid|Hid];
      [by rewrite alloc_int_reg_die in Hacq|].
    destruct (alloc_int_reg_spec vu _ _ _ _ _ Hinv Hacq) as (_ & _ & Hx & Hcase).
    destruct Hcase as [(r & Hr & Hh & ->)|(Hm & Ht & Hregs & _)].
    + split_and!; [done..|]. left. eauto.
    + rewrite alloc_int_reg_miss in Hacq by done. cbv zeta in Hacq.
      injection Hacq as _ <-. simpl. split_and!; [done..|]. right. by split_and!.
  - destruct (Z.le_gt_cases 32 id) as [Hid|Hid];
      [by rewrite alloc_sse_reg_die in Hacq|].
    destruct (alloc_sse_reg_spec vu _ _ _ _ _ Hinv Hacq) as (_ & _ & Hx & Hcase).
    destruct Hcase as [(r & Hr & Hh & ->)|(Hm & Ht & Hregs & _)].
    + split_and!; [done..|]. left. eauto.
    + rewrite alloc_sse_reg_miss in Hacq by done. cbv zeta in Hacq.
      injection Hacq as _ <-. simpl. split_and!; [done..|]. right. by split_and!.
Qed.

Lemma miss_changes vu p id load_state s k s' :
  reachable s ->
  misses id (slots p s) ->
  acquire vu p id load_state s = Ok (k, s') ->
  (∃ r', slots p s' !! k = Some r'
     ∧ used r' = true ∧ vu_reg r' = id ∧ age r' = 0 ∧ locked r' = false)
  ∧ (∀ j r, j ≠ k -> slots p s !! j = Some r ->
       ∃ r', slots p s' !! j = Some r'
         ∧ used r' = used r ∧ locked r' = locked r ∧ vu_reg r' = vu_reg r
         ∧ age r' = if used r then age r + 1 else age r)
  ∧ slots (other_pool p) s' = slots (other_pool p) s
  ∧ abi_int_count s' = abi_int_count s
  ∧ abi_xmm_count s' = abi_xmm_count s.
Proof.
  intros Hinv%reachable_inv Hm Hacq.
  destruct (acquire_spec vu p id load_state s k s' Hinv Hacq)
    as (Hother & Hc1 & Hc2 & [(r & Hr & Hh & _)|(_ & Ht & Hregs)]).
  { by destruct (Hm _ _ Hr). }
  split_and!; [| |done..].
  - destruct Ht as (r & Hr & Hl & _). exists (bind_slot id (grow_older r)).
    rewrite Hregs, list_lookup_alter_eq, list_lookup_fmap, Hr. simpl.
    by rewrite grow_older_locked.
  - intros j r Hj Hr. exists (grow_older r).
    rewrite Hregs, list_lookup_alter_ne, list_lookup_fmap, Hr by done.
    split; [done|]. unfold grow_older. by destruct (used r) eqn:E.
Qed.

(** X4: the ages.  When an acquire misses in a reachable state, the slot it
    returns is afterwards in use for the requested register with age 0;
    every other slot of the pool keeps its binding and flags, and its age
    grows by exactly one if it is in use and stays otherwise; the other
    pool and the argument counters are as before. *)
Theorem miss_ages_others vu p id load_state s k s' :
  reachable s ->
  misses id (slots p s) ->
  acquire vu p id load_state s = Ok (k, s') ->
  (∃ r', slots p s' !! k = Some r'
     ∧ used r' = true ∧ vu_reg r' = id ∧ age r' = 0 ∧ locked r' = false)
  ∧ (∀ j r, j ≠ k -> slots p s !! j = Some r ->
       ∃ r', slots p s' !! j = Some r'
         ∧ used r' = used r ∧ locked r' = locked r ∧ vu_reg r' = vu_reg r
         ∧ age r' = if used r then age r + 1 else age r)
  ∧ slots (other_pool p) s' = slots (other_pool p) s
  ∧ abi_int_count s' = abi_int_count s
  ∧ abi_xmm_count s' = abi_xmm_count s.
Proof. apply miss_changes. Qed.

Lemma miss_ages_others_witness :
  reachable jit5 ∧ misses 7 (slots IntPool jit5)
  ∧ ∃ k s' r', acquire vu0 IntPool 7 true jit5 = Ok (k, s')
      ∧ slots IntPool s' !! 1%nat = Some r' ∧ age r' = 1.
Proof.
  assert (Hm : misses 7 (slots IntPool jit5)) by (by apply misses_find).
  split; [apply jit5_reachable|]. split; [exact Hm|].
  destruct (acquire vu0 IntPool 7 true jit5) as [[k s']|] eqn:E; [|discriminate E].
  destruct (miss_ages_others vu0 IntPool 7 true jit5 k s' jit5_reachable Hm E)
    as (_ & Hothers & _).
  assert (Hk : 1%nat ≠ k) by (injection E as <- _; discriminate).
  destruct (Hothers 1%nat {| used := true; locked := false; age := 0; vu_reg := 5 |}
              Hk eq_refl) as (r' & Hr' & _ & _ & _ & Ha).
  exists k, s', r'. by split_and!.
Defined.

Lemma next_acquire_other_slot vu p id1 l1 id2 l2 s k1 s1 k2 s2 :
  reachable s ->
  misses id1 (slots p s) ->
  acquire vu p id1 l1 s = Ok (k1, s1) ->
  id2 ≠ id1 ->
  acquire vu p id2 l2 s1 = Ok (k2, s2) ->
  k2 ≠ k1 ∧ ∃ r, slots p s2 !! k1 = Some r ∧ holds id1 r.
Proof.
  intros Hs Hm Ha1 Hne Ha2. pose proof (reachable_inv s Hs) as Hinv.
  assert (Hs1 : reachable s1).
  { destruct p; simpl in Ha1; eauto using reach_alloc_int, reach_alloc_sse. }
  pose proof (reachable_inv s1 Hs1) as Hinv1.
  destruct (miss_changes vu p id1 l1 s k1 s1 Hs Hm Ha1)
    as ((r1 & Hr1 & Hu1 & Hv1 & Hage1 & _) & Hothers & _).
  destruct (acquire_spec vu p id2 l2 s1 k2 s2 Hinv1 Ha2)
    as (_ & _ & _ & [(r & Hr & [Hu Hv] & ->)|(Hm2 & Ht & Hregs)]).
  - split; [|exists r1; by split_and!]. intros ->. congruence.
  - assert (Hk : k2 ≠ k1).
    { intros ->. destruct Ht as (r & Hr & _ & [[Hfree _]|(_ & Hmax & _)]);
        [congruence|].
      assert (r = r1) as -> by congruence.
      (* another unlocked slot of the pool, which is then in use and older *)
      set (j := match p with IntPool => if decide (k1 = 1%nat) then 2%nat else 1%nat
                           | VecPool => if decide (k1 = 0%nat) then 1%nat else 0%nat end).
      assert (Hjk : j ≠ k1) by (unfold j; destruct p; case_decide; lia).
      destruct (lookup_lt_is_Some_2 (slots p s) j) as [rj Hrj].
      { rewrite (proj1 (inv_pool s p Hinv)). unfold j. destruct p; case_decide; lia. }
      destruct (Hothers j rj Hjk Hrj) as (rj' & Hrj' & Huj & Hlj & _ & Haj).
      assert (Hunl : locked rj' = false).
      { destruct (locked rj') eqn:El; [|done].
        destruct (inv_locks_as_reset s1 Hinv1 p j rj' Hrj') as [Hiff _].
        apply Hiff in El as [-> [Hres|Hres]]; unfold j in Hres;
          case_decide; discriminate Hres. }
      destruct (Hmax j rj' Hrj' Hunl) as [Hub Hle].
      rewrite Huj in Hub. rewrite Hub in Haj.
      destruct (proj1 (proj2 (inv_pool s p Hinv)) j rj Hrj Hub) as (_ & Hnn & _).
      lia. }
    split; [done|]. exists (grow_older r1).
    rewrite Hregs, list_lookup_alter_ne, list_lookup_fmap, Hr1 by done.
    split; [done|]. unfold holds. destruct (grow_older_same r1) as [-> ->]. by split.
Qed.

(** X5: the slot that a miss has just bound is not the victim of the next
    acquire: in a reachable state, after an acquire of [id1] that missed,
    an acquire of another register from the same pool returns another slot
    and leaves [id1] in its slot. *)
Theorem fresh_slot_survives vu p id1 l1 id2 l2 s k1 s1 k2 s2 :
  reachable s ->
  misses id1 (slots p s) ->
  acquire vu p id1 l1 s = Ok (k1, s1) ->
  id2 ≠ id1 ->
  acquire vu p id2 l2 s1 = Ok (k2, s2) ->
  k2 ≠ k1 ∧ ∃ r, slots p s2 !! k1 = Some r ∧ holds id1 r.
Proof. apply next_acquire_other_slot. Qed.

Lemma fresh_slot_survives_witness :
  reachable (reset jit0) ∧ misses 5 (slots IntPool (reset jit0))
  ∧ ∃ k1 s1 k2 s2,
      acquire vu0 IntPool 5 false (reset jit0) = Ok (k1, s1)
      ∧ acquire vu0 IntPool 7 true s1 = Ok (k2, s2)
      ∧ k2 ≠ k1.
Proof.
  assert (Hm : misses 5 (slots IntPool (reset jit0))) by (by apply misses_find).
  split; [apply reset_jit0_reachable|]. split; [exact Hm|].
  eexists _, _, _, _. split; [reflexivity|]. split; [reflexivity|].
  refine (proj1 (fresh_slot_survives vu0 IntPool 5 false 7 true (reset jit0) _ _ _ _
                   reset_jit0_reachable Hm eq_refl _ eq_refl)).
  discriminate.
Defined.

(** ** After the flush *)

Lemma flushable_flush_slot r : flushable (flush_slot r) = false.
Proof.
  unfold flush_slot. destruct (flushable r) eqn:E; [|done].
  unfold flushable. done.
Qed.

Lemma flush_slot_idemp r : flush_slot (flush_slot r) = flush_slot r.
Proof. unfold flush_slot at 1. by rewrite flushable_flush_slot. Qed.

Lemma flush_code_flushed vu xs : ∀ rs i,
  flush_code vu (flush_slot <$> xs) (flush_slot <$> rs) i = [].
Proof.
  induction xs as [|x xs IH]; intros rs i; [done|].
  destruct rs as [|r rs]; [done|].
  rewrite !fmap_cons. cbn [flush_code]. by rewrite !flushable_flush_slot, IH.
Qed.

(** X6: a second flush does nothing: it emits no instruction and changes no
    slot, in any state. *)
Theorem flush_regs_idempotent vu s :
  flush_regs vu (flush_regs vu s) = flush_regs vu s.
Proof.
  unfold flush_regs at 1. cbn [int_regs xmm_regs abi_int_count abi_xmm_count trace flush_regs].
  rewrite flush_code_flushed, app_nil_r.
  rewrite <- !list_fmap_compose.
  rewrite !(list_fmap_ext (flush_slot ∘ flush_slot) flush_slot)
    by (intros; apply flush_slot_idemp).
  reflexivity.
Qed.

Lemma flush_slot_holds id r : id ≠ 0 -> ¬ holds id (flush_slot r).
Proof.
  intros Hid [Hu Hv]. unfold flush_slot in *.
  destruct (flushable r) eqn:E; [done|].
  assert (flushable r = true); [|congruence].
  apply flushable_spec. split; congruence.
Qed.

Lemma flush_misses vu s p id : id ≠ 0 -> misses id (slots p (flush_regs vu s)).
Proof.
  intros Hid i r Hr. rewrite flush_regs_slots, list_lookup_fmap in Hr.
  destruct (slots p s !! i) as [q|]; simplify_eq/=. by apply flush_slot_holds.
Qed.

(** X7: the flush leaves the pools cold.  After it, in any state, no slot of
    either pool holds a guest register other than number zero, so every
    acquire of such a register misses; and if the state was reachable, at
    most one slot of each pool is still in use. *)
Theorem flush_leaves_cold vu s p :
  (∀ id, id ≠ 0 -> misses id (slots p (flush_regs vu s)))
  ∧ (reachable s ->
     ∀ i j r r', slots p (flush_regs vu s) !! i = Some r ->
       slots p (flush_regs vu s) !! j = Some r' ->
       used r = true -> used r' = true -> i = j).
Proof.
  split.
  - intros id. apply flush_misses.
  - intros Hs i j r r' Hr Hr' Hu Hu'.
    pose proof (reachable_inv _ (reach_flush vu s Hs)) as Hinv.
    destruct (inv_pool _ p Hinv) as (_ & _ & Hdis).
    apply (Hdis i j r r' Hr Hr' Hu Hu').
    assert (Hz : ∀ k q, slots p (flush_regs vu s) !! k = Some q -> used q = true ->
              vu_reg q = 0).
    { intros k q Hq Huq. destruct (decide (vu_reg q = 0)) as [|Hne]; [done|].
      rewrite flush_regs_slots, list_lookup_fmap in Hq.
      destruct (slots p s !! k) as [q0|]; simplify_eq/=.
      destruct (flush_slot_holds (vu_reg (flush_slot q0)) q0 Hne). by split. }
    by rewrite (Hz i r), (Hz j r').
Qed.

Lemma flush_leaves_cold_witness :
  reachable jit5
  ∧ slots IntPool jit5 !! 1%nat
    = Some {| used := true; locked := false; age := 0; vu_reg := 5 |}
  ∧ misses 5 (slots IntPool (flush_regs vu0 jit5)).
Proof.
  split; [apply jit5_reachable|]. split; [reflexivity|].
  apply (proj1 (flush_leaves_cold vu0 jit5 IntPool)). discriminate.
Defined.

(** ** After a compilation *)

Lemma alloc_int_reg_counts vu id load_state s k s' :
  alloc_int_reg vu id load_state s = Ok (k, s') ->
  abi_int_count s' = abi_int_count s ∧ abi_xmm_count s' = abi_xmm_count s
  ∧ xmm_regs s' = xmm_regs s.
Proof.
  unfold alloc_int_reg. destruct (16 <=? id); [done|].
  destruct (list_find _ _) as [[i ?]|]; intros ?; simplify_eq; [done|].
  by destruct (used _), load_state.
Qed.

Lemma dispatch_counts vu instr s s' :
  dispatch vu instr s = Ok s' ->
  abi_int_count s' = abi_int_count s ∧ abi_xmm_count s' = abi_xmm_count s
  ∧ xmm_regs s' = xmm_regs s.
Proof.
  unfold dispatch, load_const, move_int_reg, jump, jump_and_link, jump_indirect,
    add_unsigned_imm.
  destruct (op instr); intros H;
    repeat match type of H with
           | (alloc_int_reg vu ?id ?l ?s0 ≫= _) = _ =>
               let E := fresh "E" in
               destruct (alloc_int_reg vu id l s0) as [[? ?]|] eqn:E;
               [apply alloc_int_reg_counts in E as (? & ? & ?);
                rewrite bind_Ok in H; cbv beta iota in H
               |discriminate H]
           end;
    try discriminate H; injection H as <-; simpl in *; split_and!; congruence.
Qed.

Lemma drain_counts vu instrs : ∀ s s',
  drain vu instrs s = Ok s' ->
  abi_int_count s' = abi_int_count s ∧ abi_xmm_count s' = abi_xmm_count s
  ∧ xmm_regs s' = xmm_regs s.
Proof.
  induction instrs as [|instr rest IH]; intros s s' H; simpl in H.
  - by injection H as <-.
  - destruct (dispatch vu instr s) as [s1|] eqn:E; [|discriminate H].
    rewrite bind_Ok in H. apply dispatch_counts in E as (? & ? & ?).
    apply IH in H as (? & ? & ?). split_and!; congruence.
Qed.

(** X8: every block ends cold and leaves the ABI bridge alone.  When
    [recompile_block] returns, no slot of either pool holds a guest
    register other than number zero, the two argument counters are what
    they were, and the handlers have not touched the vector pool beyond
    the flush; from a reachable state the state reached is reachable. *)
Theorem compile_leaves_cold vu block s block' s' :
  recompile_block vu block s = Ok (block', s') ->
  (∀ p id, id ≠ 0 -> misses id (slots p s'))
  ∧ abi_int_count s' = abi_int_count s
  ∧ abi_xmm_count s' = abi_xmm_count s
  ∧ xmm_regs s' = flush_slot <$> xmm_regs s
  ∧ (reachable s -> reachable s').
Proof.
  intros H. split_and!; [| | | |intros Hs; by eapply recompile_block_reachable].
  all: unfold recompile_block in H; fold (entered vu s) in H;
    destruct (drain vu (instructions block) (entered vu s)) as [s_d|] eqn:Hd;
    [|discriminate H]; rewrite bind_Ok in H; injection H as <- <-;
    apply drain_counts in Hd as (Hc1 & Hc2 & Hx); simpl in *; try congruence.
  intros p id Hid.
  assert (Hsl : slots p
            (log [CacheSetRX] (emit epilogue (emit [MOV16_REG_IMM (get_cycle_count block) RAX]
               (flush_regs vu s_d)))) = slots p (flush_regs vu s_d)) by by destruct p.
  intros i r Hr. rewrite Hsl in Hr.
  by apply (flush_misses vu s_d p id Hid i r).
Qed.

Lemma compile_leaves_cold_witness :
  ∃ block' s',
    recompile_block vu0 (block1 (instr0 LoadConst 5 7 0)) (reset jit0) = Ok (block', s')
    ∧ misses 5 (slots IntPool s').
Proof.
  eexists _, _. split; [reflexivity|].
  refine (proj1 (compile_leaves_cold vu0 (block1 (instr0 LoadConst 5 7 0)) (reset jit0)
                   _ _ eq_refl) IntPool 5 _).
  discriminate.
Defined.

(** ** Running the code of an acquire *)

Section AcquireCode.

Context (vu : VectorUnit).
Implicit Types (s : VU_JIT64) (h : host).

Lemma set_reg_eq r v f : set_reg r v f r = v.
Proof. unfold set_reg. by rewrite Nat.eqb_refl. Qed.

Lemma set_reg_ne r v f j : j ≠ r -> set_reg r v f j = f j.
Proof. intros H. unfold set_reg. by rewrite (proj2 (Nat.eqb_neq _ _) H). Qed.

Lemma exec_spill_fill rs k id load_state h :
  exec (spill_int vu rs k ++ fill_int vu id load_state k) h
  = Some (filled_int vu id load_state k (spilled_int vu (rs !!! k) k h)).
Proof.
  unfold spill_int, fill_int, spilled_int, filled_int.
  destruct (used (rs !!! k)), load_state; simpl; rewrite ?set_reg_eq; reflexivity.
Qed.

Lemma spilled_int_reg r k h j : j ≠ RAX -> reg64 (spilled_int vu r k h) j = reg64 h j.
Proof.
  intros Hj. unfold spilled_int. destruct (used r); [|done]. simpl.
  by rewrite set_reg_ne.
Qed.

Lemma spilled_int_xmm r k h : xmm128 (spilled_int vu r k h) = xmm128 h.
Proof. unfold spilled_int. by destruct (used r). Qed.

Lemma spilled_int_load r k h n addr :
  (used r = true -> apart (int_gpr vu (vu_reg r)) 8 addr (Z.of_nat n)) ->
  load_bytes n addr (mem (spilled_int vu r k h)) = load_bytes n addr (mem h).
Proof.
  intros Ha. unfold spilled_int. destruct (used r); [|done]. simpl.
  apply load_store_apart. by apply Ha.
Qed.

Lemma spilled_int_stored r k h :
  used r = true -> k ≠ RAX ->
  load_bytes 8 (int_gpr vu (vu_reg r)) (mem (spilled_int vu r k h)) = reg64 h k mod 2 ^ 64.
Proof.
  intros Hu Hk. unfold spilled_int. rewrite Hu. cbn [mem with_mem].
  rewrite (load_store_same 8 _ _ _ 8) by lia. cbn [reg64 with_reg64].
  by rewrite set_reg_ne.
Qed.

Lemma filled_int_reg id load_state k h j :
  j ≠ RAX -> j ≠ k -> reg64 (filled_int vu id load_state k h) j = reg64 h j.
Proof.
  intros Hj Hk. unfold filled_int. destruct load_state; [|done]. simpl.
  by rewrite !set_reg_ne.
Qed.

Lemma filled_int_at id load_state k h :
  reg64 (filled_int vu id load_state k h) k
  = if load_state then load_bytes 8 (int_gpr vu id) (mem h) else reg64 h k.
Proof. unfold filled_int. destruct load_state; [|done]. simpl. by rewrite set_reg_eq. Qed.

Lemma filled_int_mem id load_state k h : mem (filled_int vu id load_state k h) = mem h.
Proof. unfold filled_int. by destruct load_state. Qed.

Lemma filled_int_xmm id load_state k h :
  xmm128 (filled_int vu id load_state k h) = xmm128 h.
Proof. unfold filled_int. by destruct load_state. Qed.

(** A guest register is either held by one slot, which is not RAX, or by
    none. *)
Lemma cached_int_cases s g h :
  alloc_inv s ->
  (∃ j r, int_regs s !! j = Some r ∧ holds g r ∧ j ≠ RAX
          ∧ cached_int vu s g h = reg64 h j)
  ∨ (misses g (int_regs s) ∧ cached_int vu s g h = guest_int64 vu g h).
Proof.
  intros Hinv. destruct (hit_or_miss g (int_regs s)) as [(j & r & Hj & Hh & _)|Hm].
  - left. exists j, r. split_and!; [done..| |].
    + eapply inv_RAX_free; [done|done|apply Hh].
    + by eapply cached_int_hit.
  - right. split; [done|]. by apply cached_int_miss.
Qed.

Lemma view_held s g h j r :
  alloc_inv s -> int_regs s !! j = Some r -> holds g r ->
  view vu s g h = reg64 h j mod 2 ^ 64.
Proof. intros ???. unfold view. by erewrite cached_int_hit. Qed.

Lemma view_missed s g h :
  misses g (int_regs s) -> view vu s g h = guest_int64 vu g h.
Proof.
  intros Hm. unfold view. rewrite cached_int_miss by done.
  apply Z.mod_small. apply (load_bytes_bound 8).
Qed.

(** The state and the host after an acquire on the integer pool. *)
Lemma exec_alloc_int id load_state s k s' h :
  alloc_inv s -> ids_nonneg s -> layout_ok vu -> 0 <= id ->
  alloc_int_reg vu id load_state s = Ok (k, s') ->
  ∃ code h1,
    trace s' = trace s ++ (Emit <$> code)
    ∧ exec code h = Some h1
    ∧ k ≠ RAX
    ∧ (∃ r, int_regs s' !! k = Some r ∧ holds id r)
    ∧ (∀ j, j ≠ RAX -> j ≠ k -> reg64 h1 j = reg64 h j)
    ∧ reg64 h1 k mod 2 ^ 64
      = (if load_state then view vu s id h else reg64 h k mod 2 ^ 64)
    ∧ xmm128 h1 = xmm128 h
    ∧ (∀ g, 0 <= g < 16 -> g ≠ id -> view vu s' g h1 = view vu s g h)
    ∧ guest_PC vu h1 = guest_PC vu h
    ∧ (∀ g, 0 <= g < 32 -> guest_vec vu g h1 = guest_vec vu g h).
Proof.
  intros Hinv Hnn Hlay Hid Halloc.
  pose proof (alloc_int_reg_inv vu _ _ _ _ _ Hinv Halloc) as Hinv'.
  destruct (alloc_int_reg_spec vu _ _ _ _ _ Hinv Halloc)
    as (Hlt & (r' & Hr' & Hh' & _) & _ & Hcase).
  assert (Hk : k ≠ RAX) by (eapply inv_RAX_free; [exact Hinv'|exact Hr'|apply Hh']).
  destruct Hcase as [(r & Hr & Hh & ->)|(Hm & Ht & Hregs & Htr)].
  { exists [], h. rewrite app_nil_r. split_and!; try done; [eauto|].
    destruct load_state; [|done]. symmetry. by eapply view_held. }
  destruct Ht as (r & Hr & _).
  assert (Hrk : (grow_older <$> int_regs s) !!! k = grow_older r).
  { apply list_lookup_total_correct. by rewrite list_lookup_fmap, Hr. }
  assert (Hold : used r = true -> 0 <= vu_reg r < 16 ∧ vu_reg r ≠ id).
  { intros Hu. destruct Hinv as [(_ & Hused & _) _ _ _ _].
    destruct (Hused _ _ Hr Hu) as (_ & _ & ?). pose proof (Hnn IntPool k r Hr Hu).
    split; [lia|]. intros Heq. by destruct (Hm _ _ Hr). }
  set (h0 := spilled_int vu (grow_older r) k h).
  set (h1 := filled_int vu id load_state k h0).
  assert (Hug : used (grow_older r) = used r) by apply grow_older_same.
  assert (Hvg : vu_reg (grow_older r) = vu_reg r) by apply grow_older_same.
  assert (Hmiss' : ∀ g, g ≠ id ->
            (∀ j q, int_regs s !! j = Some q -> holds g q -> j = k) ->
            misses g (int_regs s')).
  { intros g Hg Honly i q Hq Hhq. rewrite Hregs, list_lookup_alter in Hq.
    case_decide as Hki.
    - subst i. rewrite list_lookup_fmap, Hr in Hq. simplify_eq/=.
      destruct Hhq as [_ Hv]. simpl in Hv. congruence.
    - rewrite list_lookup_fmap in Hq.
      destruct (int_regs s !! i) as [q0|] eqn:Hq0; simplify_eq/=.
      apply Hki. symmetry. apply (Honly i q0 Hq0).
      destruct Hhq as [Hu Hv]. destruct (grow_older_same q0) as [Hu0 Hv0].
      split; congruence. }
  exists (spill_int vu (grow_older <$> int_regs s) k ++ fill_int vu id load_state k), h1.
  split_and!.
  - exact Htr.
  - by rewrite exec_spill_fill, Hrk.
  - done.
  - eauto.
  - intros j Hj Hjk. unfold h1, h0. by rewrite filled_int_reg, spilled_int_reg.
  - unfold h1. rewrite filled_int_at. destruct load_state.
    + rewrite (view_missed s id h Hm). unfold h0, guest_int64.
      rewrite spilled_int_load.
      * apply Z.mod_small. apply (load_bytes_bound 8).
      * rewrite Hug, Hvg. intros Hu. destruct (Hold Hu).
        apply (lay_int_int vu Hlay); lia.
    + unfold h0. by rewrite spilled_int_reg.
  - unfold h1, h0. by rewrite filled_int_xmm, spilled_int_xmm.
  - intros g Hg Hgid.
    destruct (cached_int_cases s g h Hinv) as [(j & q & Hj & Hhq & HjR & Hc)|[Hmg Hc]].
    + destruct (decide (j = k)) as [->|Hjk].
      * assert (q = r) as -> by congruence.
        rewrite (view_held s g h k r Hinv Hr Hhq).
        rewrite (view_missed s' g h1).
        2:{ apply Hmiss'; [done|]. intros i q Hq Hhq'.
            by apply (holds_unique 16 _ g k r i q (inv_int s Hinv)). }
        unfold guest_int64, h1. rewrite filled_int_mem. unfold h0.
        destruct Hhq as [Hu <-]. rewrite <- Hvg.
        apply spilled_int_stored; [by rewrite Hug|done].
      * rewrite (view_held s g h j q Hinv Hj Hhq).
        rewrite (view_held s' g h1 j (grow_older q) Hinv').
        -- unfold h1, h0. by rewrite filled_int_reg, spilled_int_reg.
        -- by rewrite Hregs, list_lookup_alter_ne, list_lookup_fmap, Hj.
        -- destruct Hhq as [Hu Hv]. destruct (grow_older_same q) as [Hu0 Hv0].
           split; congruence.
    + rewrite (view_missed s g h Hmg), (view_missed s' g h1).
      2:{ apply Hmiss'; [done|]. intros i q Hq Hhq'. by destruct (Hmg _ _ Hq). }
      unfold guest_int64, h1. rewrite filled_int_mem. unfold h0.
      apply spilled_int_load. rewrite Hug, Hvg. intros Hu. destruct (Hold Hu).
      apply (lay_int_int vu Hlay); [lia|lia|].
      intros Heq. destruct (Hmg _ _ Hr). split; congruence.
  - unfold guest_PC, h1. rewrite filled_int_mem. unfold h0.
    apply spilled_int_load. rewrite Hug, Hvg. intros Hu. destruct (Hold Hu).
    apply (lay_int_PC vu Hlay). lia.
  - intros g Hg. unfold guest_vec, h1. rewrite filled_int_mem. unfold h0.
    apply spilled_int_load. rewrite Hug, Hvg. intros Hu. destruct (Hold Hu).
    apply (lay_int_vec vu Hlay); lia.
Qed.

End AcquireCode.

(** ** The guest registers as the compiled code sees them *)

Section View.

Context (vu : VectorUnit).
Implicit Types (s : VU_JIT64) (h : host).

Lemma cached_int_regs s s' g h :
  int_regs s' = int_regs s -> cached_int vu s' g h = cached_int vu s g h.
Proof. intros H. unfold cached_int. by rewrite H. Qed.

Lemma view_regs s s' g h :
  int_regs s' = int_regs s -> view vu s' g h = view vu s g h.
Proof. intros H. unfold view. by rewrite (cached_int_regs s s'). Qed.

(** Two hosts that agree on the registers other than RAX and [k], and on
    the guest register in memory, give the same view of a register that
    slot [k] does not hold. *)
Lemma view_ext s g h h' k :
  alloc_inv s ->
  (∀ j, j ≠ RAX -> j ≠ k -> reg64 h' j = reg64 h j) ->
  (∀ r, int_regs s !! k = Some r -> ¬ holds g r) ->
  guest_int64 vu g h' = guest_int64 vu g h ->
  view vu s g h' = view vu s g h.
Proof.
  intros Hinv Hreg Hk Hmem.
  destruct (hit_or_miss g (int_regs s)) as [(j & r & Hj & Hh & _)|Hm].
  - rewrite !(view_held vu s g _ j r Hinv Hj Hh). rewrite Hreg; [done| |].
    + eapply inv_RAX_free; [done|done|apply Hh].
    + intros ->. by destruct (Hk r Hj).
  - by rewrite !(view_missed vu s g _ Hm).
Qed.

Lemma view_at s g h k r :
  alloc_inv s -> int_regs s !! k = Some r -> holds g r ->
  view vu s g h = reg64 h k mod 2 ^ 64.
Proof. apply view_held. Qed.

Lemma holds_other s k r id g :
  alloc_inv s -> int_regs s !! k = Some r -> holds id r -> g ≠ id ->
  ∀ r', int_regs s !! k = Some r' -> ¬ holds g r'.
Proof. intros _ Hk [_ Hv] Hg r' Hk' [_ Hv']. congruence. Qed.

End View.

(** ** Running the flush *)

(** X9: the flush brings the guest state up to date and changes nothing for
    the compiled code.  In a reachable state, run on any host, the code of
    [flush_regs] leaves in the guest state the value that the compiled code
    saw for every guest integer register from 1 to 15, held in a slot or
    not; the view of every register from 0 to 15 under the flushed pools is
    the view before; the program counter and every host register but RAX
    are untouched. *)
Theorem flush_syncs_guest_state vu s h :
  reachable s -> ids_nonneg s -> layout_ok vu ->
  ∃ h', exec (flush_code vu (xmm_regs s) (int_regs s) 0) h = Some h'
    ∧ (∀ g, 1 <= g < 16 -> guest_int64 vu g h' = view vu s g h)
    ∧ (∀ g, 0 <= g < 16 -> view vu (flush_regs vu s) g h' = view vu s g h)
    ∧ guest_PC vu h' = guest_PC vu h
    ∧ (∀ k, k ≠ RAX -> reg64 h' k = reg64 h k).
Proof.
  intros Hinv%reachable_inv Hnn Hlay.
  pose proof (flush_regs_inv vu s Hinv) as Hinvf.
  destruct (exec_flush_code vu (xmm_regs s) (int_regs s) 0 h)
    as (h' & Hexec & Hreg & _ & Hframe & _ & Hint).
  { by apply inv_flush_safe. }
  { intros j r Hr [Hu _]%flushable_spec. simpl. by apply (inv_RAX_free s j r). }
  assert (Hrange : ∀ j r, int_regs s !! j = Some r -> used r = true ->
            0 <= vu_reg r < 16).
  { intros j r Hr Hu. destruct Hinv as [(_ & Hused & _) _ _ _ _].
    destruct (Hused _ _ Hr Hu) as (_ & _ & ?). pose proof (Hnn IntPool j r Hr Hu). lia. }
  assert (Hrangex : ∀ j x, xmm_regs s !! j = Some x -> used x = true ->
            0 <= vu_reg x < 32).
  { intros j x Hr Hu. destruct Hinv as [_ (_ & Hused & _) _ _ _].
    destruct (Hused _ _ Hr Hu) as (_ & _ & ?). pose proof (Hnn VecPool j x Hr Hu). lia. }
  (* memory that no flushed slot is for *)
  assert (Hkeep : ∀ addr n,
            (∀ j r, int_regs s !! j = Some r -> flushable r = true ->
               apart (int_gpr vu (vu_reg r)) 8 addr (Z.of_nat n)) ->
            (∀ j x, xmm_regs s !! j = Some x -> flushable x = true ->
               apart (gpr vu (vu_reg x)) 16 addr (Z.of_nat n)) ->
            load_bytes n addr (mem h') = load_bytes n addr (mem h)).
  { intros addr n Hi Hx. apply load_bytes_ext. intros a Ha. apply Hframe.
    - intros j x Hj Hf. eapply apart_not_in; [apply apart_sym, (Hx j x Hj Hf)|exact Ha].
    - intros j r Hj Hf. eapply apart_not_in; [apply apart_sym, (Hi j r Hj Hf)|exact Ha]. }
  assert (Hunheld : ∀ g, 0 <= g < 16 ->
            (∀ j r, int_regs s !! j = Some r -> flushable r = true -> vu_reg r ≠ g) ->
            guest_int64 vu g h' = guest_int64 vu g h).
  { intros g Hg Hne. apply Hkeep.
    - intros j r Hj Hf. pose proof (Hne j r Hj Hf).
      apply flushable_spec in Hf as [Hu _]. pose proof (Hrange j r Hj Hu).
      by apply (lay_int_int vu Hlay).
    - intros j x Hj Hf. apply flushable_spec in Hf as [Hu _].
      pose proof (Hrangex j x Hj Hu). by apply apart_sym, (lay_int_vec vu Hlay). }
  assert (Hsync : ∀ g, 1 <= g < 16 -> guest_int64 vu g h' = view vu s g h).
  { intros g Hg.
    destruct (hit_or_miss g (int_regs s)) as [(j & r & Hj & [Hu Hv] & _)|Hm].
    - rewrite (view_held vu s g h j r Hinv Hj (conj Hu Hv)). subst g.
      unfold guest_int64. rewrite (Hint j r Hj); [done| |].
      + apply flushable_spec. split; [done|lia].
      + apply lookup_lt_Some in Hj. destruct Hinv as [(Hli & _) (Hlx & _) _ _ _]. lia.
    - rewrite (view_missed vu s g h Hm). apply Hunheld; [lia|].
      intros j r Hj [Hu _]%flushable_spec Heq. by destruct (Hm j r Hj). }
  exists h'. split_and!; [done|done| | |done].
  - intros g Hg. destruct (decide (g = 0)) as [->|Hg0].
    + destruct (hit_or_miss 0 (int_regs s)) as [(j & r & Hj & [Hu Hv] & _)|Hm].
      * rewrite (view_held vu s 0 h j r Hinv Hj (conj Hu Hv)).
        assert (Hnf : flushable r = false).
        { destruct (flushable r) eqn:E; [|done]. apply flushable_spec in E. tauto. }
        rewrite (view_held vu (flush_regs vu s) 0 h' j r Hinvf); [| |by split].
        -- rewrite Hreg; [done|]. by apply (inv_RAX_free s j r).
        -- simpl. rewrite list_lookup_fmap, Hj. simpl. unfold flush_slot. by rewrite Hnf.
      * rewrite (view_missed vu s 0 h Hm), (view_missed vu (flush_regs vu s) 0 h').
        -- apply Hunheld; [lia|]. intros j r Hj Hf. by apply flushable_spec in Hf as [_ ?].
        -- intros j r Hr. simpl in Hr. rewrite list_lookup_fmap in Hr.
           destruct (int_regs s !! j) as [q|] eqn:Hq; simplify_eq/=.
           intros [Hu Hv]. unfold flush_slot in *.
           destruct (flushable q); [done|]. by destruct (Hm j q Hq).
    + rewrite <- (Hsync g) by lia. apply view_missed.
      apply (flush_misses vu s IntPool g Hg0).
  - unfold guest_PC. apply Hkeep.
    + intros j r Hj [Hu _]%flushable_spec. apply (lay_int_PC vu Hlay). eauto.
    + intros j x Hj [Hu _]%flushable_spec. apply (lay_vec_PC vu Hlay). eauto.
Qed.

Lemma flush_syncs_guest_state_witness :
  reachable jit5 ∧ ids_nonneg jit5 ∧ layout_ok vu0
  ∧ ∃ h', exec (flush_code vu0 (xmm_regs jit5) (int_regs jit5) 0) host_stale = Some h'
      ∧ guest_int64 vu0 5 h' = view vu0 jit5 5 host_stale.
Proof.
  split; [apply jit5_reachable|]. split; [apply ids_nonneg_jit5|].
  split; [apply layout_ok_vu0|].
  destruct (flush_syncs_guest_state vu0 jit5 host_stale
              jit5_reachable ids_nonneg_jit5 layout_ok_vu0) as (h' & Hex & Hsync & _).
  exists h'. split; [exact Hex|]. apply Hsync. lia.
Defined.

(** ** Running the code of the handlers *)

Section Handlers.

Context (vu : VectorUnit).
Implicit Types (s : VU_JIT64) (h : host).

Ltac hsimpl := cbn [mem with_mem with_reg64 with_xmm128 reg64 xmm128].

Lemma mod64_16 x : (x mod 2 ^ 64) mod 2 ^ 16 = x mod 2 ^ 16.
Proof. apply Z.mod_mod_divide. exists (2 ^ 48). reflexivity. Qed.

Lemma mod64_32 x : (x mod 2 ^ 64) mod 2 ^ 32 = x mod 2 ^ 32.
Proof. apply Z.mod_mod_divide. exists (2 ^ 32). reflexivity. Qed.

Lemma low16_low a b : low16 a b mod 2 ^ 16 = b mod 2 ^ 16.
Proof.
  unfold low16. rewrite (Z.div_mod a (2 ^ 16)) at 1 by lia.
  replace (2 ^ 16 * (a / 2 ^ 16) + a mod 2 ^ 16 - a mod 2 ^ 16 + b mod 2 ^ 16)
    with (b mod 2 ^ 16 + (a / 2 ^ 16) * 2 ^ 16) by lia.
  by rewrite Z.mod_add, Z.mod_mod by lia.
Qed.

Lemma shl3_mod64 x : shl3 (x mod 2 ^ 64) = shl3 x.
Proof. unfold shl3. by rewrite mod64_32. Qed.

Lemma ids_nonneg_log evs s : ids_nonneg s -> ids_nonneg (log evs s).
Proof. intros H p i r Hr. apply (H p i r). by destruct p. Qed.

(** A register instruction on slot [k], which holds [id]. *)
Lemma view_set_reg_other s k r id g v h :
  alloc_inv s -> int_regs s !! k = Some r -> holds id r -> g ≠ id ->
  view vu s g (with_reg64 k v h) = view vu s g h.
Proof.
  intros Hinv Hk Hh Hg. apply (view_ext vu s g h _ k Hinv).
  - intros j _ Hj. simpl. by rewrite set_reg_ne.
  - by apply (holds_other s k r id g).
  - done.
Qed.

Lemma view_set_reg_same s k r id v h :
  alloc_inv s -> int_regs s !! k = Some r -> holds id r ->
  view vu s id (with_reg64 k v h) = v mod 2 ^ 64.
Proof.
  intros Hinv Hk Hh. rewrite (view_at vu s id _ k r Hinv Hk Hh). simpl.
  by rewrite set_reg_eq.
Qed.

(** The store of the program counter, through RAX. *)
Lemma view_store_PC s g v h :
  alloc_inv s -> layout_ok vu -> 0 <= g < 16 ->
  view vu s g (with_mem (store_bytes 4 (PC vu) v (mem h)) (with_reg64 RAX (PC vu) h))
  = view vu s g h.
Proof.
  intros Hinv Hlay Hg.
  destruct (hit_or_miss g (int_regs s)) as [(j & r & Hj & Hh & _)|Hm].
  - rewrite !(view_held vu s g _ j r Hinv Hj Hh). simpl.
    rewrite set_reg_ne; [done|]. eapply inv_RAX_free; [exact Hinv|exact Hj|apply Hh].
  - rewrite !(view_missed vu s g _ Hm). unfold guest_int64. hsimpl.
    apply load_store_apart, apart_sym. by apply (lay_int_PC vu Hlay).
Qed.

(** X10: the code of [load_const].  Compiled in a reachable state whose
    slots in use are for guest registers of non-negative number, with a
    guest state whose registers do not overlap, for a destination of
    non-negative number, and run on any host, it makes the low 16 bits of
    the destination, as the compiled code sees it, the immediate, and
    leaves every other guest integer register and the program counter as
    the compiled code saw them. *)
Theorem load_const_effect instr s s' h :
  reachable s -> ids_nonneg s -> layout_ok vu ->
  0 <= get_dest instr ->
  load_const vu instr s = Ok s' ->
  ∃ code h',
    trace s' = trace s ++ (Emit <$> code)
    ∧ exec code h = Some h'
    ∧ view vu s' (get_dest instr) h' mod 2 ^ 16 = get_source instr mod 2 ^ 16
    ∧ (∀ g, 0 <= g < 16 -> g ≠ get_dest instr -> view vu s' g h' = view vu s g h)
    ∧ guest_PC vu h' = guest_PC vu h.
Proof.
  intros Hinv%reachable_inv Hnn Hlay Hd H. unfold load_const in H.
  destruct (alloc_int_reg vu (get_dest instr) false s) as [[k s1]|] eqn:Ea; [|done].
  rewrite bind_Ok in H. injection H as <-.
  pose proof (alloc_int_reg_inv vu _ _ _ _ _ Hinv Ea) as Hinv1.
  destruct (exec_alloc_int vu _ _ _ _ _ h Hinv Hnn Hlay Hd Ea)
    as (code & h1 & Htr & Hexec & Hk & (r & Hr & Hh) & Hreg & _ & _ & Hoth & HPC & _).
  set (s2 := emit [MOV16_REG_IMM (get_source instr) k] s1).
  assert (Hinv2 : alloc_inv s2) by by apply log_inv.
  exists (code ++ [MOV16_REG_IMM (get_source instr) k]),
    (with_reg64 k (low16 (reg64 h1 k) (get_source instr)) h1).
  split_and!.
  - unfold s2. simpl. by rewrite Htr, fmap_app, <- app_assoc.
  - by rewrite exec_app, Hexec, bind_Some.
  - rewrite (view_set_reg_same s2 k r _ _ h1 Hinv2 Hr Hh). by rewrite mod64_16, low16_low.
  - intros g Hg Hgd. rewrite (view_set_reg_other s2 k r _ g _ h1 Hinv2 Hr Hh Hgd).
    rewrite (view_regs vu s1 s2) by done. by apply Hoth.
  - exact HPC.
Qed.

(** X11: the code of [jump].  It changes neither pool; run on any host it
    sets the guest program counter to the 32 bits of the target and, with
    a guest state that does not overlap, leaves every guest integer
    register as the compiled code saw it and every guest vector register
    as it was. *)
Theorem jump_effect instr s h :
  ∃ s' h',
    jump vu instr s = Ok s'
    ∧ int_regs s' = int_regs s ∧ xmm_regs s' = xmm_regs s
    ∧ exec [load_addr (PC vu) RAX; MOV32_MI_MEM (get_jump_dest instr) RAX] h = Some h'
    ∧ trace s' = trace s
        ++ (Emit <$> [load_addr (PC vu) RAX; MOV32_MI_MEM (get_jump_dest instr) RAX])
    ∧ guest_PC vu h' = get_jump_dest instr mod 2 ^ 32
    ∧ (reachable s -> layout_ok vu ->
       (∀ g, 0 <= g < 16 -> view vu s' g h' = view vu s g h)
       ∧ (∀ g, 0 <= g < 32 -> guest_vec vu g h' = guest_vec vu g h)).
Proof.
  eexists _, _. split; [reflexivity|]. split_and!; try reflexivity.
  - unfold guest_PC. hsimpl. rewrite set_reg_eq.
    by rewrite (load_store_same 4 _ _ _ 4) by lia.
  - intros Hinv%reachable_inv Hlay. split.
    + intros g Hg. rewrite (view_regs vu s) by done. hsimpl. rewrite set_reg_eq.
      by apply view_store_PC.
    + intros g Hg. unfold guest_vec. hsimpl. rewrite set_reg_eq.
      apply load_store_apart, apart_sym. by apply (lay_vec_PC vu Hlay).
Qed.

(** X12: the code of [jump_and_link].  Compiled in a reachable state whose
    slots in use are for guest registers of non-negative number, with a
    guest state whose registers do not overlap, for a link register of
    non-negative number, it sets the guest program counter to the 32 bits
    of the target and makes the link register, as the compiled code sees
    it, the 64 bits of the return address; every other guest integer
    register is as the compiled code saw it. *)
Theorem jump_and_link_effect instr s s' h :
  reachable s -> ids_nonneg s -> layout_ok vu ->
  0 <= get_dest instr ->
  jump_and_link vu instr s = Ok s' ->
  ∃ code h',
    trace s' = trace s ++ (Emit <$> code)
    ∧ exec code h = Some h'
    ∧ guest_PC vu h' = get_jump_dest instr mod 2 ^ 32
    ∧ view vu s' (get_dest instr) h' = get_return_addr instr mod 2 ^ 64
    ∧ (∀ g, 0 <= g < 16 -> g ≠ get_dest instr -> view vu s' g h' = view vu s g h).
Proof.
  intros Hinv%reachable_inv Hnn Hlay Hd H. unfold jump_and_link in H.
  set (c0 := [load_addr (PC vu) RAX; MOV32_MI_MEM (get_jump_dest instr) RAX]) in *.
  set (s0 := emit c0 s) in *.
  set (h0 := with_mem (store_bytes 4 (PC vu) (get_jump_dest instr) (mem h))
               (with_reg64 RAX (PC vu) h)).
  assert (Hexec0 : exec c0 h = Some h0).
  { unfold c0, h0. simpl. by rewrite set_reg_eq. }
  assert (Hinv0 : alloc_inv s0) by by apply log_inv.
  assert (Hnn0 : ids_nonneg s0) by by apply ids_nonneg_log.
  destruct (alloc_int_reg vu (get_dest instr) load_state_default s0)
    as [[k s1]|] eqn:Ea; [|done].
  rewrite bind_Ok in H. injection H as <-.
  pose proof (alloc_int_reg_inv vu _ _ _ _ _ Hinv0 Ea) as Hinv1.
  destruct (exec_alloc_int vu _ _ _ _ _ h0 Hinv0 Hnn0 Hlay Hd Ea)
    as (code & h1 & Htr & Hexec & Hk & (r & Hr & Hh) & Hreg & _ & _ & Hoth & HPC & _).
  set (s2 := emit [MOV64_OI (get_return_addr instr) k] s1).
  assert (Hinv2 : alloc_inv s2) by by apply log_inv.
  exists (c0 ++ code ++ [MOV64_OI (get_return_addr instr) k]),
    (with_reg64 k (get_return_addr instr mod 2 ^ 64) h1).
  split_and!.
  - unfold s2. simpl. rewrite Htr. unfold s0. simpl.
    by rewrite !fmap_app, <- !app_assoc.
  - by rewrite exec_app, Hexec0, bind_Some, exec_app, Hexec, bind_Some.
  - change (guest_PC vu h1 = get_jump_dest instr mod 2 ^ 32). rewrite HPC.
    unfold guest_PC, h0. hsimpl. by rewrite (load_store_same 4 _ _ _ 4) by lia.
  - rewrite (view_set_reg_same s2 k r _ _ h1 Hinv2 Hr Hh). apply Z.mod_mod. lia.
  - intros g Hg Hgd. rewrite (view_set_reg_other s2 k r _ g _ h1 Hinv2 Hr Hh Hgd).
    rewrite (view_regs vu s1 s2) by done. rewrite (Hoth g Hg Hgd).
    rewrite (view_regs vu s s0) by done. unfold h0. by apply view_store_PC.
Qed.

(** X13: the code of [jump_indirect].  Compiled in a reachable state whose
    slots in use are for guest registers of non-negative number, with a
    guest state whose registers do not overlap, for a source of
    non-negative number (zero included), it sets the guest program counter
    to the value that the compiled code saw for the source, shifted left by
    three bits as a 32-bit number, and from then on the compiled code sees
    that shifted value for the source itself; every other guest integer
    register is as the compiled code saw it. *)
Theorem jump_indirect_effect instr s s' h :
  reachable s -> ids_nonneg s -> layout_ok vu ->
  0 <= get_source instr ->
  jump_indirect vu instr s = Ok s' ->
  ∃ code h',
    trace s' = trace s ++ (Emit <$> code)
    ∧ exec code h = Some h'
    ∧ guest_PC vu h' = shl3 (view vu s (get_source instr) h)
    ∧ view vu s' (get_source instr) h' = shl3 (view vu s (get_source instr) h)
    ∧ (∀ g, 0 <= g < 16 -> g ≠ get_source instr -> view vu s' g h' = view vu s g h).
Proof.
  intros Hinv%reachable_inv Hnn Hlay Hd H. unfold jump_indirect in H.
  destruct (alloc_int_reg vu (get_source instr) load_state_default s)
    as [[k s1]|] eqn:Ea; [|done].
  rewrite bind_Ok in H. injection H as <-.
  pose proof (alloc_int_reg_inv vu _ _ _ _ _ Hinv Ea) as Hinv1.
  destruct (exec_alloc_int vu _ _ _ _ _ h Hinv Hnn Hlay Hd Ea)
    as (code & h1 & Htr & Hexec & Hk & (r & Hr & Hh) & Hreg & Hval & _ & Hoth & HPC & _).
  assert (Hlt : get_source instr < 16).
  { destruct Hh as [Hu <-]. destruct Hinv1 as [(_ & Hused & _) _ _ _ _].
    by destruct (Hused _ _ Hr Hu) as (_ & _ & ?). }
  set (c := [SHL32_REG_IMM 3 k; load_addr (PC vu) RAX; MOV32_TO_MEM k RAX]).
  set (s2 := emit c s1).
  assert (Hinv2 : alloc_inv s2) by by apply log_inv.
  set (v := shl3 (reg64 h1 k)).
  set (ha := with_reg64 k v h1).
  set (h2 := with_mem (store_bytes 4 (PC vu) v (mem ha)) (with_reg64 RAX (PC vu) ha)).
  assert (Hexec2 : exec c h1 = Some h2).
  { unfold c, h2, ha, v. simpl. rewrite !set_reg_eq.
    rewrite (set_reg_ne RAX _ _ k) by done. by rewrite set_reg_eq. }
  assert (Hv : v = shl3 (view vu s (get_source instr) h)).
  { unfold v. simpl in Hval. by rewrite <- Hval, shl3_mod64. }
  exists (code ++ c), h2. split_and!.
  - unfold s2. simpl. by rewrite Htr, fmap_app, <- app_assoc.
  - by rewrite exec_app, Hexec, bind_Some.
  - unfold guest_PC, h2. hsimpl. rewrite (load_store_same 4 _ _ _ 4) by lia.
    rewrite Hv. unfold shl3. apply Z.mod_mod. lia.
  - unfold h2. rewrite view_store_PC by (try done; lia).
    unfold ha. rewrite (view_set_reg_same s2 k r _ _ h1 Hinv2 Hr Hh).
    rewrite Hv. apply Z.mod_small, shl3_bound.
  - intros g Hg Hgd. unfold h2. rewrite view_store_PC by done.
    unfold ha. rewrite (view_set_reg_other s2 k r _ g _ h1 Hinv2 Hr Hh Hgd).
    rewrite (view_regs vu s1 s2) by done. by apply Hoth.
Qed.

End Handlers.

Lemma load_const_effect_witness :
  reachable (reset jit0) ∧ ids_nonneg (reset jit0) ∧ layout_ok vu0
  ∧ ∃ s' code h',
      load_const vu0 (instr0 LoadConst 5 7 0) (reset jit0) = Ok s'
      ∧ exec code host0 = Some h'
      ∧ view vu0 s' 5 h' mod 2 ^ 16 = 7.
Proof.
  split; [apply reset_jit0_reachable|]. split; [apply ids_nonneg_reset|].
  split; [apply layout_ok_vu0|].
  destruct (load_const vu0 (instr0 LoadConst 5 7 0) (reset jit0)) as [s'|] eqn:E;
    [|vm_compute in E; discriminate E].
  destruct (load_const_effect vu0 (instr0 LoadConst 5 7 0) (reset jit0) s' host0
              reset_jit0_reachable ids_nonneg_reset layout_ok_vu0 ltac:(simpl; lia) E)
    as (code & h' & _ & Hex & Hv & _).
  exists s', code, h'. split; [reflexivity|]. split; [exact Hex|exact Hv].
Defined.

Lemma jump_effect_witness :
  reachable (reset jit0) ∧ layout_ok vu0
  ∧ ∃ s' h',
      jump vu0 (instr0 Jump 0 0 0) (reset jit0) = Ok s'
      ∧ guest_PC vu0 h' = 0
      ∧ view vu0 s' 1 h' = view vu0 (reset jit0) 1 host0.
Proof.
  split; [apply reset_jit0_reachable|]. split; [apply layout_ok_vu0|].
  destruct (jump_effect vu0 (instr0 Jump 0 0 0) (reset jit0) host0)
    as (s' & h' & Hj & _ & _ & _ & _ & HPC & Hrest).
  exists s', h'. split; [exact Hj|]. split; [exact HPC|].
  apply (Hrest reset_jit0_reachable layout_ok_vu0). lia.
Defined.

Lemma jump_and_link_effect_witness :
  reachable (reset jit0) ∧ ids_nonneg (reset jit0) ∧ layout_ok vu0
  ∧ ∃ s' code h',
      jump_and_link vu0
        {| op := JumpAndLink; get_dest := 15; get_source := 0; get_source2 := 0;
           get_jump_dest := 64; get_return_addr := 24 |} (reset jit0) = Ok s'
      ∧ exec code host0 = Some h'
      ∧ guest_PC vu0 h' = 64
      ∧ view vu0 s' 15 h' = 24.
Proof.
  split; [apply reset_jit0_reachable|]. split; [apply ids_nonneg_reset|].
  split; [apply layout_ok_vu0|].
  set (instr := {| op := JumpAndLink; get_dest := 15; get_source := 0; get_source2 := 0;
                   get_jump_dest := 64; get_return_addr := 24 |}).
  destruct (jump_and_link vu0 instr (reset jit0)) as [s'|] eqn:E;
    [|vm_compute in E; discriminate E].
  destruct (jump_and_link_effect vu0 instr (reset jit0) s' host0
              reset_jit0_reachable ids_nonneg_reset layout_ok_vu0 ltac:(simpl; lia) E)
    as (code & h' & _ & Hex & HPC & Hv & _).
  exists s', code, h'. split; [reflexivity|]. split; [exact Hex|]. split; [exact HPC|exact Hv].
Defined.

Lemma jump_indirect_effect_witness :
  reachable (reset jit0) ∧ ids_nonneg (reset jit0) ∧ layout_ok vu0
  ∧ ∃ s' code h',
      jump_indirect vu0 (instr0 JumpIndirect 0 1 0) (reset jit0) = Ok s'
      ∧ exec code host0 = Some h'
      ∧ guest_PC vu0 h' = shl3 (view vu0 (reset jit0) 1 host0).
Proof.
  split; [apply reset_jit0_reachable|]. split; [apply ids_nonneg_reset|].
  split; [apply layout_ok_vu0|].
  destruct (jump_indirect vu0 (instr0 JumpIndirect 0 1 0) (reset jit0)) as [s'|] eqn:E;
    [|vm_compute in E; discriminate E].
  destruct (jump_indirect_effect vu0 (instr0 JumpIndirect 0 1 0) (reset jit0) s' host0
              reset_jit0_reachable ids_nonneg_reset layout_ok_vu0 ltac:(simpl; lia) E)
    as (code & h' & _ & Hex & HPC & _).
  exists s', code, h'. split; [reflexivity|]. split; [exact Hex|exact HPC].
Defined.

(** ** The handlers with two operands *)

Section TwoOperands.

Context (vu : VectorUnit).
Implicit Types (s : VU_JIT64) (h : host).

(** The destination is acquired without load, then the source.  The two
    get different slots when the destination missed or the source is
    held. *)
Lemma two_acquires d sr l2 s kd s1 ks s2 h :
  reachable s -> ids_nonneg s -> layout_ok vu ->
  0 <= d -> 0 <= sr -> sr ≠ d ->
  misses d (int_regs s) ∨ held sr (int_regs s) ->
  alloc_int_reg vu d false s = Ok (kd, s1) ->
  alloc_int_reg vu sr l2 s1 = Ok (ks, s2) ->
  ∃ code h2,
    trace s2 = trace s ++ (Emit <$> code)
    ∧ exec code h = Some h2
    ∧ alloc_inv s2
    ∧ kd ≠ ks
    ∧ (∃ rd, int_regs s2 !! kd = Some rd ∧ holds d rd)
    ∧ (∃ rs, int_regs s2 !! ks = Some rs ∧ holds sr rs)
    ∧ (l2 = true -> reg64 h2 ks mod 2 ^ 64 = view vu s sr h)
    ∧ (∀ g, 0 <= g < 16 -> g ≠ d -> g ≠ sr -> view vu s2 g h2 = view vu s g h)
    ∧ guest_PC vu h2 = guest_PC vu h.
Proof.
  intros Hs Hnn Hlay Hd Hsr Hne Hcond Ha1 Ha2.
  pose proof (reachable_inv s Hs) as Hinv.
  pose proof (reach_alloc_int vu _ _ _ _ _ Hs Ha1) as Hs1.
  pose proof (reachable_inv s1 Hs1) as Hinv1.
  pose proof (ids_nonneg_alloc_int vu _ _ _ _ _ Hnn Hd Ha1) as Hnn1.
  pose proof (alloc_int_reg_inv vu _ _ _ _ _ Hinv1 Ha2) as Hinv2.
  destruct (exec_alloc_int vu _ _ _ _ _ h Hinv Hnn Hlay Hd Ha1)
    as (c1 & h1 & Htr1 & Hex1 & Hk1 & (rd & Hrd & Hhd) & _ & _ & _ & Hoth1 & HPC1 & _).
  destruct (exec_alloc_int vu _ _ _ _ _ h1 Hinv1 Hnn1 Hlay Hsr Ha2)
    as (c2 & h2 & Htr2 & Hex2 & Hk2 & (rs & Hrs & Hhs) & _ & Hval2 & _ & Hoth2 & HPC2 & _).
  assert (Hsr16 : sr < 16).
  { destruct Hhs as [Hu <-]. destruct Hinv2 as [(_ & Hused & _) _ _ _ _].
    by destruct (Hused _ _ Hrs Hu) as (_ & _ & ?). }
  assert (Hslots : kd ≠ ks ∧ ∃ r, int_regs s2 !! kd = Some r ∧ holds d r).
  { destruct (hit_or_miss d (int_regs s)) as [(k0 & r0 & Hk0 & Hh0 & Hfirst)|Hm].
    - destruct Hcond as [Hm|(j & rj & Hj & Hhj)]; [by destruct (Hm _ _ Hk0)|].
      assert (Hd16 : d < 16).
      { destruct Hhd as [Hu <-]. destruct Hinv1 as [(_ & Hused & _) _ _ _ _].
        by destruct (Hused _ _ Hrd Hu) as (_ & _ & ?). }
      rewrite (alloc_int_reg_hit vu d false s k0 r0 Hd16 Hk0 Hh0 Hfirst) in Ha1.
      injection Ha1 as <- <-.
      destruct (alloc_int_reg_spec vu _ _ _ _ _ Hinv Ha2)
        as (_ & _ & _ & [(r & Hr & Hh & ->)|(Hm & _)]); [|by destruct (Hm _ _ Hj)].
      split; [|eauto]. intros ->. destruct Hh0 as [_ Hv0], Hh as [_ Hv].
      assert (r0 = r) by congruence. subst. congruence.
    - destruct (next_acquire_other_slot vu IntPool d false sr l2 s kd s1 ks s2
                  Hs Hm Ha1 Hne Ha2) as [Hks Hkeep].
      split; [congruence|exact Hkeep]. }
  destruct Hslots as [Hkk Hkeep].
  exists (c1 ++ c2), h2. split_and!; try done.
  - by rewrite Htr2, Htr1, fmap_app, app_assoc.
  - by rewrite exec_app, Hex1, bind_Some.
  - eauto.
  - intros ->. rewrite Hval2. apply Hoth1; [lia|done].
  - intros g Hg Hgd Hgs. rewrite (Hoth2 g Hg Hgs). by apply Hoth1.
  - by rewrite HPC2.
Qed.

Lemma add16 a b c :
  (low16 a b + c mod 2 ^ 16) mod 2 ^ 16 = (b mod 2 ^ 64 + c) mod 2 ^ 16.
Proof.
  rewrite Z.add_mod, low16_low, Z.mod_mod by lia.
  rewrite (Z.add_mod (b mod 2 ^ 64)), mod64_16 by lia. done.
Qed.

(** X14: the code of [add_unsigned_imm], where it is right.  Compiled in a
    reachable state whose slots in use are for guest registers of
    non-negative number, with a guest state whose registers do not overlap,
    for two different registers of non-negative number, the destination
    not yet held or the source held, it makes the low 16 bits of the
    destination the sum, modulo 2^16, of the source as the compiled code
    saw it and the immediate; every other guest integer register, the
    source included, and the program counter are as the compiled code saw
    them. *)
Theorem add_unsigned_imm_effect instr s s' h :
  reachable s -> ids_nonneg s -> layout_ok vu ->
  0 <= get_dest instr -> 0 <= get_source instr ->
  get_source instr ≠ get_dest instr ->
  misses (get_dest instr) (int_regs s) ∨ held (get_source instr) (int_regs s) ->
  add_unsigned_imm vu instr s = Ok s' ->
  ∃ code h',
    trace s' = trace s ++ (Emit <$> code)
    ∧ exec code h = Some h'
    ∧ view vu s' (get_dest instr) h' mod 2 ^ 16
      = (view vu s (get_source instr) h + get_source2 instr) mod 2 ^ 16
    ∧ (∀ g, 0 <= g < 16 -> g ≠ get_dest instr -> view vu s' g h' = view vu s g h)
    ∧ guest_PC vu h' = guest_PC vu h.
Proof.
  intros Hs Hnn Hlay Hd Hsr Hne Hcond H. unfold add_unsigned_imm in H.
  destruct (alloc_int_reg vu (get_dest instr) false s) as [[kd s1]|] eqn:Ea1; [|done].
  rewrite bind_Ok in H. cbv beta iota in H.
  destruct (alloc_int_reg vu (get_source instr) load_state_default s1)
    as [[ks s2]|] eqn:Ea2; [|done].
  rewrite bind_Ok in H. injection H as <-.
  destruct (two_acquires _ _ _ _ _ _ _ _ h Hs Hnn Hlay Hd Hsr Hne Hcond Ea1 Ea2)
    as (code & h2 & Htr & Hex & Hinv2 & Hkk & (rd & Hrd & Hhd) & (rs & Hrs & Hhs)
        & Hval & Hoth & HPC).
  set (imm := get_source2 instr mod 2 ^ 16).
  set (c := [MOV16_REG ks kd; ADD16_REG_IMM imm kd]).
  set (s3 := emit c s2).
  assert (Hinv3 : alloc_inv s3) by by apply log_inv.
  set (a := low16 (reg64 h2 kd) (reg64 h2 ks)).
  set (h3 := with_reg64 kd (low16 a (a + imm)) (with_reg64 kd a h2)).
  assert (Hex3 : exec c h2 = Some h3).
  { unfold c, h3, a. simpl. by rewrite !set_reg_eq. }
  exists (code ++ c), h3. split_and!.
  - unfold s3. simpl. by rewrite Htr, fmap_app, <- app_assoc.
  - by rewrite exec_app, Hex, bind_Some.
  - unfold h3. rewrite (view_set_reg_same vu s3 kd rd _ _ _ Hinv3 Hrd Hhd).
    rewrite mod64_16, low16_low. unfold a, imm. rewrite add16.
    by rewrite (Hval eq_refl).
  - intros g Hg Hgd. unfold h3.
    rewrite !(view_set_reg_other vu s3 kd rd _ g _ _ Hinv3 Hrd Hhd Hgd).
    rewrite (view_regs vu s2 s3) by done.
    destruct (decide (g = get_source instr)) as [->|Hgs]; [|by apply Hoth].
    rewrite (view_at vu s2 _ h2 ks rs Hinv2 Hrs Hhs). by apply Hval.
  - exact HPC.
Qed.

(** X15: the code of [move_int_reg], where it is right.  Compiled in a
    reachable state whose slots in use are for guest registers of
    non-negative number, with a guest state whose registers do not overlap,
    for two different registers of non-negative number, the destination
    not yet held or the source held, it makes the low 16 bits of the
    destination those of the source as the compiled code saw it, and leaves
    every other guest integer register and the program counter as the
    compiled code saw them. *)
Theorem move_int_reg_effect instr s s' h :
  reachable s -> ids_nonneg s -> layout_ok vu ->
  0 <= get_dest instr -> 0 <= get_source instr ->
  get_source instr ≠ get_dest instr ->
  misses (get_dest instr) (int_regs s) ∨ held (get_source instr) (int_regs s) ->
  move_int_reg vu instr s = Ok s' ->
  ∃ code h',
    trace s' = trace s ++ (Emit <$> code)
    ∧ exec code h = Some h'
    ∧ view vu s' (get_dest instr) h' mod 2 ^ 16
      = view vu s (get_source instr) h mod 2 ^ 16
    ∧ (∀ g, 0 <= g < 16 -> g ≠ get_dest instr -> view vu s' g h' = view vu s g h)
    ∧ guest_PC vu h' = guest_PC vu h.
Proof.
  intros Hs Hnn Hlay Hd Hsr Hne Hcond H. unfold move_int_reg in H.
  destruct (alloc_int_reg vu (get_dest instr) false s) as [[kd s1]|] eqn:Ea1; [|done].
  rewrite bind_Ok in H. cbv beta iota in H.
  assert (Hload : negb (Nat.eqb kd 0) = true).
  { destruct (exec_alloc_int vu _ _ _ _ _ h (reachable_inv s Hs) Hnn Hlay Hd Ea1)
      as (_ & _ & _ & _ & Hk & _).
    apply negb_true_iff, Nat.eqb_neq, Hk. }
  rewrite Hload in H.
  destruct (alloc_int_reg vu (get_source instr) true s1)
    as [[ks s2]|] eqn:Ea2; [|done].
  rewrite bind_Ok in H. injection H as <-.
  destruct (two_acquires _ _ _ _ _ _ _ _ h Hs Hnn Hlay Hd Hsr Hne Hcond Ea1 Ea2)
    as (code & h2 & Htr & Hex & Hinv2 & Hkk & (rd & Hrd & Hhd) & (rs & Hrs & Hhs)
        & Hval & Hoth & HPC).
  set (s3 := emit [MOV16_REG ks kd] s2).
  assert (Hinv3 : alloc_inv s3) by by apply log_inv.
  exists (code ++ [MOV16_REG ks kd]),
    (with_reg64 kd (low16 (reg64 h2 kd) (reg64 h2 ks)) h2).
  split_and!.
  - unfold s3. simpl. by rewrite Htr, fmap_app, <- app_assoc.
  - by rewrite exec_app, Hex, bind_Some.
  - rewrite (view_set_reg_same vu s3 kd rd _ _ _ Hinv3 Hrd Hhd).
    rewrite mod64_16, low16_low, <- (Hval eq_refl). by rewrite mod64_16.
  - intros g Hg Hgd.
    rewrite (view_set_reg_other vu s3 kd rd _ g _ _ Hinv3 Hrd Hhd Hgd).
    rewrite (view_regs vu s2 s3) by done.
    destruct (decide (g = get_source instr)) as [->|Hgs]; [|by apply Hoth].
    rewrite (view_at vu s2 _ h2 ks rs Hinv2 Hrs Hhs). by apply Hval.
  - exact HPC.
Qed.

End TwoOperands.

Lemma add_unsigned_imm_effect_witness :
  reachable (reset jit0) ∧ ids_nonneg (reset jit0) ∧ layout_ok vu0
  ∧ misses 2 (int_regs (reset jit0))
  ∧ ∃ s' code h',
      add_unsigned_imm vu0 (instr0 AddUnsignedImm 2 1 65535) (reset jit0) = Ok s'
      ∧ exec code host0 = Some h'
      ∧ view vu0 s' 2 h' mod 2 ^ 16
        = (view vu0 (reset jit0) 1 host0 + 65535) mod 2 ^ 16.
Proof.
  assert (Hm : misses 2 (int_regs (reset jit0))) by (by apply misses_find).
  split; [apply reset_jit0_reachable|]. split; [apply ids_nonneg_reset|].
  split; [apply layout_ok_vu0|]. split; [exact Hm|].
  destruct (add_unsigned_imm vu0 (instr0 AddUnsignedImm 2 1 65535) (reset jit0))
    as [s'|] eqn:E; [|vm_compute in E; discriminate E].
  destruct (add_unsigned_imm_effect vu0 (instr0 AddUnsignedImm 2 1 65535) (reset jit0)
              s' host0 reset_jit0_reachable ids_nonneg_reset layout_ok_vu0
              ltac:(simpl; lia) ltac:(simpl; lia) ltac:(simpl; lia) (or_introl Hm) E)
    as (code & h' & _ & Hex & Hv & _).
  exists s', code, h'. split; [reflexivity|]. split; [exact Hex|exact Hv].
Defined.

Lemma move_int_reg_effect_witness :
  reachable (reset jit0) ∧ ids_nonneg (reset jit0) ∧ layout_ok vu0
  ∧ misses 2 (int_regs (reset jit0))
  ∧ ∃ s' code h',
      move_int_reg vu0 (instr0 MoveIntReg 2 1 0) (reset jit0) = Ok s'
      ∧ exec code host0 = Some h'
      ∧ view vu0 s' 2 h' mod 2 ^ 16 = view vu0 (reset jit0) 1 host0 mod 2 ^ 16.
Proof.
  assert (Hm : misses 2 (int_regs (reset jit0))) by (by apply misses_find).
  split; [apply reset_jit0_reachable|]. split; [apply ids_nonneg_reset|].
  split; [apply layout_ok_vu0|]. split; [exact Hm|].
  destruct (move_int_reg vu0 (instr0 MoveIntReg 2 1 0) (reset jit0))
    as [s'|] eqn:E; [|vm_compute in E; discriminate E].
  destruct (move_int_reg_effect vu0 (instr0 MoveIntReg 2 1 0) (reset jit0)
              s' host0 reset_jit0_reachable ids_nonneg_reset layout_ok_vu0
              ltac:(simpl; lia) ltac:(simpl; lia) ltac:(simpl; lia) (or_introl Hm) E)
    as (code & h' & _ & Hex & Hv & _).
  exists s', code, h'. split; [reflexivity|]. split; [exact Hex|exact Hv].
Defined.

(** ** Acquire and the guest values *)

(** X16: an acquire loses no guest value.  In a reachable state whose
    slots in use are for guest registers of non-negative number, with a
    guest state whose registers do not overlap, the code that an acquire of
    a register of non-negative number on the integer pool emits, run on any
    host, leaves every other guest integer register from 0 to 15 as the
    compiled code saw it, whether it stays in its slot, stays in the guest
    state or is the one evicted; with [load_state] the returned host
    register holds the value of the requested register; the program
    counter and the guest vector registers are untouched. *)
Theorem acquire_keeps_guest_values vu id load_state s k s' h :
  reachable s -> ids_nonneg s -> layout_ok vu -> 0 <= id ->
  alloc_int_reg vu id load_state s = Ok (k, s') ->
  ∃ code h',
    trace s' = trace s ++ (Emit <$> code)
    ∧ exec code h = Some h'
    ∧ (∀ g, 0 <= g < 16 -> g ≠ id -> view vu s' g h' = view vu s g h)
    ∧ (load_state = true ->
       reg64 h' k mod 2 ^ 64 = view vu s id h ∧ view vu s' id h' = view vu s id h)
    ∧ guest_PC vu h' = guest_PC vu h
    ∧ (∀ g, 0 <= g < 32 -> guest_vec vu g h' = guest_vec vu g h).
Proof.
  intros Hinv%reachable_inv Hnn Hlay Hid Ha.
  pose proof (alloc_int_reg_inv vu _ _ _ _ _ Hinv Ha) as Hinv'.
  destruct (exec_alloc_int vu _ _ _ _ _ h Hinv Hnn Hlay Hid Ha)
    as (code & h' & Htr & Hex & Hk & (r & Hr & Hh) & _ & Hval & _ & Hoth & HPC & Hvec).
  exists code, h'. split_and!; try done.
  intros ->. split; [done|]. by rewrite (view_at vu s' id h' k r Hinv' Hr Hh).
Qed.

Lemma acquire_all_reachable vu reqs : ∀ s ks s',
  reachable s -> acquire_all vu reqs s = Ok (ks, s') -> reachable s'.
Proof.
  induction reqs as [|[[p id] l] reqs IH]; intros s ks s' Hs H; simpl in H.
  - by injection H as _ <-.
  - destruct (acquire vu p id l s) as [[k s1]|] eqn:E; [|discriminate H].
    rewrite bind_Ok in H. cbv beta iota in H.
    destruct (acquire_all vu reqs s1) as [[ks1 s2]|] eqn:E2; [|discriminate H].
    rewrite bind_Ok in H. injection H as _ <-.
    apply (IH s1 ks1 s2); [|done].
    destruct p; simpl in E; eauto using reach_alloc_int, reach_alloc_sse.
Qed.

Lemma jit_full_reachable : reachable jit_full.
Proof.
  unfold jit_full.
  destruct (acquire_all vu0 full_requests (reset jit0)) as [[ks s]|] eqn:E.
  - eapply acquire_all_reachable; [apply reset_jit0_reachable|exact E].
  - vm_compute in E. discriminate E.
Qed.

Lemma ids_nonneg_jit_full : ids_nonneg jit_full.
Proof. apply ids_nonneg_Forall; vm_compute; repeat constructor; try discriminate; intros _ ?; discriminate. Qed.

Lemma acquire_keeps_guest_values_witness :
  reachable jit_full ∧ ids_nonneg jit_full ∧ layout_ok vu0
  ∧ ∃ k s' code h',
      alloc_int_reg vu0 1 true jit_full = Ok (k, s')
      ∧ exec code host_count = Some h'
      ∧ view vu0 s' 2 h' = view vu0 jit_full 2 host_count.
Proof.
  split; [apply jit_full_reachable|]. split; [apply ids_nonneg_jit_full|].
  split; [apply layout_ok_vu0|].
  destruct (alloc_int_reg vu0 1 true jit_full) as [[k s']|] eqn:E;
    [|vm_compute in E; discriminate E].
  destruct (acquire_keeps_guest_values vu0 1 true jit_full k s' host_count
              jit_full_reachable ids_nonneg_jit_full layout_ok_vu0 ltac:(lia) E)
    as (code & h' & _ & Hex & Hoth & _).
  exists k, s', code, h'. split; [reflexivity|]. split; [exact Hex|].
  apply Hoth; [lia|discriminate].
Defined.

(** X17: spill and fill are a round trip.  In a reachable state whose
    slots in use are for guest registers of non-negative number, with a
    guest state whose registers do not overlap: when an acquire of a
    register of non-negative number evicts slot [k], in use for [old], its
    code stores the 64 bits of host register [k] in the guest state for
    [old]; and the code of a later acquire of [old] with load, run next,
    leaves those 64 bits in the host register it returns. *)
Theorem eviction_round_trip vu id load_state old s k r s1 k2 s2 h :
  reachable s -> ids_nonneg s -> layout_ok vu -> 0 <= id ->
  int_regs s !! k = Some r -> holds old r -> old ≠ id ->
  alloc_int_reg vu id load_state s = Ok (k, s1) ->
  alloc_int_reg vu old true s1 = Ok (k2, s2) ->
  ∃ code1 h1 code2 h2,
    trace s1 = trace s ++ (Emit <$> code1)
    ∧ exec code1 h = Some h1
    ∧ guest_int64 vu old h1 = reg64 h k mod 2 ^ 64
    ∧ trace s2 = trace s1 ++ (Emit <$> code2)
    ∧ exec code2 h1 = Some h2
    ∧ reg64 h2 k2 mod 2 ^ 64 = reg64 h k mod 2 ^ 64.
Proof.
  intros Hs Hnn Hlay Hid Hk Hh Hne Ha1 Ha2.
  pose proof (reachable_inv s Hs) as Hinv.
  pose proof (reach_alloc_int vu _ _ _ _ _ Hs Ha1) as Hs1.
  pose proof (reachable_inv s1 Hs1) as Hinv1.
  pose proof (ids_nonneg_alloc_int vu _ _ _ _ _ Hnn Hid Ha1) as Hnn1.
  assert (Hold : 0 <= old < 16).
  { destruct Hh as [Hu <-]. destruct Hinv as [(_ & Hused & _) _ _ _ _].
    destruct (Hused _ _ Hk Hu) as (_ & _ & ?). pose proof (Hnn IntPool k r Hk Hu). lia. }
  destruct (exec_alloc_int vu _ _ _ _ _ h Hinv Hnn Hlay Hid Ha1)
    as (c1 & h1 & Htr1 & Hex1 & Hk1 & (r1 & Hr1 & Hh1) & _ & _ & _ & Hoth1 & _).
  destruct (exec_alloc_int vu _ _ _ _ _ h1 Hinv1 Hnn1 Hlay (proj1 Hold) Ha2)
    as (c2 & h2 & Htr2 & Hex2 & _ & _ & _ & Hval2 & _).
  assert (Hview : view vu s1 old h1 = reg64 h k mod 2 ^ 64).
  { rewrite (Hoth1 old Hold Hne). by apply (view_at vu s old h k r). }
  assert (Hm1 : misses old (int_regs s1)).
  { intros j q Hq Hhq.
    destruct (acquire_spec vu IntPool id load_state s k s1 Hinv Ha1)
      as (_ & _ & _ & [(r0 & Hr0 & Hh0 & _)|(_ & _ & Hregs)]).
    - simpl in Hr0. assert (r0 = r) by congruence. subst. destruct Hh as [_ ?], Hh0 as [_ ?]. congruence.
    - simpl in Hregs. rewrite Hregs, list_lookup_alter in Hq. case_decide as Hkj.
      + subst j. rewrite list_lookup_fmap, Hk in Hq. simplify_eq/=.
        destruct Hhq as [_ Hv]. simpl in Hv. congruence.
      + rewrite list_lookup_fmap in Hq.
        destruct (int_regs s !! j) as [q0|] eqn:Hq0; simplify_eq/=.
        apply Hkj. symmetry. apply (holds_unique 16 _ old k r j q0 (inv_int s Hinv) Hk Hh Hq0).
        destruct Hhq as [Hu Hv]. destruct (grow_older_same q0) as [Hu0 Hv0].
        split; congruence. }
  exists c1, h1, c2, h2. split_and!; try done.
  - by rewrite <- (view_missed vu s1 old h1 Hm1).
  - by rewrite Hval2.
Qed.

Lemma eviction_round_trip_witness :
  reachable jit_full ∧ ids_nonneg jit_full ∧ layout_ok vu0
  ∧ int_regs jit_full !! 1%nat
    = Some {| used := true; locked := false; age := 13; vu_reg := 2 |}
  ∧ ∃ s1 k2 s2 code1 h1 code2 h2,
      alloc_int_reg vu0 1 true jit_full = Ok (1%nat, s1)
      ∧ alloc_int_reg vu0 2 true s1 = Ok (k2, s2)
      ∧ exec code1 host_count = Some h1
      ∧ exec code2 h1 = Some h2
      ∧ reg64 h2 k2 mod 2 ^ 64 = 101.
Proof.
  split; [apply jit_full_reachable|]. split; [apply ids_nonneg_jit_full|].
  split; [apply layout_ok_vu0|]. split; [reflexivity|].
  destruct (alloc_int_reg vu0 1 true jit_full) as [[k s1]|] eqn:E1;
    [|vm_compute in E1; discriminate E1].
  assert (k = 1%nat) as -> by (vm_compute in E1; by injection E1 as <- _).
  destruct (alloc_int_reg vu0 2 true s1) as [[k2 s2]|] eqn:E2.
  2:{ exfalso. vm_compute in E1. injection E1 as <-. discriminate E2. }
  destruct (eviction_round_trip vu0 1 true 2 jit_full 1
              {| used := true; locked := false; age := 13; vu_reg := 2 |}
              s1 k2 s2 host_count jit_full_reachable ids_nonneg_jit_full layout_ok_vu0
              ltac:(lia) eq_refl (conj eq_refl eq_refl) ltac:(discriminate) E1 E2)
    as (c1 & h1 & c2 & h2 & _ & Hex1 & _ & _ & Hex2 & Hval).
  exists s1, k2, s2, c1, h1, c2, h2. by split_and!.
Defined.

(** ** Running the code of [prepare_abi] *)

Lemma abi_regs_lookup n :
  (n < 6)%nat ->
  abi_regs !!! n ≠ RAX ∧ (abi_regs !!! n < 16)%nat
  ∧ ∀ m, (m < 6)%nat -> abi_regs !!! m = abi_regs !!! n -> m = n.
Proof.
  intros Hn.
  do 6 (destruct n as [|n]; [split_and!; [done|vm_compute; lia|];
    intros m Hm; do 6 (destruct m as [|m]; [by vm_compute|]); lia|]).
  lia.
Qed.

Lemma exec_prepare_abi vu value s h :
  alloc_inv s -> ids_nonneg s -> layout_ok vu ->
  (abi_int_count s < 6)%nat ->
  ∃ s' code h',
    prepare_abi vu value s = Ok s'
    ∧ trace s' = trace s ++ (Emit <$> code)
    ∧ exec code h = Some h'
    ∧ reg64 h' (abi_regs !!! abi_int_count s) = value
    ∧ (∀ n, (n < abi_int_count s)%nat ->
         reg64 h' (abi_regs !!! n) = reg64 h (abi_regs !!! n))
    ∧ (∀ j, j ≠ RAX -> j ≠ abi_regs !!! abi_int_count s -> reg64 h' j = reg64 h j)
    ∧ (∀ g, 0 <= g < 16 -> view vu s' g h' = view vu s g h)
    ∧ guest_PC vu h' = guest_PC vu h.
Proof.
  intros Hinv Hnn Hlay Hc.
  destruct (abi_regs_lookup (abi_int_count s) Hc) as (HRAX & H16 & Hinj).
  set (arg := abi_regs !!! abi_int_count s) in *.
  destruct (lookup_lt_is_Some_2 (int_regs s) arg) as [r Hr].
  { destruct Hinv as [(-> & _) _ _ _ _]. exact H16. }
  pose proof (list_lookup_total_correct _ _ _ Hr) as Hrt.
  destruct (prepare_abi vu value s) as [s'|] eqn:Hp.
  2:{ unfold prepare_abi in Hp. by rewrite (proj2 (Nat.leb_gt _ _) Hc) in Hp. }
  pose proof (prepare_abi_inv vu value s s' Hinv Hp) as Hinv'.
  unfold prepare_abi in Hp. rewrite (proj2 (Nat.leb_gt _ _) Hc) in Hp.
  fold arg in Hp. rewrite Hrt in Hp. injection Hp as <-.
  eexists _, (spill_int vu (int_regs s) arg ++ [load_addr value arg]),
    (with_reg64 arg value (spilled_int vu r arg h)).
  assert (Hreg : ∀ j, j ≠ RAX -> j ≠ arg ->
            reg64 (with_reg64 arg value (spilled_int vu r arg h)) j = reg64 h j).
  { intros j Hj Hja. cbn [reg64 with_reg64]. rewrite set_reg_ne by done.
    by apply spilled_int_reg. }
  split; [reflexivity|]. split_and!.
  - unfold spill_int. rewrite Hrt. destruct (used r); simpl;
      by rewrite ?fmap_app, <- ?app_assoc.
  - rewrite exec_app. pose proof (exec_spill_fill vu (int_regs s) arg 0 false h) as He.
    unfold fill_int, filled_int in He. rewrite app_nil_r, Hrt in He.
    by rewrite He, bind_Some.
  - cbn [reg64 with_reg64]. apply set_reg_eq.
  - intros n Hn. destruct (abi_regs_lookup n ltac:(lia)) as (HnR & _ & _).
    apply Hreg; [done|]. intros Heq. apply Hinj in Heq; lia.
  - exact Hreg.
  - intros g Hg. destruct (used r) eqn:Hu.
    + (* the slot is given up: its guest register goes to the guest state *)
      set (s1 := with_abi_int_count _ _) in *.
      assert (Hregs : int_regs s1 = alter retire_slot arg (int_regs s)) by done.
      assert (Hold : 0 <= vu_reg r < 16).
      { destruct Hinv as [(_ & Hused & _) _ _ _ _].
        destruct (Hused _ _ Hr Hu) as (_ & _ & ?).
        pose proof (Hnn IntPool arg r Hr Hu). lia. }
      assert (Hkeep : ∀ g' j q, g' ≠ vu_reg r -> int_regs s !! j = Some q ->
                holds g' q -> j ≠ arg ∧ int_regs s1 !! j = Some q).
      { intros g' j q Hg' Hj Hq.
        assert (j ≠ arg).
        { intros ->. destruct Hq as [_ Hv]. congruence. }
        split; [done|]. by rewrite Hregs, list_lookup_alter_ne. }
      assert (Hmiss : ∀ g', misses g' (int_regs s) ∨ g' = vu_reg r ->
                misses g' (int_regs s1)).
      { intros g' Hcase j q Hj Hq. rewrite Hregs, list_lookup_alter in Hj.
        case_decide as Hja.
        - subst j. rewrite Hr in Hj. simplify_eq/=. by destruct Hq.
        - destruct Hcase as [Hm| ->]; [by apply (Hm j q)|].
          apply Hja. symmetry.
          by apply (holds_unique 16 _ (vu_reg r) arg r j q (inv_int s Hinv)). }
      destruct (decide (g = vu_reg r)) as [->|Hne].
      * rewrite (view_missed vu s1) by (apply Hmiss; by right).
        rewrite (view_at vu s (vu_reg r) h arg r) by done.
        unfold guest_int64. cbn [mem with_reg64]. by apply spilled_int_stored.
      * destruct (hit_or_miss g (int_regs s)) as [(j & q & Hj & Hq & _)|Hm].
        -- destruct (Hkeep g j q Hne Hj Hq) as [Hja Hj1].
           rewrite (view_held vu s1 g _ j q Hinv' Hj1 Hq).
           rewrite (view_held vu s g _ j q Hinv Hj Hq).
           rewrite Hreg; [done| |done]. apply (inv_RAX_free s j q); [done..|apply Hq].
        -- rewrite (view_missed vu s1) by (apply Hmiss; by left).
           rewrite (view_missed vu s g h Hm).
           unfold guest_int64. cbn [mem with_reg64]. apply spilled_int_load.
           intros _. apply (lay_int_int vu Hlay); [done|lia|done].
    + set (s1 := with_abi_int_count _ _) in *.
      rewrite (view_regs vu s s1) by done.
      apply (view_ext vu s g h _ arg Hinv Hreg).
      * intros r' Hr' [Hu' _]. congruence.
      * unfold guest_int64, spilled_int. by rewrite Hu.
  - unfold guest_PC. cbn [mem with_reg64]. apply spilled_int_load.
    intros Hu. apply (lay_int_PC vu Hlay).
    destruct Hinv as [(_ & Hused & _) _ _ _ _].
    destruct (Hused _ _ Hr Hu) as (_ & _ & ?).
    pose proof (Hnn IntPool arg r Hr Hu). lia.
Qed.

(** X18: the code of [prepare_abi].  Called in a reachable state whose
    slots in use are for guest registers of non-negative number, with a
    guest state whose registers do not overlap and with fewer than six
    arguments placed, it returns; its code, run on any host, leaves the
    value in the host register of the next argument, leaves the registers
    of the arguments placed before and every other host register but RAX
    as they were, and leaves every guest integer register from 0 to 15 as
    the compiled code saw it: the one whose slot is given up is stored to
    the guest state first. *)
Theorem prepare_abi_effect vu value s h :
  reachable s -> ids_nonneg s -> layout_ok vu ->
  (abi_int_count s < 6)%nat ->
  ∃ s' code h',
    prepare_abi vu value s = Ok s'
    ∧ trace s' = trace s ++ (Emit <$> code)
    ∧ exec code h = Some h'
    ∧ reg64 h' (abi_regs !!! abi_int_count s) = value
    ∧ (∀ n, (n < abi_int_count s)%nat ->
         reg64 h' (abi_regs !!! n) = reg64 h (abi_regs !!! n))
    ∧ (∀ j, j ≠ RAX -> j ≠ abi_regs !!! abi_int_count s -> reg64 h' j = reg64 h j)
    ∧ (∀ g, 0 <= g < 16 -> view vu s' g h' = view vu s g h)
    ∧ guest_PC vu h' = guest_PC vu h.
Proof. intros Hinv%reachable_inv. by apply exec_prepare_abi. Qed.

Lemma prepare_abi_effect_witness :
  reachable jit_full ∧ ids_nonneg jit_full ∧ layout_ok vu0
  ∧ (abi_int_count jit_full < 6)%nat
  ∧ ∃ s' code h',
      prepare_abi vu0 4660 jit_full = Ok s'
      ∧ exec code host_count = Some h'
      ∧ reg64 h' RDI = 4660
      ∧ view vu0 s' 8 h' = view vu0 jit_full 8 host_count.
Proof.
  assert (Hc : (abi_int_count jit_full < 6)%nat) by (vm_compute; lia).
  split; [apply jit_full_reachable|]. split; [apply ids_nonneg_jit_full|].
  split; [apply layout_ok_vu0|]. split; [exact Hc|].
  destruct (prepare_abi_effect vu0 4660 jit_full host_count
              jit_full_reachable ids_nonneg_jit_full layout_ok_vu0 Hc)
    as (s' & code & h' & Hp & _ & Hex & Hval & _ & _ & Hview & _).
  exists s', code, h'. split; [exact Hp|]. split; [exact Hex|].
  split; [exact Hval|]. apply Hview. lia.
Defined.

Lemma ids_nonneg_prepare_abi vu value s s' :
  ids_nonneg s -> prepare_abi vu value s = Ok s' -> ids_nonneg s'.
Proof.
  intros Hnn H. unfold prepare_abi in H.
  destruct (6 <=? abi_int_count s)%nat; [done|]. injection H as <-.
  destruct (used _); [|exact Hnn].
  intros p j r Hr Hu. destruct p; [|by apply (Hnn VecPool j r)].
  simpl in Hr. rewrite list_lookup_alter in Hr. case_decide.
  - apply fmap_Some in Hr as (q & _ & ->). discriminate Hu.
  - by apply (Hnn IntPool j r).
Qed.

(** A run of [prepare_abi] calls from a state with [abi_int_count s]
    arguments placed. *)
Lemma exec_prepares vu values : ∀ s h,
  alloc_inv s -> ids_nonneg s -> layout_ok vu ->
  (abi_int_count s + length values <= 6)%nat ->
  ∃ s' code h',
    run_abi vu (Prepare <$> values) s = Ok s'
    ∧ trace s' = trace s ++ (Emit <$> code)
    ∧ exec code h = Some h'
    ∧ (∀ n v, values !! n = Some v ->
         reg64 h' (abi_regs !!! (abi_int_count s + n)%nat) = v)
    ∧ (∀ n, (n < abi_int_count s)%nat ->
         reg64 h' (abi_regs !!! n) = reg64 h (abi_regs !!! n))
    ∧ (∀ g, 0 <= g < 16 -> view vu s' g h' = view vu s g h)
    ∧ guest_PC vu h' = guest_PC vu h
    ∧ abi_int_count s' = (abi_int_count s + length values)%nat.
Proof.
  induction values as [|v values IH]; intros s h Hinv Hnn Hlay Hle.
  { exists s, [], h. simpl. rewrite app_nil_r. split_and!; try done; lia. }
  simpl length in Hle. rewrite fmap_cons. cbn [run_abi].
  destruct (exec_prepare_abi vu v s h Hinv Hnn Hlay ltac:(lia))
    as (s1 & c1 & h1 & Hp & Htr1 & Hex1 & Hval1 & Hold1 & _ & Hview1 & HPC1).
  assert (Hc1 : abi_int_count s1 = S (abi_int_count s)).
  { destruct (prepare_abi_ok vu v s ltac:(lia)) as (s1' & Hp' & Hc).
    rewrite Hp in Hp'. by injection Hp' as ->. }
  pose proof (prepare_abi_inv vu v s s1 Hinv Hp) as Hinv1.
  pose proof (ids_nonneg_prepare_abi vu v s s1 Hnn Hp) as Hnn1.
  destruct (IH s1 h1 Hinv1 Hnn1 Hlay ltac:(lia))
    as (s' & c2 & h' & Hrun & Htr2 & Hex2 & Hval2 & Hold2 & Hview2 & HPC2 & Hc2).
  exists s', (c1 ++ c2), h'. rewrite Hp, bind_Ok. split_and!.
  - done.
  - by rewrite Htr2, Htr1, fmap_app, app_assoc.
  - by rewrite exec_app, Hex1, bind_Some.
  - intros [|n] w Hw; simpl in Hw.
    + injection Hw as <-. rewrite Nat.add_0_r, Hold2 by lia. exact Hval1.
    + rewrite <- (Hval2 n w Hw), Hc1. f_equal. f_equal. lia.
  - intros n Hn. rewrite Hold2 by lia. by apply Hold1.
  - intros g Hg. rewrite Hview2 by done. by apply Hview1.
  - congruence.
  - simpl length. lia.
Qed.

(** X19: the arguments arrive in order.  From a reachable state whose
    slots in use are for guest registers of non-negative number, with a
    guest state whose registers do not overlap and with no argument placed,
    a run of up to six [prepare_abi] calls returns, and its code, run on
    any host, leaves the n-th value in the n-th of the registers RDI, RSI,
    RDX, RCX, R8, R9; every guest integer register from 0 to 15 is as the
    compiled code saw it before, and the program counter is untouched. *)
Theorem abi_arguments_in_order vu values s h :
  reachable s -> ids_nonneg s -> layout_ok vu ->
  abi_int_count s = 0%nat -> (length values <= 6)%nat ->
  ∃ s' code h',
    run_abi vu (Prepare <$> values) s = Ok s'
    ∧ trace s' = trace s ++ (Emit <$> code)
    ∧ exec code h = Some h'
    ∧ (∀ n v, values !! n = Some v -> reg64 h' (abi_regs !!! n) = v)
    ∧ (∀ g, 0 <= g < 16 -> view vu s' g h' = view vu s g h)
    ∧ guest_PC vu h' = guest_PC vu h
    ∧ abi_int_count s' = length values.
Proof.
  intros Hinv%reachable_inv Hnn Hlay Hc Hle.
  destruct (exec_prepares vu values s h Hinv Hnn Hlay ltac:(lia))
    as (s' & code & h' & Hrun & Htr & Hex & Hval & _ & Hview & HPC & Hc').
  rewrite Hc in Hval, Hc'. exists s', code, h'. split_and!; done.
Qed.

Lemma abi_arguments_in_order_witness :
  reachable jit_full ∧ ids_nonneg jit_full ∧ layout_ok vu0
  ∧ abi_int_count jit_full = 0%nat
  ∧ ∃ s' code h',
      run_abi vu0 (Prepare <$> [11; 22; 33; 44]) jit_full = Ok s'
      ∧ exec code host_count = Some h'
      ∧ reg64 h' RDI = 11 ∧ reg64 h' RCX = 44
      ∧ view vu0 s' 2 h' = view vu0 jit_full 2 host_count.
Proof.
  split; [apply jit_full_reachable|]. split; [apply ids_nonneg_jit_full|].
  split; [apply layout_ok_vu0|]. split; [by vm_compute|].
  destruct (abi_arguments_in_order vu0 [11; 22; 33; 44] jit_full host_count
              jit_full_reachable ids_nonneg_jit_full layout_ok_vu0
              ltac:(by vm_compute) ltac:(simpl; lia))
    as (s' & code & h' & Hrun & _ & Hex & Hval & Hview & _).
  exists s', code, h'. split; [exact Hrun|]. split; [exact Hex|].
  split; [exact (Hval 0%nat 11 eq_refl)|]. split; [exact (Hval 3%nat 44 eq_refl)|].
  apply Hview. lia.
Defined.

(** ** Running a compiled block *)

Section Frame.

Context (vu : VectorUnit).
Implicit Types (s : VU_JIT64) (h : host).

Lemma framed_nil : framed vu [].
Proof. intros h. by exists h. Qed.

Lemma framed_app c1 c2 : framed vu c1 -> framed vu c2 -> framed vu (c1 ++ c2).
Proof.
  intros H1 H2 h. destruct (H1 h) as (h1 & He1 & Hr1 & Hm1).
  destruct (H2 h1) as (h2 & He2 & Hr2 & Hm2). exists h2.
  rewrite exec_app, He1, bind_Some. split_and!; [done|congruence|].
  intros a Ha. by rewrite Hm2, Hm1.
Qed.

Lemma framed_reg i k : writes_reg i k -> k ≠ RSP -> framed vu [i].
Proof.
  intros Hw Hk h. destruct i; simpl in Hw; try done; subst;
    (eexists; split; [reflexivity|]; split; [|done]);
    cbn [reg64 with_reg64]; by rewrite set_reg_ne.
Qed.

Lemma framed_store addr i n :
  stores i n -> (∀ a, in_window addr n a -> guest_window vu a) ->
  framed vu [load_addr addr RAX; i].
Proof.
  intros Hst Hwin h. destruct i; simpl in Hst; try done; destruct Hst as [-> ->];
    (eexists; split; [reflexivity|]; split; [done|]);
    intros a Ha; cbn [mem with_mem reg64 with_reg64]; rewrite set_reg_eq;
    apply store_bytes_out; intros Hin; apply Ha, Hwin, Hin.
Qed.

Lemma int_window g a : 0 <= g < 16 -> in_window (int_gpr vu g) 8 a -> guest_window vu a.
Proof. intros Hg Ha. left. eauto. Qed.

Lemma PC_window a : in_window (PC vu) 4 a -> guest_window vu a.
Proof. intros Ha. by right; right. Qed.

Lemma emits_refl s : emits vu s s.
Proof. exists []. split; [by rewrite app_nil_r|apply framed_nil]. Qed.

Lemma emits_trans s1 s2 s3 : emits vu s1 s2 -> emits vu s2 s3 -> emits vu s1 s3.
Proof.
  intros (c1 & H1 & F1) (c2 & H2 & F2). exists (c1 ++ c2).
  split; [by rewrite H2, H1, fmap_app, app_assoc|by apply framed_app].
Qed.

Lemma emits_emit code s : framed vu code -> emits vu s (emit code s).
Proof. intros F. by exists code. Qed.

(** The slot that an acquire returns is not a reserved one, and the code
    of the acquire is framed. *)
Lemma alloc_int_emits id load_state s k s' :
  alloc_inv s -> ids_nonneg s ->
  alloc_int_reg vu id load_state s = Ok (k, s') ->
  emits vu s s' ∧ k ≠ RAX ∧ k ≠ RSP.
Proof.
  intros Hinv Hnn Ha.
  pose proof (alloc_int_reg_inv vu _ _ _ _ _ Hinv Ha) as Hinv'.
  destruct (alloc_int_reg_spec vu _ _ _ _ _ Hinv Ha)
    as (Hlt & (r' & Hr' & Hh' & Hl') & _ & Hcase).
  assert (Hres : ¬ reserved k).
  { intros Hres. apply (inv_int_locks s' Hinv' k r' Hr') in Hres. congruence. }
  assert (Hk : k ≠ RAX ∧ k ≠ RSP) by (unfold reserved in Hres; tauto).
  split; [|exact Hk]. destruct Hk as [HkA HkS].
  destruct Hcase as [(r & Hr & Hh & ->)|(Hm & Ht & Hregs & Htr)]; [apply emits_refl|].
  eexists. split; [exact Htr|]. destruct Ht as (r & Hr & _).
  assert (Hrk : (grow_older <$> int_regs s) !!! k = grow_older r).
  { apply list_lookup_total_correct. by rewrite list_lookup_fmap, Hr. }
  apply framed_app.
  - unfold spill_int. rewrite Hrk. destruct (grow_older_same r) as [Hu Hv].
    rewrite Hu, Hv. destruct (used r) eqn:Hur; [|apply framed_nil].
    apply (framed_store _ _ 8); [done|]. intros a. apply int_window.
    destruct Hinv as [(_ & Hused & _) _ _ _ _].
    destruct (Hused _ _ Hr Hur) as (_ & _ & ?). pose proof (Hnn IntPool k r Hr Hur). lia.
  - unfold fill_int. destruct load_state; [|apply framed_nil].
    apply (framed_app [_] [_]); [apply (framed_reg _ RAX); done|].
    by apply (framed_reg _ k).
Qed.

Lemma acquire_emits id load_state s k s' :
  (alloc_inv s ∧ ids_nonneg s) -> 0 <= id ->
  alloc_int_reg vu id load_state s = Ok (k, s') ->
  emits vu s s' ∧ (alloc_inv s' ∧ ids_nonneg s') ∧ k ≠ RSP.
Proof.
  intros [Hinv Hnn] Hid Ha.
  destruct (alloc_int_emits _ _ _ _ _ Hinv Hnn Ha) as (He & _ & Hk).
  split_and!; [done| | |done].
  - by eapply alloc_int_reg_inv.
  - by eapply ids_nonneg_alloc_int.
Qed.

Lemma emit_emits code s :
  (alloc_inv s ∧ ids_nonneg s) -> framed vu code ->
  emits vu s (emit code s) ∧ (alloc_inv (emit code s) ∧ ids_nonneg (emit code s)).
Proof.
  intros [Hinv Hnn] F. split; [by apply emits_emit|]. split; [by apply log_inv|].
  by apply ids_nonneg_log.
Qed.

Lemma jump_code_framed v : framed vu [load_addr (PC vu) RAX; MOV32_MI_MEM v RAX].
Proof. apply (framed_store _ _ 4); [done|]. intros a. apply PC_window. Qed.

Lemma dispatch_emits instr s s' :
  (alloc_inv s ∧ ids_nonneg s) -> operands_nonneg instr = true ->
  dispatch vu instr s = Ok s' ->
  emits vu s s' ∧ (alloc_inv s' ∧ ids_nonneg s').
Proof.
  intros Hs Hop H. unfold dispatch in H. unfold operands_nonneg in Hop.
  destruct (op instr); try discriminate H.
  - (* LoadConst *)
    apply Z.leb_le in Hop. unfold load_const in H.
    destruct (alloc_int_reg vu _ false s) as [[k s1]|] eqn:E1; [|discriminate H].
    rewrite bind_Ok in H. injection H as <-.
    destruct (acquire_emits _ _ _ _ _ Hs Hop E1) as (He1 & Hs1 & Hk1).
    destruct (emit_emits [MOV16_REG_IMM (get_source instr) k] s1 Hs1) as [He Hs2].
    { by apply (framed_reg _ k). }
    split; [|done]. by eapply emits_trans.
  - (* MoveIntReg *)
    apply andb_true_iff in Hop as [Hd%Z.leb_le Hsr%Z.leb_le]. unfold move_int_reg in H.
    destruct (alloc_int_reg vu _ false s) as [[kd s1]|] eqn:E1; [|discriminate H].
    rewrite bind_Ok in H. cbv beta iota in H.
    destruct (alloc_int_reg vu _ _ s1) as [[ks s2]|] eqn:E2; [|discriminate H].
    rewrite bind_Ok in H. injection H as <-.
    destruct (acquire_emits _ _ _ _ _ Hs Hd E1) as (He1 & Hs1 & Hk1).
    destruct (acquire_emits _ _ _ _ _ Hs1 Hsr E2) as (He2 & Hs2 & Hk2).
    destruct (emit_emits [MOV16_REG ks kd] s2 Hs2) as [He Hs3].
    { by apply (framed_reg _ kd). }
    split; [|done]. eauto using emits_trans.
  - (* Jump *)
    unfold jump in H. injection H as <-. apply emit_emits; [done|].
    apply jump_code_framed.
  - (* JumpAndLink *)
    apply Z.leb_le in Hop. unfold jump_and_link in H.
    destruct (emit_emits [load_addr (PC vu) RAX; MOV32_MI_MEM (get_jump_dest instr) RAX]
                s Hs (jump_code_framed _)) as [He0 Hs0].
    destruct (alloc_int_reg vu _ _ _) as [[k s1]|] eqn:E1; [|discriminate H].
    rewrite bind_Ok in H. injection H as <-.
    destruct (acquire_emits _ _ _ _ _ Hs0 Hop E1) as (He1 & Hs1 & Hk1).
    destruct (emit_emits [MOV64_OI (get_return_addr instr) k] s1 Hs1) as [He Hs2].
    { by apply (framed_reg _ k). }
    split; [|done]. eauto using emits_trans.
  - (* VMulVectorByScalar *)
    injection H as <-. split; [apply emits_refl|done].
  - (* JumpIndirect *)
    apply Z.leb_le in Hop. unfold jump_indirect in H.
    destruct (alloc_int_reg vu _ _ s) as [[k s1]|] eqn:E1; [|discriminate H].
    rewrite bind_Ok in H. injection H as <-.
    destruct (acquire_emits _ _ _ _ _ Hs Hop E1) as (He1 & Hs1 & Hk1).
    destruct (emit_emits [SHL32_REG_IMM 3 k; load_addr (PC vu) RAX; MOV32_TO_MEM k RAX]
                s1 Hs1) as [He Hs2].
    { apply (framed_app [_] [_; _]); [by apply (framed_reg _ k)|].
      apply (framed_store _ _ 4); [done|]. intros a. apply PC_window. }
    split; [|done]. by eapply emits_trans.
  - (* AddUnsignedImm *)
    apply andb_true_iff in Hop as [Hd%Z.leb_le Hsr%Z.leb_le]. unfold add_unsigned_imm in H.
    destruct (alloc_int_reg vu _ false s) as [[kd s1]|] eqn:E1; [|discriminate H].
    rewrite bind_Ok in H. cbv beta iota in H.
    destruct (alloc_int_reg vu _ _ s1) as [[ks s2]|] eqn:E2; [|discriminate H].
    rewrite bind_Ok in H. cbv zeta in H. injection H as <-.
    destruct (acquire_emits _ _ _ _ _ Hs Hd E1) as (He1 & Hs1 & Hk1).
    destruct (acquire_emits _ _ _ _ _ Hs1 Hsr E2) as (He2 & Hs2 & Hk2).
    destruct (emit_emits [MOV16_REG ks kd; ADD16_REG_IMM (get_source2 instr mod 2 ^ 16) kd]
                s2 Hs2) as [He Hs3].
    { apply (framed_app [_] [_]); by apply (framed_reg _ kd). }
    split; [|done]. eauto using emits_trans.
Qed.

Lemma drain_emits instrs : ∀ s s',
  (alloc_inv s ∧ ids_nonneg s) -> forallb operands_nonneg instrs = true ->
  drain vu instrs s = Ok s' ->
  emits vu s s' ∧ (alloc_inv s' ∧ ids_nonneg s').
Proof.
  induction instrs as [|instr rest IH]; intros s s' Hs Hop H; simpl in H.
  - injection H as <-. split; [apply emits_refl|done].
  - simpl in Hop. apply andb_true_iff in Hop as [Hop1 Hop2].
    destruct (dispatch vu instr s) as [s1|] eqn:E; [|discriminate H].
    rewrite bind_Ok in H.
    destruct (dispatch_emits _ _ _ Hs Hop1 E) as [He1 Hs1].
    destruct (IH _ _ Hs1 Hop2 H) as [He2 Hs2].
    split; [|done]. by eapply emits_trans.
Qed.

Lemma flush_emits s :
  alloc_inv s -> ids_nonneg s -> layout_ok vu -> emits vu s (flush_regs vu s).
Proof.
  intros Hinv Hnn Hlay. eexists. split; [reflexivity|]. intros h.
  destruct (exec_flush_code vu (xmm_regs s) (int_regs s) 0 h)
    as (h' & Hexec & Hreg & _ & Hframe & _).
  { by apply inv_flush_safe. }
  { intros j r Hr [Hu _]%flushable_spec. simpl. by apply (inv_RAX_free s j r). }
  exists h'. split_and!; [done|by apply Hreg|].
  intros a Ha. apply Hframe.
  - intros j x Hx [Hu _]%flushable_spec Hin. apply Ha. right; left.
    exists (vu_reg x). split; [|done].
    destruct Hinv as [_ (_ & Hused & _) _ _ _].
    destruct (Hused _ _ Hx Hu) as (_ & _ & ?). pose proof (Hnn VecPool j x Hx Hu). lia.
  - intros j r Hr [Hu _]%flushable_spec Hin. apply Ha. left.
    exists (vu_reg r). split; [|done].
    destruct Hinv as [(_ & Hused & _) _ _ _ _].
    destruct (Hused _ _ Hr Hu) as (_ & _ & ?). pose proof (Hnn IntPool j r Hr Hu). lia.
Qed.

Lemma stack_arith R :
  (((R - 8) mod 2 ^ 64 + 8) mod 2 ^ 64 + 8) mod 2 ^ 64 = (R + 8) mod 2 ^ 64.
Proof.
  rewrite (Z.add_mod_idemp_l (R - 8)) by lia. rewrite Z.add_mod_idemp_l by lia.
  f_equal. lia.
Qed.


End Frame.


(** ** Eviction *)

Lemma in_use_nil : in_use [] = 0%nat.
Proof. reflexivity. Qed.

Lemma in_use_cons r rs :
  in_use (r :: rs) = ((if used r then 1 else 0) + in_use rs)%nat.
Proof.
  unfold in_use. destruct (used r) eqn:E.
  - by rewrite filter_cons_True.
  - rewrite filter_cons_False by congruence. done.
Qed.

Lemma in_use_app rs1 rs2 : in_use (rs1 ++ rs2) = (in_use rs1 + in_use rs2)%nat.
Proof. unfold in_use. by rewrite filter_app, length_app. Qed.

Lemma in_use_le rs : (in_use rs <= length rs)%nat.
Proof. apply length_filter. Qed.

Lemma in_use_fmap f rs :
  (∀ r, used (f r) = used r) -> in_use (f <$> rs) = in_use rs.
Proof.
  intros Hf. induction rs as [|r rs IH]; [done|].
  rewrite fmap_cons, !in_use_cons, Hf, IH. done.
Qed.

Lemma in_use_all rs :
  (∀ i r, rs !! i = Some r -> used r = true) -> in_use rs = length rs.
Proof.
  induction rs as [|r rs IH]; intros H; [done|].
  rewrite in_use_cons, (H 0%nat r eq_refl), IH; [done|].
  intros i q Hq. by apply (H (S i)).
Qed.

Lemma in_use_alter f rs : ∀ k r,
  rs !! k = Some r ->
  (in_use (alter f k rs) + (if used r then 1 else 0)
   = in_use rs + (if used (f r) then 1 else 0))%nat.
Proof.
  induction rs as [|q rs IH]; intros k r Hk; [done|].
  destruct k as [|k]; simpl in Hk.
  - injection Hk as ->. change (alter f 0%nat (r :: rs)) with (f r :: rs).
    rewrite !in_use_cons. destruct (used r), (used (f r)); lia.
  - change (alter f (S k) (q :: rs)) with (q :: alter f k rs).
    rewrite !in_use_cons. specialize (IH k r Hk).
    destruct (used q), (used r), (used (f r)); lia.
Qed.

(** A pool all of whose unlocked slots are in use is full. *)
Lemma in_use_full s p :
  alloc_inv s ->
  (∀ j rj, slots p s !! j = Some rj -> locked rj = false -> used rj = true) ->
  in_use (slots p s) = capacity p.
Proof.
  intros Hinv Hall. destruct p; simpl in *.
  - apply Nat.le_antisymm; [by apply inv_int_capacity|].
    destruct Hinv as [(Hlen & _) _ Hlocks _ _].
    assert (Hused : ∀ i r, int_regs s !! i = Some r -> i ≠ RAX -> i ≠ RSP ->
              used r = true).
    { intros i r Hr H0 H4. apply (Hall i r Hr).
      destruct (locked r) eqn:E; [|done].
      apply (Hlocks i r Hr) in E as [E|E]; done. }
    rewrite <- (take_drop 5 (int_regs s)), in_use_app.
    rewrite <- (take_drop 1 (take 5 (int_regs s))), in_use_app.
    rewrite <- (take_drop 3 (drop 1 (take 5 (int_regs s)))), in_use_app.
    rewrite (in_use_all (take 3 _)), (in_use_all (drop 5 _)).
    + rewrite length_take, !length_drop, length_take. lia.
    + intros i r Hr. rewrite lookup_drop in Hr.
      apply (Hused _ _ Hr); unfold RAX, RSP; lia.
    + intros i r Hr. apply lookup_take_Some in Hr as [Hr Hi].
      rewrite lookup_drop in Hr. apply lookup_take_Some in Hr as [Hr _].
      apply (Hused _ _ Hr); unfold RAX, RSP; lia.
  - destruct Hinv as [_ (Hlen & _) _ Hlocks _].
    rewrite in_use_all, Hlen; [done|].
    intros i r Hr. apply (Hall i r Hr), (Hlocks i r Hr).
Qed.

Lemma inv_capacity s p : alloc_inv s -> (in_use (slots p s) <= capacity p)%nat.
Proof.
  intros Hinv. destruct p; simpl; [by apply inv_int_capacity|].
  destruct Hinv as [_ (Hlen & _) _ _ _]. rewrite <- Hlen. apply in_use_le.
Qed.

Lemma acquire_inv vu p id load_state s k s' :
  alloc_inv s -> acquire vu p id load_state s = Ok (k, s') -> alloc_inv s'.
Proof.
  intros Hinv H. destruct p; simpl in H;
    eauto using alloc_int_reg_inv, alloc_sse_reg_inv.
Qed.

Lemma miss_trace vu p id load_state s k s' r :
  alloc_inv s -> misses id (slots p s) ->
  acquire vu p id load_state s = Ok (k, s') ->
  slots p s !! k = Some r ->
  trace s' = trace s
    ++ (Emit <$> ((if used r then store_code vu p r k else [])
                  ++ fill_code vu p id load_state k)).
Proof.
  intros Hinv Hm Ha Hr.
  assert (Hrk : (grow_older <$> slots p s) !!! k = grow_older r).
  { apply list_lookup_total_correct. by rewrite list_lookup_fmap, Hr. }
  destruct (grow_older_same r) as [Hu Hv].
  destruct p; simpl in *.
  - destruct (alloc_int_reg_spec vu _ _ _ _ _ Hinv Ha)
      as (_ & _ & _ & [(q & Hq & Hh & _)|(_ & _ & _ & Htr)]); [by destruct (Hm _ _ Hq)|].
    rewrite Htr. unfold spill_int. rewrite Hrk, Hu, Hv. done.
  - destruct (alloc_sse_reg_spec vu _ _ _ _ _ Hinv Ha)
      as (_ & _ & _ & [(q & Hq & Hh & _)|(_ & _ & _ & Htr)]); [by destruct (Hm _ _ Hq)|].
    rewrite Htr. unfold spill_sse. rewrite Hrk, Hu, Hv. done.
Qed.

(** X21: no needless eviction.  When an acquire misses in a reachable state,
    the slot it returns was in use exactly if every slot of the pool that
    can be in use was (fourteen of the integer pool, sixteen of the vector
    pool).  Only then does it emit a store, of that slot to the guest
    register it held, and the number of slots in use stays; otherwise it
    emits at most the load and one more slot is in use. *)
Theorem eviction_only_when_full vu p id load_state s k s' :
  reachable s ->
  misses id (slots p s) ->
  acquire vu p id load_state s = Ok (k, s') ->
  ∃ r, slots p s !! k = Some r
    ∧ (used r = true <-> in_use (slots p s) = capacity p)
    ∧ (in_use (slots p s) <= capacity p)%nat
    ∧ trace s' = trace s
        ++ (Emit <$> ((if used r then store_code vu p r k else [])
                      ++ fill_code vu p id load_state k))
    ∧ in_use (slots p s') = if used r then in_use (slots p s) else S (in_use (slots p s)).
Proof.
  intros Hinv%reachable_inv Hm Ha.
  pose proof (acquire_inv _ _ _ _ _ _ _ Hinv Ha) as Hinv'.
  destruct (acquire_spec vu p id load_state s k s' Hinv Ha)
    as (_ & _ & _ & [(q & Hq & Hh & _)|(_ & Ht & Hregs)]); [by destruct (Hm _ _ Hq)|].
  destruct Ht as (r & Hr & Hl & Hcase). exists r.
  assert (Hcount : in_use (slots p s')
            = if used r then in_use (slots p s) else S (in_use (slots p s))).
  { pose proof (in_use_alter (bind_slot id) (grow_older <$> slots p s) k (grow_older r)) as Hal.
    rewrite list_lookup_fmap, Hr in Hal. specialize (Hal eq_refl).
    rewrite <- Hregs, (in_use_fmap grow_older) in Hal by (intros; apply grow_older_same).
    destruct (grow_older_same r) as [Hu _]. rewrite Hu in Hal. simpl in Hal.
    destruct (used r); lia. }
  split_and!; [done| |by apply inv_capacity|by apply miss_trace|done].
  pose proof (inv_capacity s' p Hinv') as Hcap. rewrite Hcount in Hcap.
  destruct Hcase as [[Hu _]|(Hu & Hall & _)].
  - rewrite Hu in *. split; [done|lia].
  - split; [intros _|done]. apply in_use_full; [done|].
    intros j rj Hj Hlj. by destruct (Hall j rj Hj Hlj).
Qed.

Lemma eviction_only_when_full_witness :
  reachable jit_full ∧ misses 1 (slots IntPool jit_full)
  ∧ ∃ k s' r, acquire vu0 IntPool 1 true jit_full = Ok (k, s')
      ∧ slots IntPool jit_full !! k = Some r
      ∧ (used r = true <-> in_use (slots IntPool jit_full) = 14%nat)
      ∧ in_use (slots IntPool jit_full) = 14%nat.
Proof.
  assert (Hm : misses 1 (slots IntPool jit_full)) by (apply misses_find; by vm_compute).
  split; [apply jit_full_reachable|]. split; [exact Hm|].
  destruct (acquire vu0 IntPool 1 true jit_full) as [[k s']|] eqn:E;
    [|vm_compute in E; discriminate E].
  destruct (eviction_only_when_full vu0 IntPool 1 true jit_full k s'
              jit_full_reachable Hm E) as (r & Hr & Hiff & _).
  exists k, s', r. split; [reflexivity|]. split; [exact Hr|]. split; [exact Hiff|].
  by vm_compute.
Defined.

(** ** Running the code of an acquire on the vector pool *)

Section AcquireVec.

Context (vu : VectorUnit).
Implicit Types (s : VU_JIT64) (h : host).

Lemma exec_cons i code h h1 :
  exec_instr i h = Some h1 -> exec (i :: code) h = exec code h1.
Proof. intros H. simpl. by rewrite H. Qed.

Lemma exec_store_sse addr k h :
  addr mod 16 = 0 ->
  exec [load_addr addr RAX; MOVAPS_TO_MEM k RAX] h
  = Some (with_mem (store_bytes 16 addr (xmm128 h k) (mem h)) (with_reg64 RAX addr h)).
Proof.
  intros Ha. rewrite (exec_cons _ _ _ (with_reg64 RAX addr h)) by reflexivity.
  cbn [exec exec_instr reg64 with_reg64 xmm128]. by rewrite set_reg_eq, Ha.
Qed.

Lemma exec_load_sse addr k h :
  addr mod 16 = 0 ->
  exec [load_addr addr RAX; MOVAPS_FROM_MEM RAX k] h
  = Some (with_xmm128 k (load_bytes 16 addr (mem h)) (with_reg64 RAX addr h)).
Proof.
  intros Ha. rewrite (exec_cons _ _ _ (with_reg64 RAX addr h)) by reflexivity.
  cbn [exec exec_instr reg64 with_reg64 mem]. by rewrite set_reg_eq, Ha.
Qed.

Lemma exec_spill_fill_sse r k id load_state h :
  (used r = true -> gpr vu (vu_reg r) mod 16 = 0) ->
  (load_state = true -> gpr vu id mod 16 = 0) ->
  exec ((if used r then store_code vu VecPool r k else [])
        ++ fill_sse vu id load_state k) h
  = Some (filled_sse vu id load_state k (spilled_sse vu r k h)).
Proof.
  intros Hr Hid. unfold fill_sse, spilled_sse, filled_sse, store_code.
  rewrite exec_app.
  destruct (used r); [rewrite exec_store_sse by auto|]; cbn [exec]; rewrite bind_Some;
    (destruct load_state; [by rewrite exec_load_sse by auto|done]).
Qed.

Lemma view_vec_held s g h j x :
  alloc_inv s -> xmm_regs s !! j = Some x -> holds g x ->
  view_vec vu s g h = xmm128 h j mod 2 ^ 128.
Proof.
  intros Hinv Hj Hh. unfold view_vec.
  destruct (list_find _ _) as [[i xi]|] eqn:E.
  - apply list_find_Some in E as (Hi & Hhi & _).
    by rewrite (holds_unique 32 _ g j x i xi (inv_xmm s Hinv) Hj Hh Hi Hhi).
  - apply misses_find in E. by destruct (E _ _ Hj).
Qed.

Lemma view_vec_missed s g h :
  misses g (xmm_regs s) -> view_vec vu s g h = guest_vec vu g h.
Proof. intros Hm%misses_find. unfold view_vec. by rewrite Hm. Qed.

Lemma spilled_sse_reg r k h j : j ≠ RAX -> reg64 (spilled_sse vu r k h) j = reg64 h j.
Proof.
  intros Hj. unfold spilled_sse. destruct (used r); [|done].
  cbn [reg64 with_mem with_reg64]. by rewrite set_reg_ne.
Qed.

Lemma spilled_sse_xmm r k h : xmm128 (spilled_sse vu r k h) = xmm128 h.
Proof. unfold spilled_sse. by destruct (used r). Qed.

Lemma spilled_sse_load r k h n addr :
  (used r = true -> apart (gpr vu (vu_reg r)) 16 addr (Z.of_nat n)) ->
  load_bytes n addr (mem (spilled_sse vu r k h)) = load_bytes n addr (mem h).
Proof.
  intros Ha. unfold spilled_sse. destruct (used r); [|done]. cbn [mem with_mem with_reg64].
  apply load_store_apart. by apply Ha.
Qed.

Lemma spilled_sse_stored r k h :
  used r = true ->
  load_bytes 16 (gpr vu (vu_reg r)) (mem (spilled_sse vu r k h)) = xmm128 h k mod 2 ^ 128.
Proof.
  intros Hu. unfold spilled_sse. rewrite Hu. cbn [mem with_mem].
  by rewrite (load_store_same 16 _ _ _ 16) by lia.
Qed.

Lemma filled_sse_reg id load_state k h j :
  j ≠ RAX -> reg64 (filled_sse vu id load_state k h) j = reg64 h j.
Proof.
  intros Hj. unfold filled_sse. destruct load_state; [|done].
  cbn [reg64 with_xmm128 with_reg64]. by rewrite set_reg_ne.
Qed.

Lemma filled_sse_xmm id load_state k h j :
  j ≠ k -> xmm128 (filled_sse vu id load_state k h) j = xmm128 h j.
Proof.
  intros Hj. unfold filled_sse. destruct load_state; [|done].
  cbn [xmm128 with_xmm128 with_reg64]. by rewrite set_reg_ne.
Qed.

Lemma filled_sse_at id load_state k h :
  xmm128 (filled_sse vu id load_state k h) k
  = if load_state then load_bytes 16 (gpr vu id) (mem h) else xmm128 h k.
Proof.
  unfold filled_sse. destruct load_state; [|done].
  cbn [xmm128 with_xmm128 with_reg64 mem]. by rewrite set_reg_eq.
Qed.

Lemma filled_sse_mem id load_state k h : mem (filled_sse vu id load_state k h) = mem h.
Proof. unfold filled_sse. by destruct load_state. Qed.

(** The state and the host after an acquire on the vector pool. *)
Lemma exec_alloc_sse id load_state s k s' h :
  alloc_inv s -> ids_nonneg s -> layout_ok vu -> 0 <= id ->
  alloc_sse_reg vu id load_state s = Ok (k, s') ->
  ∃ code h1,
    trace s' = trace s ++ (Emit <$> code)
    ∧ exec code h = Some h1
    ∧ (∃ x, xmm_regs s' !! k = Some x ∧ holds id x)
    ∧ (∀ j, j ≠ RAX -> reg64 h1 j = reg64 h j)
    ∧ (∀ j, j ≠ k -> xmm128 h1 j = xmm128 h j)
    ∧ xmm128 h1 k mod 2 ^ 128
      = (if load_state then view_vec vu s id h else xmm128 h k mod 2 ^ 128)
    ∧ (∀ g, 0 <= g < 32 -> g ≠ id -> view_vec vu s' g h1 = view_vec vu s g h)
    ∧ guest_PC vu h1 = guest_PC vu h
    ∧ (∀ g, 0 <= g < 16 -> guest_int64 vu g h1 = guest_int64 vu g h).
Proof.
  intros Hinv Hnn Hlay Hid Halloc.
  pose proof (alloc_sse_reg_inv vu _ _ _ _ _ Hinv Halloc) as Hinv'.
  destruct (alloc_sse_reg_spec vu _ _ _ _ _ Hinv Halloc)
    as (Hlt & (x' & Hx' & Hh' & _) & _ & Hcase).
  destruct Hcase as [(r & Hr & Hh & ->)|(Hm & Ht & Hregs & Htr)].
  { exists [], h. rewrite app_nil_r. split_and!; try done; [eauto|].
    destruct load_state; [|done]. symmetry. by eapply view_vec_held. }
  destruct Ht as (r & Hr & _).
  assert (Hrk : (grow_older <$> xmm_regs s) !!! k = grow_older r).
  { apply list_lookup_total_correct. by rewrite list_lookup_fmap, Hr. }
  assert (Hold : used r = true -> 0 <= vu_reg r < 32 ∧ vu_reg r ≠ id).
  { intros Hu. destruct Hinv as [_ (_ & Hused & _) _ _ _].
    destruct (Hused _ _ Hr Hu) as (_ & _ & ?). pose proof (Hnn VecPool k r Hr Hu).
    split; [lia|]. intros Heq. by destruct (Hm _ _ Hr). }
  set (h0 := spilled_sse vu r k h).
  set (h1 := filled_sse vu id load_state k h0).
  destruct (grow_older_same r) as [Hug Hvg].
  assert (Hmiss' : ∀ g, g ≠ id ->
            (∀ j q, xmm_regs s !! j = Some q -> holds g q -> j = k) ->
            misses g (xmm_regs s')).
  { intros g Hg Honly i q Hq Hhq. rewrite Hregs, list_lookup_alter in Hq.
    case_decide as Hki.
    - subst i. rewrite list_lookup_fmap, Hr in Hq. simplify_eq/=.
      destruct Hhq as [_ Hv]. simpl in Hv. congruence.
    - rewrite list_lookup_fmap in Hq.
      destruct (xmm_regs s !! i) as [q0|] eqn:Hq0; simplify_eq/=.
      apply Hki. symmetry. apply (Honly i q0 Hq0).
      destruct Hhq as [Hu Hv]. destruct (grow_older_same q0) as [Hu0 Hv0].
      split; congruence. }
  assert (Hload : ∀ n addr,
            (used r = true -> apart (gpr vu (vu_reg r)) 16 addr (Z.of_nat n)) ->
            load_bytes n addr (mem h1) = load_bytes n addr (mem h)).
  { intros n addr Ha. unfold h1. rewrite filled_sse_mem. by apply spilled_sse_load. }
  exists ((if used r then store_code vu VecPool r k else [])
          ++ fill_sse vu id load_state k), h1.
  split_and!.
  - rewrite Htr. unfold spill_sse, store_code. by rewrite Hrk, Hug, Hvg.
  - apply exec_spill_fill_sse.
    + intros Hu. apply (lay_vec_aligned vu Hlay). by apply Hold.
    + intros _. apply (lay_vec_aligned vu Hlay). lia.
  - eauto.
  - intros j Hj. unfold h1, h0. by rewrite filled_sse_reg, spilled_sse_reg.
  - intros j Hj. unfold h1, h0. by rewrite filled_sse_xmm, spilled_sse_xmm.
  - unfold h1. rewrite filled_sse_at. destruct load_state.
    + rewrite (view_vec_missed s id h Hm). unfold h0, guest_vec.
      rewrite spilled_sse_load.
      * apply Z.mod_small. apply (load_bytes_bound 16).
      * intros Hu. destruct (Hold Hu). apply (lay_vec_vec vu Hlay); lia.
    + unfold h0. by rewrite spilled_sse_xmm.
  - intros g Hg Hgid.
    destruct (hit_or_miss g (xmm_regs s)) as [(j & q & Hj & Hhq & _)|Hmg].
    + destruct (decide (j = k)) as [->|Hjk].
      * assert (q = r) as -> by congruence.
        rewrite (view_vec_held s g h k r Hinv Hr Hhq).
        rewrite (view_vec_missed s' g h1).
        2:{ apply Hmiss'; [done|]. intros i q Hq Hhq'.
            by apply (holds_unique 32 _ g k r i q (inv_xmm s Hinv)). }
        unfold guest_vec, h1. rewrite filled_sse_mem. unfold h0.
        destruct Hhq as [Hu <-]. by apply spilled_sse_stored.
      * rewrite (view_vec_held s g h j q Hinv Hj Hhq).
        rewrite (view_vec_held s' g h1 j (grow_older q) Hinv').
        -- unfold h1, h0. by rewrite filled_sse_xmm, spilled_sse_xmm.
        -- by rewrite Hregs, list_lookup_alter_ne, list_lookup_fmap, Hj.
        -- destruct Hhq as [Hu Hv]. destruct (grow_older_same q) as [Hu0 Hv0].
           split; congruence.
    + rewrite (view_vec_missed s g h Hmg), (view_vec_missed s' g h1).
      2:{ apply Hmiss'; [done|]. intros i q Hq Hhq'. by destruct (Hmg _ _ Hq). }
      unfold guest_vec. apply Hload. intros Hu. destruct (Hold Hu).
      apply (lay_vec_vec vu Hlay); [lia|lia|].
      intros Heq. destruct (Hmg _ _ Hr). split; congruence.
  - unfold guest_PC. apply Hload. intros Hu. destruct (Hold Hu).
    apply (lay_vec_PC vu Hlay). lia.
  - intros g Hg. unfold guest_int64. apply Hload. intros Hu. destruct (Hold Hu).
    apply apart_sym, (lay_int_vec vu Hlay); lia.
Qed.


End AcquireVec.


(** ** The flush at the end of a block *)

Section BlockEnd.

Context (vu : VectorUnit).
Implicit Types (s : VU_JIT64) (h : host).

Lemma emitted_code_unique s s' c1 c2 :
  trace s' = trace s ++ (Emit <$> c1) -> trace s' = trace s ++ (Emit <$> c2) -> c1 = c2.
Proof.
  intros H1 H2. rewrite H1 in H2. apply app_inv_head in H2.
  apply (f_equal emitted) in H2. by rewrite !emitted_Emit in H2.
Qed.

(** The flush code stores nothing at guest integer register 0. *)
Lemma exec_flush_zero s h :
  alloc_inv s -> ids_nonneg s -> layout_ok vu ->
  ∃ h', exec (flush_code vu (xmm_regs s) (int_regs s) 0) h = Some h'
    ∧ (∀ k, k ≠ RAX -> reg64 h' k = reg64 h k)
    ∧ (∀ i r, int_regs s !! i = Some r -> used r = true -> vu_reg r ≠ 0 ->
         guest_int64 vu (vu_reg r) h' = reg64 h i mod 2 ^ 64)
    ∧ (∀ i x, xmm_regs s !! i = Some x -> used x = true -> vu_reg x ≠ 0 ->
         guest_vec vu (vu_reg x) h' = xmm128 h i mod 2 ^ 128)
    ∧ guest_int64 vu 0 h' = guest_int64 vu 0 h.
Proof.
  intros Hinv Hnn Hlay.
  destruct (exec_flush_regs vu s h Hinv Hnn Hlay) as (h' & Hexec & Hreg & Hint & Hvec).
  destruct (exec_flush_code vu (xmm_regs s) (int_regs s) 0 h)
    as (h'' & Hexec' & _ & _ & Hframe & _).
  { by apply inv_flush_safe. }
  { intros j r Hr [Hu _]%flushable_spec. simpl. by apply (inv_RAX_free s j r). }
  rewrite Hexec in Hexec'. injection Hexec' as <-.
  exists h'. split_and!; [done..|].
  unfold guest_int64. apply load_bytes_ext. intros a Ha. apply Hframe.
  - intros j x Hx [Hu Hz]%flushable_spec.
    apply (apart_not_in (int_gpr vu 0) 8 _ 16 a); [|done].
    apply (lay_int_vec vu Hlay); [lia|].
    destruct Hinv as [_ (_ & Hused & _) _ _ _].
    destruct (Hused _ _ Hx Hu) as (_ & _ & ?). pose proof (Hnn VecPool j x Hx Hu). lia.
  - intros j r Hr [Hu Hz]%flushable_spec.
    apply (apart_not_in (int_gpr vu 0) 8 _ 8 a); [|done].
    apply (lay_int_int vu Hlay); [lia| |done].
    destruct Hinv as [(_ & Hused & _) _ _ _ _].
    destruct (Hused _ _ Hr Hu) as (_ & _ & ?). pose proof (Hnn IntPool j r Hr Hu). lia.
Qed.

(** The code of an acquire stores nothing at the guest register it
    acquires. *)
Lemma exec_alloc_int_own id load_state s k s' h :
  alloc_inv s -> ids_nonneg s -> layout_ok vu -> 0 <= id ->
  alloc_int_reg vu id load_state s = Ok (k, s') ->
  ∃ code h1, trace s' = trace s ++ (Emit <$> code)
    ∧ exec code h = Some h1
    ∧ guest_int64 vu id h1 = guest_int64 vu id h.
Proof.
  intros Hinv Hnn Hlay Hid Ha.
  destruct (alloc_int_reg_spec vu _ _ _ _ _ Hinv Ha)
    as (Hlt & _ & _ & [(r & Hr & Hh & ->)|(Hm & Ht & Hregs & Htr)]).
  { exists [], h. by rewrite app_nil_r. }
  destruct Ht as (r & Hr & _).
  assert (Hrk : (grow_older <$> int_regs s) !!! k = grow_older r).
  { apply list_lookup_total_correct. by rewrite list_lookup_fmap, Hr. }
  eexists _, _. split; [exact Htr|]. split; [apply exec_spill_fill|].
  unfold guest_int64. rewrite filled_int_mem, Hrk. apply spilled_int_load.
  destruct (grow_older_same r) as [-> ->]. intros Hu.
  destruct Hinv as [(_ & Hused & _) _ _ _ _].
  destruct (Hused _ _ Hr Hu) as (_ & _ & ?). pose proof (Hnn IntPool k r Hr Hu).
  apply (lay_int_int vu Hlay); [lia|lia|].
  intros Heq. by destruct (Hm _ _ Hr).
Qed.


End BlockEnd.


(** ** The steps of a compilation *)

Lemma low16_high a b : low16 a b / 2 ^ 16 = a / 2 ^ 16.
Proof.
  unfold low16. rewrite (Z.div_mod a (2 ^ 16)) at 1 by lia.
  replace (2 ^ 16 * (a / 2 ^ 16) + a mod 2 ^ 16 - a mod 2 ^ 16 + b mod 2 ^ 16)
    with (b mod 2 ^ 16 + (a / 2 ^ 16) * 2 ^ 16) by lia.
  rewrite Z.div_add by lia. rewrite Z.div_small; [lia|]. apply Z.mod_pos_bound. lia.
Qed.



